(** * AutoPas pair-iteration engine: a shallow embedding and its properties

    The development follows the C++ sources of the repository.  Every
    module below embeds one header; the names of classes, member
    functions and fields are kept.

    Conventions of the embedding.
    - [double] values: where a statement depends on the outcome of an
      operation or a comparison on computed doubles (the pruning of the
      cell offsets, the radius test of the list-building functor, the
      global values of the functor, the comparison operators of
      [ContainerSelectorInfo]) they are IEEE 754 binary64 numbers
      ([Binary64] and the modules after it).  Where only the control
      flow, the indexing or the identity of the particles matters they
      are exact rationals ([Q]).
    - [unsigned long] / [size_t] values are integers ([Z]) reduced modulo
      2^64 where the source performs index arithmetic ([u64]).
    - A [Particle&] / [Particle*] is the identity of a particle object;
      distinct objects have distinct identities.
    - A call that may raise goes through the [Run] monad, which records
      every message handed to the exception handler and the way the call
      ended. *)

From Stdlib Require Import Floats.
From Stdlib Require Import ZArith QArith Reals Qreals Lqa Lia Bool List.
From stdpp Require Import gmap list strings.

Local Open Scope Z_scope.

(** Decimal constants of the sources that are not doubles stand for the
    nearest double. *)
#[local] Set Warnings "-inexact-float".

(** ** utils/ExceptionHandler.h *)

Module ExceptionHandler.

Inductive ExceptionBehavior : Set :=
| ignore
| throwException
| printAbort
| printCustomAbortFunction.

(** What [_customAbortFunction()] does when it is called: it either
    comes back to the caller or ends the process. *)
Inductive CustomAbort : Set :=
| customReturns
| customTerminates.

Record Handler : Set := MkHandler {
  _behavior : ExceptionBehavior;
  _customAbortFunction : CustomAbort
}.

(** How a call ends. *)
Inductive Result (A : Type) : Type :=
| Returned (a : A)
| Thrown (what : string)
| Aborted (what : string).
Arguments Returned {A} a.
Arguments Thrown {A} what.
Arguments Aborted {A} what.

(** A run: the exceptions raised (in order) and the result. *)
Record Run (A : Type) : Type := MkRun {
  raised : list string;
  result : Result A
}.
Arguments MkRun {A} raised result.
Arguments raised {A} r.
Arguments result {A} r.

Definition ret {A} (a : A) : Run A := MkRun [] (Returned a).

Definition bind {A B} (m : Run A) (k : A -> Run B) : Run B :=
  match result m with
  | Returned a => MkRun (raised m ++ raised (k a)) (result (k a))
  | Thrown w => MkRun (raised m) (Thrown w)
  | Aborted w => MkRun (raised m) (Aborted w)
  end.

(** [throw AutoPasException(what)] written in the source itself. *)
Definition throw {A} (what : string) : Run A := MkRun [what] (Thrown what).

(** [nonThrowException]: the switch over [_behavior]. *)
Definition nonThrowException (h : Handler) (what : string) : Result unit :=
  match _behavior h with
  | ignore => Returned tt
  | printAbort => Aborted what
  | printCustomAbortFunction =>
      match _customAbortFunction h with
      | customReturns => Returned tt
      | customTerminates => Aborted what
      end
  | throwException => Returned tt
  end.

(** [ExceptionHandler::exception(e)]. *)
Definition exception (h : Handler) (what : string) : Run unit :=
  MkRun [what]
    match _behavior h with
    | throwException => Thrown what
    | _ => nonThrowException h what
    end.

(** Does the run end with an exception thrown to the caller? *)
Definition throws {A} (r : Run A) : bool :=
  match result r with Thrown _ => true | _ => false end.

(** The value handed back, when the call comes back at all. *)
Definition returns {A} (r : Run A) : option A :=
  match result r with Returned a => Some a | _ => None end.

(** The handler as the library sets it up and as the unit tests use it. *)
Definition throwing : Handler := MkHandler throwException customReturns.

End ExceptionHandler.

Import ExceptionHandler.

#[global] Instance Run_ret : MRet Run := @ret.
#[global] Instance Run_bind : MBind Run := fun A B k m => bind m k.

Lemma Run_bind_ret {A B} (a : A) (k : A -> Run B) : mret a ≫= k = k a.
Proof.
  change (bind (ret a) k = k a). unfold bind, ret. cbn. now destruct (k a).
Qed.

(** ** Options: DataLayoutOption, Newton3Option, TraversalOption *)

Inductive DataLayoutOption : Set := aos | soa | cuda.

Inductive Newton3Option : Set := disabled | enabled.

#[global] Instance DataLayoutOption_eq_dec : EqDecision DataLayoutOption.
Proof. solve_decision. Defined.

(** ** pairwiseFunctors/LJFunctorAVX2.h: the global values

    The order in which the member functions may be called.  The values
    are exact rationals here and no statement of this module speaks of
    them; the values in double precision are in [LJGlobals]. *)

Module LJFunctorAVX2.

Definition array3 : Type := Q * Q * Q.

Definition add3 (a b : array3) : array3 :=
  let '(a0, a1, a2) := a in
  let '(b0, b1, b2) := b in
  (a0 + b0, a1 + b1, a2 + b2)%Q.

Definition mulScalar3 (a : array3) (s : Q) : array3 :=
  let '(a0, a1, a2) := a in (a0 * s, a1 * s, a2 * s)%Q.

Record AoSThreadData : Type := {
  virialSum : array3;
  upotSum : Q
}.

Definition setZero (_ : AoSThreadData) : AoSThreadData :=
  {| virialSum := (0, 0, 0)%Q; upotSum := 0%Q |}.

Record state : Type := MkState {
  _upotSum : Q;
  _virialSum : array3;
  _aosThreadData : list AoSThreadData;
  _postProcessed : bool
}.

(** The state the constructor leaves behind. *)
Definition constructed : state :=
  MkState 0%Q (0, 0, 0)%Q [] false.

Definition resetGlobalValues (s : state) : state :=
  MkState 0%Q (0, 0, 0)%Q (map setZero (_aosThreadData s)) false.

Definition already_postprocessed : string :=
  "Already postprocessed, please don't call postProcessGlobalValues(bool newton3) twice without calling resetGlobalValues().".

Definition globals_disabled_upot : string :=
  "Trying to get upot even though calculateGlobals is false. If you want this functor to calculate global values, please specify calculateGlobals to be true.".

Definition globals_disabled_virial : string :=
  "Trying to get virial even though calculateGlobals is false. If you want this functor to calculate global values, please specify calculateGlobals to be true.".

Definition not_postprocessed : string :=
  "Not yet postprocessed, please call postProcessGlobalValues first.".

(** The reduction loop over [_aosThreadData]. *)
Definition accumulate (s : state) : Q * array3 :=
  fold_left
    (fun acc d => ((fst acc + upotSum d)%Q, add3 (snd acc) (virialSum d)))
    (_aosThreadData s) (_upotSum s, _virialSum s).

Definition postProcessGlobalValues (newton3 : bool) (s : state) : Run state :=
  if _postProcessed s then throw already_postprocessed
  else
    let '(u, v) := accumulate s in
    let '(u, v) :=
      if negb newton3 then ((u * (1 # 2))%Q, mulScalar3 v (1 # 2)) else (u, v) in
    ret (MkState (u / 6)%Q v (_aosThreadData s) true).

Section Accessors.
(** The template parameter. *)
Variable calculateGlobals : bool.

Definition getUpot (s : state) : Run Q :=
    if negb calculateGlobals then throw globals_disabled_upot
    else if negb (_postProcessed s) then throw not_postprocessed
    else ret (_upotSum s).

Definition getVirial (s : state) : Run Q :=
    if negb calculateGlobals then throw globals_disabled_virial
    else if negb (_postProcessed s) then throw not_postprocessed
    else
      let '(v0, v1, v2) := _virialSum s in ret (v0 + v1 + v2)%Q.
End Accessors.

Lemma postProcess_result newton3 s :
  _postProcessed s = false ->
  exists u v,
    postProcessGlobalValues newton3 s = ret (MkState u v (_aosThreadData s) true).
Proof.
  intros Hs. unfold postProcessGlobalValues. rewrite Hs.
  destruct (accumulate s) as [u v].
  destruct (negb newton3); eauto.
Qed.

Lemma postProcess_twice newton3 s :
  _postProcessed s = true ->
  postProcessGlobalValues newton3 s = throw already_postprocessed.
Proof. intros Hs. unfold postProcessGlobalValues. now rewrite Hs. Qed.

(** C9. [postProcessGlobalValues] throws exactly when the state is
    already post-processed, so a second call without an intervening
    [resetGlobalValues] throws while a call after a reset succeeds; a
    successful call leaves the state post-processed; [getUpot] and
    [getVirial] throw exactly when [calculateGlobals] is false or the
    state is not post-processed. *)
Theorem postprocessing_order (calculateGlobals n3 n3' : bool) (s : state) :
  throws (postProcessGlobalValues n3 s) = _postProcessed s
  /\ (forall s', returns (postProcessGlobalValues n3 s) = Some s' ->
        _postProcessed s' = true
        /\ throws (postProcessGlobalValues n3' s') = true
        /\ throws (postProcessGlobalValues n3' (resetGlobalValues s')) = false)
  /\ is_Some (returns (postProcessGlobalValues n3 (resetGlobalValues s)))
  /\ throws (getUpot calculateGlobals s)
     = negb calculateGlobals || negb (_postProcessed s)
  /\ throws (getVirial calculateGlobals s)
     = negb calculateGlobals || negb (_postProcessed s)
  /\ throws (getUpot calculateGlobals constructed) = true
  /\ throws (getVirial calculateGlobals constructed) = true.
Proof.
  repeat split.
  - destruct (_postProcessed s) eqn:Hs.
    + now rewrite postProcess_twice.
    + destruct (postProcess_result n3 s Hs) as (u & v & ->). reflexivity.
  - destruct (_postProcessed s) eqn:Hs.
    + rewrite postProcess_twice in H by assumption. discriminate.
    + destruct (postProcess_result n3 s Hs) as (u & v & Hr).
      rewrite Hr in H. cbn in H. now inversion H.
  - destruct (_postProcessed s) eqn:Hs.
    + rewrite postProcess_twice in H by assumption. discriminate.
    + destruct (postProcess_result n3 s Hs) as (u & v & Hr).
      rewrite Hr in H. cbn in H. inversion H; subst s'.
      now rewrite postProcess_twice.
  - destruct (postProcess_result n3' (resetGlobalValues s') eq_refl)
      as (u & v & ->).
    reflexivity.
  - destruct (postProcess_result n3 (resetGlobalValues s) eq_refl)
      as (u & v & ->).
    cbn. eauto.
  - unfold getUpot. destruct calculateGlobals; cbn; [|reflexivity].
    now destruct (_postProcessed s).
  - unfold getVirial. destruct calculateGlobals; cbn; [|reflexivity].
    destruct (_postProcessed s); cbn; [|reflexivity].
    now destruct (_virialSum s) as [[v0 v1] v2].
  - unfold getUpot. now destruct calculateGlobals.
  - unfold getVirial. now destruct calculateGlobals.
Qed.

End LJFunctorAVX2.

(** ** Traversal classes: type, layout, Newton3 mode, applicability

    The headers embedded here are C18Traversal.h, C04SoATraversal.h,
    C01TraversalVerlet.h, SlicedTraversalVerlet.h and TraversalVerlet.h. *)

Module Traversals.

(** The tags of [TraversalOption].  The enumerators are the case labels of
    [TraversalSelector::generateTraversal]; [unlisted tag] is a value of
    the enumeration type that is none of them, such as
    [TraversalOption(-1)]. *)
Inductive TraversalOption : Set :=
| directSumTraversal
| c08
| sliced
| c18
| c01
| c04SoA
| c04
| c01CombinedSoA
| slicedVerlet
| c18Verlet
| c01Verlet
| c01Cuda
| verletTraversal
| verletClusters
| verletClustersColoring
| varVerletTraversalAsBuild
| unlisted (tag : Z).

#[global] Instance TraversalOption_eq_dec : EqDecision TraversalOption.
Proof. solve_decision. Defined.

(** [allTraversalOptions]: every enumerator once. *)
Definition allTraversalOptions : list TraversalOption :=
  [directSumTraversal; c08; sliced; c18; c01; c04SoA; c04; c01CombinedSoA;
   slicedVerlet; c18Verlet; c01Verlet; c01Cuda; verletTraversal;
   verletClusters; verletClustersColoring; varVerletTraversalAsBuild].

(** The class templates the selector instantiates.  [C01Traversal] has the
    extra template argument [combineSoA]. *)
Inductive TraversalClass : Set :=
| DirectSumTraversal
| C08Traversal
| SlicedTraversal
| C18Traversal
| C01Traversal (combineSoA : bool)
| C04SoATraversal
| C04Traversal
| SlicedTraversalVerlet
| C18TraversalVerlet
| C01TraversalVerlet
| C01CudaTraversal
| TraversalVerlet
| VerletClustersTraversal
| VerletClustersColoringTraversal
| VarVerletTraversalAsBuild.

(** [TraversalSelectorInfo]: the fields the selector reads. *)
Record TraversalSelectorInfo : Type := {
  dims : Z * Z * Z;
  interactionLength : Q;
  cellLength : Q * Q * Q
}.

(** The arguments a traversal is constructed with (the functor pointer is
    the same in every case and is left out). *)
Inductive CtorArgs : Type :=
| FunctorOnly
| WithDims (d : Z * Z * Z)
| WithGeometry (d : Z * Z * Z) (il : Q) (cl : Q * Q * Q).

(** An instance of one of the class templates. *)
Record TraversalInterface : Type := MkTraversal {
  class : TraversalClass;
  DataLayout : DataLayoutOption;
  useNewton3 : bool;
  args : CtorArgs
}.

Definition getDataLayout (t : TraversalInterface) : DataLayoutOption :=
  DataLayout t.

Definition getUseNewton3 (t : TraversalInterface) : bool := useNewton3 t.

(** Modelled from the spec: the headers of DirectSumTraversal, C08Traversal,
    SlicedTraversal, C01Traversal, C04Traversal, C18TraversalVerlet,
    C01CudaTraversal, VerletClustersTraversal,
    VerletClustersColoringTraversal and VarVerletTraversalAsBuild are
    missing; each traversal exposes [getTraversalType()], and the selector
    test expects the option the class is registered under. *)
Definition getTraversalType_registered (c : TraversalClass) : TraversalOption :=
  match c with
  | DirectSumTraversal => directSumTraversal
  | C08Traversal => c08
  | SlicedTraversal => sliced
  | C01Traversal combineSoA => if combineSoA then c01CombinedSoA else c01
  | C04Traversal => c04
  | C18TraversalVerlet => c18Verlet
  | C01CudaTraversal => c01Cuda
  | VerletClustersTraversal => verletClusters
  | VerletClustersColoringTraversal => verletClustersColoring
  | VarVerletTraversalAsBuild => varVerletTraversalAsBuild
  | C18Traversal => c18
  | C04SoATraversal => c04SoA
  | SlicedTraversalVerlet => slicedVerlet
  | C01TraversalVerlet => c01Verlet
  | TraversalVerlet => verletTraversal
  end.

(** [getTraversalType()]: the five overrides present in the sources, the
    registered option for the other classes. *)
Definition getTraversalType (t : TraversalInterface) : TraversalOption :=
  match class t with
  | C18Traversal => c18
  | C04SoATraversal => c04SoA
  | SlicedTraversalVerlet => slicedVerlet
  | C01TraversalVerlet => c01Verlet
  | TraversalVerlet => verletTraversal
  | c => getTraversalType_registered c
  end.

Section Cuda.
(** Build configuration: is [AUTOPAS_CUDA] defined, and the count
    [cudaGetDeviceCount] writes when it is. *)
Variable AUTOPAS_CUDA : bool.
Variable cudaGetDeviceCount : Z.

(** [C18Traversal::isApplicable]. *)
Definition C18Traversal_isApplicable (DataLayout : DataLayoutOption) : bool :=
  let nDevices := if AUTOPAS_CUDA then cudaGetDeviceCount else 0 in
  if decide (DataLayout = cuda) then bool_decide (nDevices > 0) else true.

(** [C04SoATraversal::isApplicable]. *)
Definition C04SoATraversal_isApplicable (DataLayout : DataLayoutOption) : bool :=
  bool_decide (DataLayout = soa).

(** [C01TraversalVerlet::isApplicable]. *)
Definition C01TraversalVerlet_isApplicable
  (DataLayout : DataLayoutOption) (useNewton3 : bool) : bool :=
  negb useNewton3 && bool_decide (DataLayout = aos).

(** [SlicedTraversalVerlet::isApplicable]. *)
Definition SlicedTraversalVerlet_isApplicable (DataLayout : DataLayoutOption) : bool :=
  bool_decide (DataLayout = aos).

(** [TraversalVerlet::isApplicable]. *)
Definition TraversalVerlet_isApplicable (DataLayout : DataLayoutOption) : bool :=
  bool_decide (DataLayout = aos) || bool_decide (DataLayout = soa).

(** [isApplicable()] through the interface, for the classes whose header
    is present ([None] for the others). *)
Definition isApplicable (t : TraversalInterface) : option bool :=
  match class t with
  | C18Traversal => Some (C18Traversal_isApplicable (DataLayout t))
  | C04SoATraversal => Some (C04SoATraversal_isApplicable (DataLayout t))
  | C01TraversalVerlet =>
      Some (C01TraversalVerlet_isApplicable (DataLayout t) (useNewton3 t))
  | SlicedTraversalVerlet => Some (SlicedTraversalVerlet_isApplicable (DataLayout t))
  | TraversalVerlet => Some (TraversalVerlet_isApplicable (DataLayout t))
  | _ => None
  end.

(** The number of devices [isApplicable] sees. *)
Definition availableDevices : Z :=
  if AUTOPAS_CUDA then cudaGetDeviceCount else 0.

End Cuda.

(** ** selectors/TraversalSelector.h *)

Definition unknown_traversal_type : string :=
  "Traversal type {} is not a known type!".

(** [generateTraversal<PairwiseFunctor, dataLayout, useNewton3>]. *)
Definition generateTraversal (h : Handler)
  (dataLayout : DataLayoutOption) (useNewton3 : bool)
  (traversalType : TraversalOption) (info : TraversalSelectorInfo)
  : Run (option TraversalInterface) :=
  let make c a := mret (Some (MkTraversal c dataLayout useNewton3 a)) in
  let geometry := WithGeometry (dims info) (interactionLength info) (cellLength info) in
  match traversalType with
  | directSumTraversal => make DirectSumTraversal FunctorOnly
  | c08 => make C08Traversal geometry
  | sliced => make SlicedTraversal geometry
  | c18 => make C18Traversal geometry
  | c01 => make (C01Traversal false) geometry
  | c04SoA => make C04SoATraversal geometry
  | c04 => make C04Traversal geometry
  | c01CombinedSoA => make (C01Traversal true) geometry
  | slicedVerlet => make SlicedTraversalVerlet (WithDims (dims info))
  | c18Verlet => make C18TraversalVerlet (WithDims (dims info))
  | c01Verlet => make C01TraversalVerlet (WithDims (dims info))
  | c01Cuda => make C01CudaTraversal (WithDims (dims info))
  | verletTraversal => make TraversalVerlet FunctorOnly
  | verletClusters => make VerletClustersTraversal FunctorOnly
  | verletClustersColoring => make VerletClustersColoringTraversal FunctorOnly
  | varVerletTraversalAsBuild => make VarVerletTraversalAsBuild FunctorOnly
  | unlisted _ =>
      exception h unknown_traversal_type ≫= fun _ => mret None
  end.

(** [generateTraversal<PairwiseFunctor>] with the layout and the Newton3
    mode given at run time. *)
Definition generateTraversal_dynamic (h : Handler)
  (traversalType : TraversalOption) (info : TraversalSelectorInfo)
  (dataLayout : DataLayoutOption) (newton3 : Newton3Option)
  : Run (option TraversalInterface) :=
  match dataLayout, newton3 with
  | aos, enabled => generateTraversal h aos true traversalType info
  | aos, disabled => generateTraversal h aos false traversalType info
  | soa, enabled => generateTraversal h soa true traversalType info
  | soa, disabled => generateTraversal h soa false traversalType info
  | cuda, enabled => generateTraversal h cuda true traversalType info
  | cuda, disabled => generateTraversal h cuda false traversalType info
  end.

(** Is the tag one of the enumerators? *)
Definition recognized (o : TraversalOption) : bool :=
  match o with unlisted _ => false | _ => true end.

Lemma recognized_all o : recognized o = true <-> o ∈ allTraversalOptions.
Proof.
  unfold allTraversalOptions. split.
  - destruct o; cbn; try discriminate; intros _; set_solver.
  - intros Hin. repeat (apply elem_of_cons in Hin as [->|Hin]; [reflexivity|]).
    now apply elem_of_nil in Hin.
Qed.

(** C8. Applicability composes as follows: [C01TraversalVerlet] is
    applicable only with Newton3 disabled; [C04SoATraversal] is applicable
    exactly when the layout is SoA; and a traversal of any of the classes
    instantiated with the cuda layout is applicable only when at least one
    device is available. *)
Theorem applicability_rules (AUTOPAS_CUDA : bool) (devices : Z)
  (t : TraversalInterface) :
  (C01TraversalVerlet_isApplicable (DataLayout t) (useNewton3 t) = true ->
   useNewton3 t = false)
  /\ (C04SoATraversal_isApplicable (DataLayout t) = true <-> DataLayout t = soa)
  /\ (DataLayout t = cuda ->
      isApplicable AUTOPAS_CUDA devices t = Some true ->
      availableDevices AUTOPAS_CUDA devices > 0)
  /\ (C18Traversal_isApplicable AUTOPAS_CUDA devices cuda
      = bool_decide (availableDevices AUTOPAS_CUDA devices > 0)).
Proof.
  destruct t as [c dl n3 a]; cbn. repeat split.
  - unfold C01TraversalVerlet_isApplicable. intros H.
    apply andb_true_iff in H as [H _]. now destruct n3.
  - unfold C04SoATraversal_isApplicable. now intros ?%bool_decide_eq_true.
  - intros ->. reflexivity.
  - intros -> Happ. unfold isApplicable in Happ; cbn in Happ.
    destruct c; try discriminate; inversion Happ as [H]; clear Happ;
      try discriminate.
    + unfold C18Traversal_isApplicable in H. cbn in H.
      now apply bool_decide_eq_true in H.
    + unfold C01TraversalVerlet_isApplicable in H.
      now rewrite andb_false_r in H.
Qed.

(** C7. For a tag that is none of the enumerators the selector hands the
    unknown-type message to the exception handler and yields no traversal
    (with the throwing handler the call ends in that exception); for each
    enumerator it returns, without raising, a traversal whose
    [getTraversalType()] is the requested option and whose layout and
    Newton3 mode are the template arguments. *)
Theorem generateTraversal_spec (h : Handler) (dataLayout : DataLayoutOption)
  (useNewton3 : bool) (info : TraversalSelectorInfo) (o : TraversalOption) :
  match o with
  | unlisted tag =>
      let r := generateTraversal h dataLayout useNewton3 o info in
      raised r = [unknown_traversal_type]
      /\ (forall t, returns r <> Some (Some t))
      /\ result (generateTraversal throwing dataLayout useNewton3 o info)
         = Thrown unknown_traversal_type
  | _ =>
      exists t,
        generateTraversal h dataLayout useNewton3 o info = mret (Some t)
        /\ getTraversalType t = o
        /\ getDataLayout t = dataLayout
        /\ getUseNewton3 t = useNewton3
  end.
Proof.
  destruct o; cbn; try (eexists; repeat split; reflexivity).
  split; [now destruct h as [[] []]|]. split; [|reflexivity].
  intros t. unfold returns, mbind, Run_bind, bind. cbn.
  destruct h as [[] []]; cbn; congruence.
Qed.

End Traversals.

(** ** Distances and their squares

    The sources compare squared distances.  A distance is the square root
    of the squared one; for non-negative bounds the two comparisons agree. *)

Lemma sq_le_sqrt (a L : Q) :
  (0 <= a)%Q -> (0 <= L)%Q ->
  ((a <= L * L)%Q <-> (sqrt (Q2R a) <= Q2R L)%R).
Proof.
  intros Ha HL. apply Qle_Rle in Ha, HL. rewrite RMicromega.Q2R_0 in Ha, HL.
  split.
  - intros H. apply Qle_Rle in H. rewrite Q2R_mult in H.
    rewrite <- (sqrt_square (Q2R L)) by assumption.
    now apply sqrt_le_1_alt.
  - intros H. apply Rle_Qle. rewrite Q2R_mult.
    rewrite <- (sqrt_sqrt (Q2R a)) by assumption.
    apply Rmult_le_compat; try apply sqrt_pos; assumption.
Qed.

Lemma sq_lt_sqrt (a L : Q) :
  (0 <= a)%Q -> (0 <= L)%Q ->
  ((a < L * L)%Q <-> (sqrt (Q2R a) < Q2R L)%R).
Proof.
  intros Ha HL. apply Qle_Rle in Ha, HL. rewrite RMicromega.Q2R_0 in Ha, HL.
  split.
  - intros H. apply Qlt_Rlt in H. rewrite Q2R_mult in H.
    rewrite <- (sqrt_square (Q2R L)) by assumption.
    now apply sqrt_lt_1_alt.
  - intros H. apply Rlt_Qlt. rewrite Q2R_mult.
    rewrite <- (sqrt_sqrt (Q2R a)) by assumption.
    apply Rmult_le_0_lt_compat; try apply sqrt_pos; assumption.
Qed.

(** ** Loops that append: lookups and lengths *)


Lemma length_bind_uniform {A B} (f : A -> list B) (m : nat) (l : list A) :
  (forall a, length (f a) = m) -> length (l ≫= f) = (length l * m)%nat.
Proof.
  intros Hf. induction l as [|a l IH]; [reflexivity|].
  rewrite bind_cons, length_app, Hf, IH. reflexivity.
Qed.

Lemma lookup_bind_uniform {A B} (f : A -> list B) (m : nat) (l : list A)
  (i j : nat) (a : A) :
  (forall a, length (f a) = m) -> l !! i = Some a -> (j < m)%nat ->
  (l ≫= f) !! (i * m + j)%nat = f a !! j.
Proof.
  intros Hf. revert i. induction l as [|b l IH]; intros i Hi Hj; [discriminate|].
  rewrite bind_cons. destruct i as [|i]; cbn in Hi.
  - inversion Hi; subst. cbn. apply lookup_app_l. now rewrite Hf.
  - rewrite lookup_app_r by (rewrite Hf; lia).
    rewrite Hf. replace (S i * m + j - m)%nat with (i * m + j)%nat by lia.
    now apply IH.
Qed.

(** ** Dereferencing an iterator or an index *)

Lemma elem_of_option_list {A} (o : option A) (x : A) :
  x ∈ option_list o <-> o = Some x.
Proof.
  destruct o as [y|]; cbn.
  - rewrite list_elem_of_singleton. split; congruence.
  - split; [intros H; now apply elem_of_nil in H|discriminate].
Qed.

(** ** Counting the invocations of a functor entry point *)

Section Invocations.
Context {A : Type} `{EqDecision A}.

(** How often [c] occurs in the sequence of calls [t]. *)
Definition invocations (c : A) (t : list A) : nat :=
  length (filter (fun x => x = c) t).

Lemma invocations_app c t1 t2 :
  invocations c (t1 ++ t2) = (invocations c t1 + invocations c t2)%nat.
Proof. unfold invocations. now rewrite filter_app, length_app. Qed.

Lemma invocations_absent c t : c ∉ t -> invocations c t = 0%nat.
Proof.
  unfold invocations. induction t as [|x t IH]; [reflexivity|].
  intros Hn. apply not_elem_of_cons in Hn as [Hx Ht].
  rewrite filter_cons_False by congruence. auto.
Qed.

Lemma invocations_once c t : NoDup t -> c ∈ t -> invocations c t = 1%nat.
Proof.
  unfold invocations. induction 1 as [|x t Hx Hnd IH]; intros Hin.
  - now apply elem_of_nil in Hin.
  - apply elem_of_cons in Hin as [->|Hin].
    + rewrite filter_cons_True by reflexivity. cbn.
      f_equal. now apply invocations_absent.
    + rewrite filter_cons_False; [auto|]. intros ->. contradiction.
Qed.

Lemma invocations_pos c t : c ∈ t <-> (0 < invocations c t)%nat.
Proof.
  unfold invocations. split.
  - intros Hin. assert (Hf : c ∈ filter (fun x => x = c) t)
      by now apply list_elem_of_filter.
    destruct (filter (fun x => x = c) t); [now apply elem_of_nil in Hf|cbn; lia].
  - intros Hlen. destruct (filter (fun x => x = c) t) as [|y l] eqn:Hf; [cbn in Hlen; lia|].
    assert (Hy : y ∈ filter (fun x => x = c) t) by (rewrite Hf; left).
    apply list_elem_of_filter in Hy as [-> Hy]. exact Hy.
Qed.

End Invocations.

(** ** pairwiseFunctors/CellFunctor.h

    The functor behind [_functor] is a virtual interface; the cell functor
    is described by the sequence of calls it makes on it. *)

Module CellFunctor.

Section CellFunctor.
Context {Particle SoA : Type}.

(** A cell: its particles in iteration order and its SoA buffer. *)
Record ParticleCell : Type := MkCell {
  particles : list Particle;
  _particleSoABuffer : SoA
}.

(** The entry points of the functor. *)
Inductive FunctorCall : Type :=
| AoSFunctor (i j : Particle) (newton3 : bool)
| SoAFunctor (soa : SoA) (newton3 : bool)
| SoAFunctorPair (soa1 soa2 : SoA) (newton3 : bool).

(** Iterators are positions in the cell; [*outer] is the lookup. *)
Definition processCellAoSN3 (cell : ParticleCell) : list FunctorCall :=
  outer ← seq 0 (length (particles cell));
  p1 ← option_list (particles cell !! outer);
  (fun p2 => AoSFunctor p1 p2 true) <$> drop (S outer) (particles cell).

Definition processCellAoSNoN3 (cell : ParticleCell) : list FunctorCall :=
  outer ← seq 0 (length (particles cell));
  p1 ← option_list (particles cell !! outer);
  ((fun p2 => AoSFunctor p1 p2 false) <$> take outer (particles cell))
  ++ ((fun p2 => AoSFunctor p1 p2 false) <$> drop (S outer) (particles cell)).

Definition processCellPairAoSN3 (cell1 cell2 : ParticleCell) : list FunctorCall :=
  p1 ← particles cell1;
  p2 ← particles cell2;
  [AoSFunctor p1 p2 true].

Definition processCellPairAoSNoN3 (cell1 cell2 : ParticleCell) : list FunctorCall :=
  p1 ← particles cell1;
  p2 ← particles cell2;
  [AoSFunctor p1 p2 false; AoSFunctor p2 p1 false].

Definition processCellPairSoAN3 (cell1 cell2 : ParticleCell) : list FunctorCall :=
  [SoAFunctorPair (_particleSoABuffer cell1) (_particleSoABuffer cell2) true].

Definition processCellPairSoANoN3 (cell1 cell2 : ParticleCell) : list FunctorCall :=
  [SoAFunctorPair (_particleSoABuffer cell1) (_particleSoABuffer cell2) false;
   SoAFunctorPair (_particleSoABuffer cell2) (_particleSoABuffer cell1) false].

Definition processCellSoAN3 (cell : ParticleCell) : list FunctorCall :=
  [SoAFunctor (_particleSoABuffer cell) true].

Definition processCellSoANoN3 (cell : ParticleCell) : list FunctorCall :=
  [SoAFunctor (_particleSoABuffer cell) false].

Section Dispatch.
(** The template arguments. *)
Variable useSoA : bool.
Variable useNewton3 : bool.

Definition processCell (cell : ParticleCell) : list FunctorCall :=
  if useSoA then
    if useNewton3 then processCellSoAN3 cell else processCellSoANoN3 cell
  else
    if useNewton3 then processCellAoSN3 cell else processCellAoSNoN3 cell.

Definition processCellPair (cell1 cell2 : ParticleCell) : list FunctorCall :=
  if useSoA then
    if useNewton3 then processCellPairSoAN3 cell1 cell2
    else processCellPairSoANoN3 cell1 cell2
  else
    if useNewton3 then processCellPairAoSN3 cell1 cell2
    else processCellPairAoSNoN3 cell1 cell2.
End Dispatch.

(** *** Which calls are made *)

Lemma elem_of_processCellAoSN3 cell c :
  c ∈ processCellAoSN3 cell <->
  exists i j p q, (i < j)%nat /\ particles cell !! i = Some p
    /\ particles cell !! j = Some q /\ c = AoSFunctor p q true.
Proof.
  unfold processCellAoSN3. rewrite list_elem_of_bind. split.
  - intros (i & Hc & _). apply list_elem_of_bind in Hc as (p & Hc & Hp).
    apply elem_of_option_list in Hp.
    apply list_elem_of_fmap in Hc as (q & -> & Hq).
    apply list_elem_of_lookup in Hq as [k Hk]. rewrite lookup_drop in Hk.
    exists i, (S i + k)%nat, p, q. repeat split; [lia|assumption..].
  - intros (i & j & p & q & Hij & Hp & Hq & ->). exists i. split.
    + apply list_elem_of_bind. exists p. split; [|now apply elem_of_option_list].
      apply list_elem_of_fmap. exists q. split; [reflexivity|].
      apply list_elem_of_lookup. exists (j - S i)%nat.
      rewrite lookup_drop. now replace (S i + (j - S i))%nat with j by lia.
    + apply elem_of_seq. apply lookup_lt_Some in Hp. lia.
Qed.

Lemma elem_of_processCellAoSNoN3 cell c :
  c ∈ processCellAoSNoN3 cell <->
  exists i j p q, i ≠ j /\ particles cell !! i = Some p
    /\ particles cell !! j = Some q /\ c = AoSFunctor p q false.
Proof.
  unfold processCellAoSNoN3. rewrite list_elem_of_bind. split.
  - intros (i & Hc & _). apply list_elem_of_bind in Hc as (p & Hc & Hp).
    apply elem_of_option_list in Hp.
    apply elem_of_app in Hc as [Hc|Hc];
      apply list_elem_of_fmap in Hc as (q & -> & Hq);
      apply list_elem_of_lookup in Hq as [k Hk].
    + apply lookup_take_Some in Hk as [Hk Hlt].
      exists i, k, p, q. repeat split; [lia|assumption..].
    + rewrite lookup_drop in Hk.
      exists i, (S i + k)%nat, p, q. repeat split; [lia|assumption..].
  - intros (i & j & p & q & Hij & Hp & Hq & ->). exists i. split.
    + apply list_elem_of_bind. exists p. split; [|now apply elem_of_option_list].
      apply elem_of_app. destruct (decide (j < i)%nat) as [Hlt|Hge].
      * left. apply list_elem_of_fmap. exists q. split; [reflexivity|].
        apply list_elem_of_lookup. exists j. now apply lookup_take_Some.
      * right. apply list_elem_of_fmap. exists q. split; [reflexivity|].
        apply list_elem_of_lookup. exists (j - S i)%nat.
        rewrite lookup_drop. now replace (S i + (j - S i))%nat with j by lia.
    + apply elem_of_seq. apply lookup_lt_Some in Hp. lia.
Qed.

Lemma elem_of_processCellPairAoSN3 cell1 cell2 c :
  c ∈ processCellPairAoSN3 cell1 cell2 <->
  exists p q, p ∈ particles cell1 /\ q ∈ particles cell2
    /\ c = AoSFunctor p q true.
Proof.
  unfold processCellPairAoSN3. rewrite list_elem_of_bind. split.
  - intros (p & Hc & Hp). apply list_elem_of_bind in Hc as (q & Hc & Hq).
    apply list_elem_of_singleton in Hc. eauto 6.
  - intros (p & q & Hp & Hq & ->). exists p. split; [|assumption].
    apply list_elem_of_bind. exists q. split; [|assumption]. left.
Qed.

Lemma elem_of_processCellPairAoSNoN3 cell1 cell2 c :
  c ∈ processCellPairAoSNoN3 cell1 cell2 <->
  exists p q, p ∈ particles cell1 /\ q ∈ particles cell2
    /\ (c = AoSFunctor p q false \/ c = AoSFunctor q p false).
Proof.
  unfold processCellPairAoSNoN3. rewrite list_elem_of_bind. split.
  - intros (p & Hc & Hp). apply list_elem_of_bind in Hc as (q & Hc & Hq).
    apply elem_of_cons in Hc as [Hc|Hc]; [eauto 7|].
    apply list_elem_of_singleton in Hc. eauto 7.
  - intros (p & q & Hp & Hq & Hc). exists p. split; [|assumption].
    apply list_elem_of_bind. exists q. split; [|assumption].
    destruct Hc as [-> | ->]; [left|right; left].
Qed.

(** *** No call is made twice *)

Lemma NoDup_deref {B} (l : list Particle) (i : nat) (g : Particle -> list B) :
  (forall p, l !! i = Some p -> NoDup (g p)) ->
  NoDup (option_list (l !! i) ≫= g).
Proof.
  intros Hg. destruct (l !! i) as [p|] eqn:Hp; cbn; [|constructor].
  rewrite app_nil_r. now apply Hg.
Qed.

Lemma elem_of_deref {B} (l : list Particle) (i : nat) (g : Particle -> list B) y :
  y ∈ option_list (l !! i) ≫= g <-> exists p, l !! i = Some p /\ y ∈ g p.
Proof.
  rewrite list_elem_of_bind. setoid_rewrite elem_of_option_list.
  split; intros (p & H1 & H2); eauto.
Qed.

#[local] Instance AoSFunctor_inj p n3 : Inj (=) (=) (fun q => AoSFunctor p q n3).
Proof. intros q1 q2 H. now inversion H. Qed.

Lemma NoDup_processCellAoSN3 cell :
  NoDup (particles cell) -> NoDup (processCellAoSN3 cell).
Proof.
  intros Hnd. unfold processCellAoSN3. apply NoDup_bind; [| |apply NoDup_seq].
  - intros i1 i2 y _ _ H1 H2.
    apply elem_of_deref in H1 as (p1 & Hp1 & H1).
    apply elem_of_deref in H2 as (p2 & Hp2 & H2).
    apply list_elem_of_fmap in H1 as (q1 & -> & _).
    apply list_elem_of_fmap in H2 as (q2 & Heq & _).
    inversion Heq; subst. eapply NoDup_lookup; eassumption.
  - intros i _. apply NoDup_deref. intros p _.
    apply NoDup_fmap_2; [apply _|].
    eapply sublist_NoDup; [exact Hnd|apply sublist_drop].
Qed.

Lemma NoDup_processCellAoSNoN3 cell :
  NoDup (particles cell) -> NoDup (processCellAoSNoN3 cell).
Proof.
  intros Hnd. unfold processCellAoSNoN3. apply NoDup_bind; [| |apply NoDup_seq].
  - intros i1 i2 y _ _ H1 H2.
    apply elem_of_deref in H1 as (p1 & Hp1 & H1).
    apply elem_of_deref in H2 as (p2 & Hp2 & H2).
    rewrite <- fmap_app in H1, H2.
    apply list_elem_of_fmap in H1 as (q1 & -> & _).
    apply list_elem_of_fmap in H2 as (q2 & Heq & _).
    inversion Heq; subst. eapply NoDup_lookup; eassumption.
  - intros i _. apply NoDup_deref. intros p _.
    rewrite <- fmap_app, <- delete_take_drop.
    apply NoDup_fmap_2; [apply _|].
    eapply sublist_NoDup; [exact Hnd|apply sublist_delete].
Qed.

Lemma NoDup_processCellPairAoSN3 cell1 cell2 :
  NoDup (particles cell1) -> NoDup (particles cell2) ->
  NoDup (processCellPairAoSN3 cell1 cell2).
Proof.
  intros Hnd1 Hnd2. unfold processCellPairAoSN3. apply NoDup_bind; [| |exact Hnd1].
  - intros p1 p2 y _ _ H1 H2.
    apply list_elem_of_bind in H1 as (q1 & H1 & _).
    apply list_elem_of_bind in H2 as (q2 & H2 & _).
    apply list_elem_of_singleton in H1, H2. congruence.
  - intros p _. apply NoDup_bind; [| |exact Hnd2].
    + intros q1 q2 y _ _ H1 H2.
      apply list_elem_of_singleton in H1, H2. congruence.
    + intros q _. apply NoDup_singleton.
Qed.

Lemma NoDup_processCellPairAoSNoN3 cell1 cell2 :
  NoDup (particles cell1 ++ particles cell2) ->
  NoDup (processCellPairAoSNoN3 cell1 cell2).
Proof.
  intros Hnd. apply NoDup_app in Hnd as (Hnd1 & Hdisj & Hnd2).
  unfold processCellPairAoSNoN3. apply NoDup_bind; [| |exact Hnd1].
  - intros p1 p2 y Hp1 Hp2 H1 H2.
    apply list_elem_of_bind in H1 as (q1 & H1 & Hq1).
    apply list_elem_of_bind in H2 as (q2 & H2 & Hq2).
    apply elem_of_cons in H1 as [->|H1];
      [|apply list_elem_of_singleton in H1 as ->];
      (apply elem_of_cons in H2 as [H2|H2];
       [|apply list_elem_of_singleton in H2]);
      inversion H2; subst; try reflexivity.
    + exfalso. eapply Hdisj; eassumption.
    + exfalso. eapply Hdisj; eassumption.
  - intros p Hp. apply NoDup_bind; [| |exact Hnd2].
    + intros q1 q2 y _ _ H1 H2.
      apply elem_of_cons in H1 as [->|H1];
        [|apply list_elem_of_singleton in H1 as ->];
        (apply elem_of_cons in H2 as [H2|H2];
         [|apply list_elem_of_singleton in H2]);
        inversion H2; subst; reflexivity.
    + intros q Hq. apply NoDup_cons. split; [|apply NoDup_singleton].
      rewrite list_elem_of_singleton. intros Heq. inversion Heq; subst.
      eapply Hdisj; eassumption.
Qed.

End CellFunctor.

Arguments ParticleCell : clear implicits.
Arguments FunctorCall : clear implicits.

#[global] Instance FunctorCall_eq_dec {Particle SoA : Type}
  `{EqDecision Particle} `{EqDecision SoA} :
  EqDecision (FunctorCall Particle SoA).
Proof. solve_decision. Defined.

End CellFunctor.

(** C2. In AoS layout without Newton3 the cell functor calls
    [AoSFunctor(p_i, p_j, false)] exactly once for every two different
    positions [i], [j] of one cell and makes no other call; for two cells
    it calls [AoSFunctor(p, q, false)] and [AoSFunctor(q, p, false)]
    exactly once each for every [p] of the first and [q] of the second
    cell and makes no other call.  The particles are different objects. *)
Theorem aos_noN3_visits {Particle SoA : Type}
  `{EqDecision Particle} `{EqDecision SoA}
  (cell cell1 cell2 : CellFunctor.ParticleCell Particle SoA) :
  NoDup (CellFunctor.particles cell) ->
  NoDup (CellFunctor.particles cell1 ++ CellFunctor.particles cell2) ->
  (forall i j p q, i ≠ j ->
     CellFunctor.particles cell !! i = Some p ->
     CellFunctor.particles cell !! j = Some q ->
     invocations (CellFunctor.AoSFunctor p q false)
       (CellFunctor.processCell false false cell) = 1%nat)
  /\ (forall c, c ∈ CellFunctor.processCell false false cell ->
        exists i j p q, i ≠ j
          /\ CellFunctor.particles cell !! i = Some p
          /\ CellFunctor.particles cell !! j = Some q
          /\ c = CellFunctor.AoSFunctor p q false)
  /\ (forall p q, p ∈ CellFunctor.particles cell1 ->
        q ∈ CellFunctor.particles cell2 ->
        invocations (CellFunctor.AoSFunctor p q false)
          (CellFunctor.processCellPair false false cell1 cell2) = 1%nat
        /\ invocations (CellFunctor.AoSFunctor q p false)
          (CellFunctor.processCellPair false false cell1 cell2) = 1%nat)
  /\ (forall c, c ∈ CellFunctor.processCellPair false false cell1 cell2 ->
        exists p q, p ∈ CellFunctor.particles cell1
          /\ q ∈ CellFunctor.particles cell2
          /\ (c = CellFunctor.AoSFunctor p q false
              \/ c = CellFunctor.AoSFunctor q p false)).
Proof.
  intros Hnd Hnd12. cbn. repeat split.
  - intros i j p q Hij Hp Hq. apply invocations_once.
    + now apply CellFunctor.NoDup_processCellAoSNoN3.
    + apply CellFunctor.elem_of_processCellAoSNoN3. eauto 10.
  - intros c Hc. now apply CellFunctor.elem_of_processCellAoSNoN3.
  - apply invocations_once.
    + now apply CellFunctor.NoDup_processCellPairAoSNoN3.
    + apply CellFunctor.elem_of_processCellPairAoSNoN3. eauto 10.
  - apply invocations_once.
    + now apply CellFunctor.NoDup_processCellPairAoSNoN3.
    + apply CellFunctor.elem_of_processCellPairAoSNoN3. eauto 10.
  - intros c Hc. now apply CellFunctor.elem_of_processCellPairAoSNoN3.
Qed.

Lemma aos_noN3_visits_witness :
  let cell := CellFunctor.MkCell [1; 2; 3]%nat tt in
  let cell1 := CellFunctor.MkCell [1; 2]%nat tt in
  let cell2 := CellFunctor.MkCell [3]%nat tt in
  invocations (CellFunctor.AoSFunctor 3 1 false)%nat
    (CellFunctor.processCell false false cell) = 1%nat
  /\ invocations (CellFunctor.AoSFunctor 3 2 false)%nat
    (CellFunctor.processCellPair false false cell1 cell2) = 1%nat.
Proof.
  intros cell cell1 cell2.
  assert (Hnd : NoDup (CellFunctor.particles cell))
    by (apply (bool_decide_unpack _); vm_compute; exact I).
  assert (Hnd12 : NoDup (CellFunctor.particles cell1 ++ CellFunctor.particles cell2))
    by (apply (bool_decide_unpack _); vm_compute; exact I).
  destruct (aos_noN3_visits cell cell1 cell2 Hnd Hnd12) as (H1 & _ & H3 & _).
  split.
  - apply (H1 2%nat 0%nat); [lia|reflexivity|reflexivity].
  - apply (H3 2%nat 3%nat); [right; left|left].
Defined.

(** ** Index arithmetic and small vectors *)

(** [unsigned long] arithmetic: the result modulo 2^64. *)
Definition u64 (z : Z) : Z := z mod 2 ^ 64.

(** [std::vector::operator[]] on a vector of indices.  Reading outside the
    vector is undefined in the source; the model reads 0 there. *)
Definition vec_at (v : list Z) (i : Z) : Z := default 0 (v !! Z.to_nat i).

Module ThreeDimensionalMapping.

(** Modelled from the spec: utils/ThreeDimensionalMapping.h is missing;
    "Index mapping is lexicographic: idx = x + nx * (y + ny * z)".  The
    instance on [long] used by the c18 traversal. *)
Definition threeToOneD_long (x y z : Z) (dims : Z * Z * Z) : Z :=
  let '(nx, ny, _) := dims in x + nx * (y + ny * z).

(** The instance on [unsigned long]. *)
Definition threeToOneD (x y z : Z) (dims : Z * Z * Z) : Z :=
  u64 (threeToOneD_long x y z dims).

End ThreeDimensionalMapping.

Module ArrayMath.

Definition array3 : Type := Q * Q * Q.

(** Modelled from the spec: utils/ArrayMath.h is missing; the distance
    between two cell boxes is the Euclidean one, so [mul] is the
    elementwise product, [sub] the elementwise difference and [dot] the
    scalar product. *)
Definition mul (a b : array3) : array3 :=
  let '(a0, a1, a2) := a in
  let '(b0, b1, b2) := b in
  (a0 * b0, a1 * b1, a2 * b2)%Q.

Definition sub (a b : array3) : array3 :=
  let '(a0, a1, a2) := a in
  let '(b0, b1, b2) := b in
  (a0 - b0, a1 - b1, a2 - b2)%Q.

Definition dot (a b : array3) : Q :=
  let '(a0, a1, a2) := a in
  let '(b0, b1, b2) := b in
  (a0 * b0 + a1 * b1 + a2 * b2)%Q.

(** [std::max(0.0, q)]. *)
Definition max0 (q : Q) : Q := if Qle_bool 0 q then q else 0%Q.

End ArrayMath.

(** ** The c08 base step (C08CellHandler.h) and the c18 traversal
    (C18Traversal.h)

    The schedule of the c08 block is embedded here in exact arithmetic and
    is used below for overlap one, where the only comparison of
    [computeOffsets] is that of zero with a square.  The schedules for any
    overlap, in double precision, are in [LinkedCellTraversals64]. *)

Module LinkedCellTraversals.
Import ThreeDimensionalMapping ArrayMath.

(** What a base step asks of the cell functor. *)
Inductive CellFunctorCall : Type :=
| CallProcessCell (cellIndex : Z)
| CallProcessCellPair (cellIndex1 cellIndex2 : Z) (r : array3).

Section Geometry.
(** [ArrayMath::normalize] is missing from the sources and only produces
    the vector handed through to the functor. *)
Variable normalize : array3 -> array3.
Variable _cellsPerDimension : Z * Z * Z.
Variable _interactionLength : Q.
Variable _cellLength : array3.
Variable _overlap : Z * Z * Z.

(** [distSquare <= interactionLengthSquare]. *)
Definition withinInteractionLength (distVec : array3) : bool :=
  Qle_bool (dot distVec distVec) (_interactionLength * _interactionLength).

(** *** C08CellHandler::computeOffsets *)

Definition C08_cellOffsets : list Z :=
  let '(o0, o1, o2) := _overlap in
  x ← seqZ 0 (o0 + 1);
  y ← seqZ 0 (o1 + 1);
  z ← seqZ 0 (o2 + 1);
  [threeToOneD x y z _cellsPerDimension].

Definition C08_computeOffsets : list (Z * Z * array3) :=
  let '(o0, o1, o2) := _overlap in
  let ov1 := u64 (o0 + 1) in
  let ov1_squared := u64 (ov1 * ov1) in
  let cellOffsets := C08_cellOffsets in
  x ← seqZ 0 (o0 + 1);
  y ← seqZ 0 (o1 + 1);
  z ← seqZ 0 (o2 + 1);
  let offset := vec_at cellOffsets (u64 (ov1_squared * x + ov1 * y)) in
  (* origin *)
  (let distVec :=
     mul (max0 (inject_Z x - 1), max0 (inject_Z y - 1), max0 (inject_Z z - 1))
       _cellLength in
   if withinInteractionLength distVec
   then [(vec_at cellOffsets z, offset, normalize distVec)] else [])
  ++
  (* back left *)
  (if bool_decide (y ≠ o1) && bool_decide (z ≠ 0) then
     let distVec :=
       mul (max0 (inject_Z x - 1), max0 (inject_Z (u64 (o1 - y)) - 1),
            max0 (inject_Z z - 1)) _cellLength in
     if withinInteractionLength distVec
     then [(vec_at cellOffsets (u64 (ov1_squared - ov1 + z)), offset,
            normalize distVec)]
     else []
   else [])
  ++
  (* front right *)
  (if bool_decide (x ≠ o0) && (bool_decide (y ≠ 0) || bool_decide (z ≠ 0)) then
     let distVec :=
       mul (max0 (inject_Z (u64 (o0 - x)) - 1), max0 (inject_Z y - 1),
            max0 (inject_Z z - 1)) _cellLength in
     if withinInteractionLength distVec
     then [(vec_at cellOffsets (u64 (ov1_squared * o0 + z)), offset,
            normalize distVec)]
     else []
   else [])
  ++
  (* back right *)
  (if bool_decide (y ≠ o1) && bool_decide (x ≠ o0) && bool_decide (z ≠ 0) then
     let distVec :=
       mul (max0 (inject_Z (u64 (o0 - x)) - 1),
            max0 (inject_Z (u64 (o1 - y)) - 1),
            max0 (inject_Z z - 1)) _cellLength in
     if withinInteractionLength distVec
     then [(vec_at cellOffsets (u64 (ov1_squared * ov1 - ov1 + z)), offset,
            normalize distVec)]
     else []
   else []).

(** *** C08CellHandler::processBaseCell: the calls on the cell functor *)

Definition C08_processBaseCell (_cellPairOffsets : list (Z * Z * array3))
  (baseIndex : Z) : list CellFunctorCall :=
  '(offset1, offset2, r) ← _cellPairOffsets;
  let cellIndex1 := u64 (baseIndex + offset1) in
  let cellIndex2 := u64 (baseIndex + offset2) in
  if bool_decide (cellIndex1 = cellIndex2)
  then [CallProcessCell cellIndex1]
  else [CallProcessCellPair cellIndex1 cellIndex2 r].

(** [C18Traversal::getIndex]. *)
Definition C18_getIndex (pos : Z) (dim : nat) : Z :=
  let '(o0, o1, o2) := _overlap in
  let '(n0, n1, n2) := _cellsPerDimension in
  let ov := match dim with O => o0 | S O => o1 | _ => o2 end in
  let n := match dim with O => n0 | S O => n1 | _ => n2 end in
  if bool_decide (pos < ov) then pos
  else if bool_decide (pos < u64 (n - ov)) then ov
  else u64 (pos - n + 2 * ov + 1).

(** *** The distance between two cell boxes, in the spec's words

    Per axis the boxes of two cells displaced by [d] cells are
    [max(0, |d| - 1) * cellLength] apart. *)

Definition boxDistVec (d : Z * Z * Z) : array3 :=
  let '(dx, dy, dz) := d in
  let '(l0, l1, l2) := _cellLength in
  (inject_Z (Z.max 0 (Z.abs dx - 1)) * l0,
   inject_Z (Z.max 0 (Z.abs dy - 1)) * l1,
   inject_Z (Z.max 0 (Z.abs dz - 1)) * l2)%Q.

Definition minDistanceSquare (d : Z * Z * Z) : Q :=
  dot (boxDistVec d) (boxDistVec d).

(** The minimum distance itself. *)
Definition minDistance (d : Z * Z * Z) : R := sqrt (Q2R (minDistanceSquare d)).

End Geometry.

(** *** Facts about the vectors *)

Lemma dot_self_nonneg (v : array3) : (0 <= dot v v)%Q.
Proof.
  destruct v as [[a b] c]. cbn. nra.
Qed.


Lemma u64_small z : 0 <= z < 2 ^ 64 -> u64 z = z.
Proof. intros H. unfold u64. now apply Z.mod_small. Qed.

(** *** The vector of cell offsets of the c08 block *)

Lemma C08_cellOffsets_at dims ov x y z :
  0 <= x <= ov -> 0 <= y <= ov -> 0 <= z <= ov ->
  vec_at (C08_cellOffsets dims (ov, ov, ov))
    (x * ((ov + 1) * (ov + 1)) + y * (ov + 1) + z)
  = threeToOneD x y z dims.
Proof.
  intros Hx Hy Hz. unfold vec_at, C08_cellOffsets.
  set (n := Z.to_nat (ov + 1)).
  set (h := fun x y z : Z => [threeToOneD x y z dims]).
  set (g := fun x y : Z => seqZ 0 (ov + 1) ≫= h x y).
  set (f := fun x : Z => seqZ 0 (ov + 1) ≫= g x).
  change (default 0 ((seqZ 0 (ov + 1) ≫= f)
            !! Z.to_nat (x * ((ov + 1) * (ov + 1)) + y * (ov + 1) + z))
          = threeToOneD x y z dims).
  assert (Hh : forall a b c, length (h a b c) = 1%nat) by reflexivity.
  assert (Hg : forall a b, length (g a b) = (n * 1)%nat).
  { intros a b. unfold g. rewrite (length_bind_uniform _ 1%nat) by apply Hh.
    now rewrite length_seqZ. }
  assert (Hf : forall a, length (f a) = (n * (n * 1))%nat).
  { intros a. unfold f. rewrite (length_bind_uniform _ (n * 1)%nat) by apply Hg.
    now rewrite length_seqZ. }
  assert (Hseq : forall k, 0 <= k <= ov ->
            seqZ 0 (ov + 1) !! Z.to_nat k = Some k).
  { intros k Hk. apply lookup_seqZ. lia. }
  replace (Z.to_nat (x * ((ov + 1) * (ov + 1)) + y * (ov + 1) + z))
    with (Z.to_nat x * (n * (n * 1))
          + (Z.to_nat y * (n * 1) + (Z.to_nat z * 1 + 0)))%nat.
  2:{ subst n. rewrite !Z2Nat.inj_add, !Z2Nat.inj_mul by nia. lia. }
  rewrite (lookup_bind_uniform f (n * (n * 1)) _ _ _ x Hf (Hseq x Hx)).
  2:{ subst n. nia. }
  unfold f. rewrite (lookup_bind_uniform (g x) (n * 1) _ _ _ y (Hg x) (Hseq y Hy)).
  2:{ subst n. nia. }
  unfold g. rewrite (lookup_bind_uniform (h x y) 1 _ _ _ z (Hh x y) (Hseq z Hz)).
  2:{ lia. }
  reflexivity.
Qed.

(** *** Which offset pairs the c08 block keeps *)

(** The pairs the four blocks of [computeOffsets] consider at [(x, y, z)]:
    the second cell is [(x, y, 0)], the first cell is [(a, b, z)] with
    [(a, b)] one of the four corners, under the guard of its block. *)
Definition C08_corner (ov x y z a b : Z) : Prop :=
  (a = 0 /\ b = 0)
  \/ (a = 0 /\ b = ov /\ y ≠ ov /\ z ≠ 0)
  \/ (a = ov /\ b = 0 /\ x ≠ ov /\ (y ≠ 0 \/ z ≠ 0))
  \/ (a = ov /\ b = ov /\ y ≠ ov /\ x ≠ ov /\ z ≠ 0).

(** *** What the base steps hand to the cell functor *)


End LinkedCellTraversals.

(** ** The c08 traversal over the cells of a linked-cells container *)

Module C08Traversal.
Import ThreeDimensionalMapping ArrayMath LinkedCellTraversals.

Section Traversal.
Context {Particle SoA : Type}.
Variable normalize : array3 -> array3.
(** The template arguments handed on to the cell functor. *)
Variable useSoA : bool.
Variable useNewton3 : bool.
Variable _cellsPerDimension : Z * Z * Z.
Variable _interactionLength : Q.
Variable _cellLength : array3.
Variable _overlap : Z * Z * Z.

(** Modelled from the spec: the cell functor the handler constructs with
    [(pairwiseFunctor, interactionLength)] and calls with
    [processCellPair(cell1, cell2, r)] is a revision of CellFunctor.h that
    is missing from the sources.  By the spec the direction [r] "is passed
    through unchanged to functors that exploit it" and the pairs are
    enumerated by the rules of the cell functor, which are those of the
    CellFunctor.h at hand: [r] is dropped and its [processCell] and
    [processCellPair] are called on [cells[i]].  Indexing outside the
    vector is undefined in the source; the model makes no call there. *)
Definition runCellFunctor (cells : list (CellFunctor.ParticleCell Particle SoA))
  (c : CellFunctorCall) : list (CellFunctor.FunctorCall Particle SoA) :=
  match c with
  | CallProcessCell cellIndex =>
      cell ← option_list (cells !! Z.to_nat cellIndex);
      CellFunctor.processCell useSoA useNewton3 cell
  | CallProcessCellPair cellIndex1 cellIndex2 r =>
      cell1 ← option_list (cells !! Z.to_nat cellIndex1);
      cell2 ← option_list (cells !! Z.to_nat cellIndex2);
      CellFunctor.processCellPair useSoA useNewton3 cell1 cell2
  end.

(** [C08CellHandler::processBaseCell] on the cells. *)
Definition processBaseCell (cells : list (CellFunctor.ParticleCell Particle SoA))
  (baseIndex : Z) : list (CellFunctor.FunctorCall Particle SoA) :=
  C08_processBaseCell
    (C08_computeOffsets normalize _cellsPerDimension _interactionLength
       _cellLength _overlap) baseIndex
  ≫= runCellFunctor cells.

(** Modelled from the spec: C08BasedTraversal.h and C08Traversal.h are
    missing; "The block is applied at every cell whose anchor is below the
    far wall", one base cell after the other within a colour and one colour
    after the other.  The colours only fix the order of the base cells, so
    the loop below visits them in the order of their indices. *)
Definition c08Traversal {A} (loopBody : Z -> Z -> Z -> list A) : list A :=
  let '(nx, ny, nz) := _cellsPerDimension in
  let '(o0, o1, o2) := _overlap in
  z ← seqZ 0 (nz - o2);
  y ← seqZ 0 (ny - o1);
  x ← seqZ 0 (nx - o0);
  loopBody x y z.

(** Modelled from the spec: [C08Traversal::traverseParticlePairs] applies
    the base step at the index of every base cell. *)
Definition traverseParticlePairs
  (cells : list (CellFunctor.ParticleCell Particle SoA))
  : list (CellFunctor.FunctorCall Particle SoA) :=
  c08Traversal (fun x y z =>
    processBaseCell cells (threeToOneD x y z _cellsPerDimension)).

End Traversal.

(** *** The block of overlap one *)


Definition index3 (dims : Z * Z * Z) (c : Z * Z * Z) : Z :=
  threeToOneD c.1.1 c.1.2 c.2 dims.




(** *** Indices of the cells of the grid *)

Lemma lin_bounds nx ny nz x y z :
  0 <= x < nx -> 0 <= y < ny -> 0 <= z < nz ->
  0 <= x + nx * (y + ny * z) < nx * ny * nz.
Proof.
  intros Hx Hy Hz.
  assert (H1 : 0 <= ny * z) by nia.
  assert (H2 : ny * z <= ny * (nz - 1)) by nia.
  assert (H3 : 0 <= nx * (y + ny * z)) by nia.
  assert (H4 : nx * (y + ny * z) <= nx * (ny * nz - 1)) by nia.
  split; nia.
Qed.


Definition add3 (a b : Z * Z * Z) : Z * Z * Z :=
  (a.1.1 + b.1.1, a.1.2 + b.1.2, a.2 + b.2).

Definition inGrid (dims c : Z * Z * Z) : Prop :=
  0 <= c.1.1 < dims.1.1 /\ 0 <= c.1.2 < dims.1.2 /\ 0 <= c.2 < dims.2.



Lemma index3_lin dims c :
  inGrid dims c -> dims.1.1 * dims.1.2 * dims.2 <= 2 ^ 64 ->
  index3 dims c = threeToOneD_long c.1.1 c.1.2 c.2 dims
  /\ 0 <= index3 dims c < dims.1.1 * dims.1.2 * dims.2.
Proof.
  destruct dims as [[nx ny] nz], c as [[x y] z]. unfold inGrid, index3. cbn.
  intros (Hx & Hy & Hz) Hsize.
  pose proof (lin_bounds nx ny nz x y z Hx Hy Hz).
  unfold threeToOneD. cbn. rewrite u64_small by lia. lia.
Qed.




(** *** Facts about the block, by enumeration *)






(** *** Loops over loops *)







(** *** The traversal as a sequence of tasks *)

Section Coverage.
Context {Particle SoA : Type}.
Variable normalize : array3 -> array3.
Variable useNewton3 : bool.
Variable dims : Z * Z * Z.
Variable L : Q.
Variable cl : array3.
Variable cells : list (CellFunctor.ParticleCell Particle SoA).

(** The grid can be indexed by [unsigned long]. *)
Hypothesis Hsize : dims.1.1 * dims.1.2 * dims.2 <= 2 ^ 64.
(** The particles are different objects. *)
Hypothesis Hdistinct : NoDup (cells ≫= CellFunctor.particles).














Abbreviation traversal :=
  (traverseParticlePairs normalize false useNewton3 dims L cl (1, 1, 1) cells).












End Coverage.

(** *** Where a particle lies

    Modelled from the spec: the cell block is missing from the sources;
    it "maps the domain to a dense 3D array of cells", the cell with
    coordinates [A] covering, on every axis, the interval of one cell
    length that starts [A] cell lengths above the low corner of the grid
    (the low corner of the halo layer). *)



(** The squared separation the functors compare, and the separation. *)
Definition separationSquare (r1 r2 : array3) : Q :=
  dot (sub r1 r2) (sub r1 r2).

Definition separation (r1 r2 : array3) : R :=
  sqrt (Q2R (separationSquare r1 r2)).

Lemma Qsquare_nonneg (x : Q) : (0 <= x * x)%Q.
Proof. nra. Qed.



(** *** A small container

    A grid of 3 x 3 x 3 cells of side 1 whose low corner is the origin:
    the cell [(1, 1, 1)] is the domain, the other cells are the halo.
    Particle 1 is owned, particles 2 and 3 are halo particles of the far
    layer in z. *)





(** On a grid of 3 x 3 x 3 cells with one particle in each the traversal
    makes (3 - 1)^3 * 13 calls with Newton3, the number the traversal tests
    of the sources expect. *)
Example traversal_call_count :
  length (traverseParticlePairs (SoA := unit) (fun v => v) false true (3, 3, 3)
            1%Q (1, 1, 1)%Q (1, 1, 1)
            ((fun p => CellFunctor.MkCell [p] tt) <$> seq 0 27))
  = 104%nat.
Proof. vm_compute. reflexivity. Qed.




End C08Traversal.

(** ** verletLists/neighborLists/asBuild/AsBuildPairGeneratorFunctor.h

    The loader, the extractor and the list the functor fills.  The
    entry points are embedded here in exact arithmetic, for the
    statements that compare two ways of making the same radius test;
    which pairs pass the test in double precision is the matter of
    [AsBuildPairGeneratorFunctor64]. *)

Module AsBuildPairGeneratorFunctor.
Import ArrayMath.

(** A particle as the functor sees it: the address of the object and its
    position.  Address 0 is the null pointer. *)
Record Particle : Type := MkParticle {
  address : nat;
  getR : array3
}.

(** [SoA<SoAArraysType>] with the attributes [ptr], [posX], [posY],
    [posZ]. *)
Record SoA : Type := MkSoA {
  ptr : list nat;
  posX : list Q;
  posY : list Q;
  posZ : list Q
}.

Definition getNumParticles (soa : SoA) : nat := length (ptr soa).

(** [resizeArrays]: every column gets the new length, new rows are
    value-initialised. *)
Definition resizeArrays (n : nat) (soa : SoA) : SoA :=
  MkSoA (resize n 0%nat (ptr soa)) (resize n 0%Q (posX soa))
        (resize n 0%Q (posY soa)) (resize n 0%Q (posZ soa)).

Definition offset_must_be_0 : string := "offset must be 0, is: {}".

(** One round of the loading loop: row [i] receives the particle. *)
Definition loadRow (st : SoA * nat) (p : Particle) : SoA * nat :=
  let buffer := st.1 in
  let i := st.2 in
  let '(x, y, z) := getR p in
  (MkSoA (<[i := address p]> (ptr buffer)) (<[i := x]> (posX buffer))
         (<[i := y]> (posY buffer)) (<[i := z]> (posZ buffer)),
   S i).

(** [SoALoader(cell, soa, offset)]: the cell and the buffer afterwards. *)
Definition SoALoader (h : Handler) (cell : list Particle) (soa : SoA)
  (offset : Z) : Run (list Particle * SoA) :=
  (if bool_decide (offset ≠ 0) then exception h offset_must_be_0 else mret tt)
  ≫= fun _ =>
  let soa := resizeArrays (length cell) soa in
  if bool_decide (length cell = 0%nat) then mret (cell, soa)
  else mret (cell, (foldl loadRow (soa, 0%nat) cell).1).

(** [SoAExtractor(cell, soa, offset)]: does nothing. *)
Definition SoAExtractor (h : Handler) (cell : list Particle) (soa : SoA)
  (offset : Z) : Run (list Particle * SoA) :=
  mret (cell, soa).

(** [a < b] on doubles. *)
Definition Qlt_bool (a b : Q) : bool := negb (Qle_bool b a).

Section Functor.
(** [VerletNeighborListAsBuild] is missing from the sources: the list and
    its two operations are parameters of the functor. *)
Variable NeighborList : Type.
Variable addPair : nat -> nat -> NeighborList -> NeighborList.
Variable checkPair : nat -> nat -> NeighborList -> NeighborList.
(** The template argument. *)
Variable callCheckInstead : bool.
(** The constructor argument; [_cutoffskinsquared] is its square. *)
Variable cutoffskin : Q.

Definition _cutoffskinsquared : Q := cutoffskin * cutoffskin.

(** [AoSFunctor(i, j, newton3)]. *)
Definition AoSFunctor (i j : Particle) (newton3 : bool) (_list : NeighborList)
  : NeighborList :=
  let dist := sub (getR i) (getR j) in
  let distsquare := dot dist dist in
  if Qlt_bool distsquare _cutoffskinsquared then
    if callCheckInstead then checkPair (address i) (address j) _list
    else addPair (address i) (address j) _list
  else _list.

(** Reading row [i] of a column; the rows read are below the number of
    particles. *)
Definition at_ {A} (d : A) (col : list A) (i : nat) : A := default d (col !! i).

(** [dr2] of rows [i] of [soa1] and [j] of [soa2]. *)
Definition dr2 (soa1 soa2 : SoA) (i j : nat) : Q :=
  let drx := (at_ 0 (posX soa1) i - at_ 0 (posX soa2) j)%Q in
  let dry := (at_ 0 (posY soa1) i - at_ 0 (posY soa2) j)%Q in
  let drz := (at_ 0 (posZ soa1) i - at_ 0 (posZ soa2) j)%Q in
  (drx * drx + dry * dry + drz * drz)%Q.

(** [SoAFunctor(soa, newton3)]. *)
Definition SoAFunctor (soa : SoA) (newton3 : bool) (_list : NeighborList)
  : NeighborList :=
  if bool_decide (getNumParticles soa = 0%nat) then _list
  else
    let numPart := getNumParticles soa in
    foldl (fun _list i =>
      foldl (fun _list j =>
        if Qlt_bool (dr2 soa soa i j) _cutoffskinsquared then
          let _list := addPair (at_ 0%nat (ptr soa) i) (at_ 0%nat (ptr soa) j) _list in
          if negb newton3
          then addPair (at_ 0%nat (ptr soa) j) (at_ 0%nat (ptr soa) i) _list
          else _list
        else _list)
        _list (seq (S i) (numPart - S i)))
      _list (seq 0 numPart).

(** [SoAFunctor(soa1, soa2, newton3)]. *)
Definition SoAFunctorPair (soa1 soa2 : SoA) (newton3 : bool)
  (_list : NeighborList) : NeighborList :=
  if bool_decide (getNumParticles soa1 = 0%nat)
     || bool_decide (getNumParticles soa2 = 0%nat) then _list
  else
    let numPart1 := getNumParticles soa1 in
    foldl (fun _list i =>
      let numPart2 := getNumParticles soa2 in
      foldl (fun _list j =>
        if Qlt_bool (dr2 soa1 soa2 i j) _cutoffskinsquared
        then addPair (at_ 0%nat (ptr soa1) i) (at_ 0%nat (ptr soa2) j) _list
        else _list)
        _list (seq 0 numPart2))
      _list (seq 0 numPart1).

End Functor.

(** *** The loader *)

Lemma loadRows_spec (cell : list Particle) (soa : SoA) (i : nat) :
  length (ptr soa) = (i + length cell)%nat ->
  length (posX soa) = (i + length cell)%nat ->
  length (posY soa) = (i + length cell)%nat ->
  length (posZ soa) = (i + length cell)%nat ->
  foldl loadRow (soa, i) cell
  = (MkSoA (take i (ptr soa) ++ (address <$> cell))
           (take i (posX soa) ++ ((fun p => (getR p).1.1) <$> cell))
           (take i (posY soa) ++ ((fun p => (getR p).1.2) <$> cell))
           (take i (posZ soa) ++ ((fun p => (getR p).2) <$> cell)),
     (i + length cell)%nat).
Proof.
  revert soa i. induction cell as [|p cell IH]; intros soa i Hp Hx Hy Hz.
  - cbn in *. rewrite !app_nil_r, Nat.add_0_r.
    rewrite !firstn_all2 by lia. now destruct soa.
  - destruct (getR p) as [[x y] z] eqn:Er. cbn [foldl].
    assert (Hstep : loadRow (soa, i) p
              = (MkSoA (<[i := address p]> (ptr soa)) (<[i := x]> (posX soa))
                       (<[i := y]> (posY soa)) (<[i := z]> (posZ soa)), S i))
      by (unfold loadRow; now rewrite Er).
    rewrite Hstep.
    cbn [length] in *. rewrite IH; cbn [ptr posX posY posZ];
      rewrite ?length_insert; try lia.
    rewrite !fmap_cons, Er. cbn [fst snd].
    assert (Htake : forall {A} (col : list A) (v : A),
              length col = (i + S (length cell))%nat ->
              take (S i) (<[i := v]> col) = take i col ++ [v]).
    { intros A col v Hlen. erewrite take_S_r.
      - now rewrite take_insert_ge by lia.
      - apply list_lookup_insert_eq. lia. }
    rewrite !Htake by assumption. rewrite <- !app_assoc. cbn.
    f_equal. lia.
Qed.

Lemma SoALoader_zero h cell soa :
  SoALoader h cell soa 0
  = mret (cell, MkSoA (address <$> cell)
                  ((fun p => (getR p).1.1) <$> cell)
                  ((fun p => (getR p).1.2) <$> cell)
                  ((fun p => (getR p).2) <$> cell)).
Proof.
  unfold SoALoader.
  rewrite (bool_decide_eq_false_2 (0 ≠ 0)) by (intros H; now apply H).
  rewrite Run_bind_ret.
  destruct cell as [|p cell].
  - rewrite bool_decide_eq_true_2 by reflexivity.
    unfold resizeArrays. cbn. now rewrite !resize_0.
  - rewrite bool_decide_eq_false_2 by (cbn; lia).
    rewrite loadRows_spec; unfold resizeArrays; cbn [ptr posX posY posZ];
      rewrite ?length_resize; try reflexivity.
Qed.

(** C10. [SoALoader] hands the offset message to the exception handler
    exactly when the offset is not zero, and with the throwing handler the
    call then ends in that exception; with offset zero it returns the cell
    unchanged and a buffer of exactly the cell's particle count whose rows
    hold, in the iteration order of the cell, the pointer and the x, y and
    z position of each particle.  [SoAExtractor] changes neither the cell
    nor the buffer. *)
Theorem SoALoader_spec (h : Handler) (cell : list Particle) (soa : SoA)
  (offset : Z) :
  (raised (SoALoader h cell soa offset) ≠ [] <-> offset ≠ 0)
  /\ (throws (SoALoader throwing cell soa offset) = bool_decide (offset ≠ 0))
  /\ (exists soa',
        SoALoader h cell soa 0 = mret (cell, soa')
        /\ getNumParticles soa' = length cell
        /\ length (posX soa') = length cell
        /\ length (posY soa') = length cell
        /\ length (posZ soa') = length cell
        /\ forall i p, cell !! i = Some p ->
             ptr soa' !! i = Some (address p)
             /\ posX soa' !! i = Some (getR p).1.1
             /\ posY soa' !! i = Some (getR p).1.2
             /\ posZ soa' !! i = Some (getR p).2)
  /\ SoAExtractor h cell soa offset = mret (cell, soa).
Proof.
  split; [|split; [|split]].
  - unfold SoALoader. destruct (decide (offset = 0)) as [->|Hne].
    + rewrite (bool_decide_eq_false_2 (0 ≠ 0)) by (intros H; now apply H).
      rewrite Run_bind_ret.
      split; [|intros H; now contradiction H].
      intros H. exfalso. apply H. now destruct (bool_decide _).
    + rewrite (bool_decide_eq_true_2 (offset ≠ 0)) by assumption.
      split; [auto|]. intros _.
      change (exception h offset_must_be_0 ≫= ?k)
        with (bind (exception h offset_must_be_0) k).
      unfold bind, exception. cbn [result raised].
      destruct h as [[] []]; cbn; discriminate.
  - unfold SoALoader. destruct (decide (offset = 0)) as [->|Hne].
    + rewrite !(bool_decide_eq_false_2 (0 ≠ 0)) by (intros H; now apply H).
      rewrite Run_bind_ret. now destruct (bool_decide _).
    + now rewrite !(bool_decide_eq_true_2 (offset ≠ 0)) by assumption.
  - eexists. split; [apply SoALoader_zero|].
    unfold getNumParticles. cbn [ptr posX posY posZ].
    rewrite !length_fmap. repeat split; try reflexivity;
      rewrite list_lookup_fmap, H; reflexivity.
  - reflexivity.
Qed.

(** *** The list that is built *)

(** Modelled from the spec: VerletNeighborListAsBuild.h is missing; the
    entry points of the list-building functor "append p_j to list[p_i]".
    A particle without an entry has the empty list. *)
Definition appendPair (i j : nat) (_list : gmap nat (list nat))
  : gmap nat (list nat) :=
  <[i := (_list !!! i) ++ [j]]> _list.

(** A sequence of [addPair] calls, first to last. *)
Definition appendPairs (calls : list (nat * nat)) (_list : gmap nat (list nat))
  : gmap nat (list nat) :=
  foldl (fun l c => appendPair c.1 c.2 l) _list calls.

(** The pairs [SoAFunctor(soa, newton3)] adds, in the order of its loops. *)
Definition SoAFunctor_pairs (cutoffskin : Q) (soa : SoA) (newton3 : bool)
  : list (nat * nat) :=
  i ← seq 0 (getNumParticles soa);
  j ← seq (S i) (getNumParticles soa - S i);
  if Qlt_bool (dr2 soa soa i j) (cutoffskin * cutoffskin) then
    (at_ 0%nat (ptr soa) i, at_ 0%nat (ptr soa) j)
    :: (if negb newton3
        then [(at_ 0%nat (ptr soa) j, at_ 0%nat (ptr soa) i)] else [])
  else [].

(** The pairs [SoAFunctor(soa1, soa2, newton3)] adds. *)
Definition SoAFunctorPair_pairs (cutoffskin : Q) (soa1 soa2 : SoA)
  : list (nat * nat) :=
  i ← seq 0 (getNumParticles soa1);
  j ← seq 0 (getNumParticles soa2);
  if Qlt_bool (dr2 soa1 soa2 i j) (cutoffskin * cutoffskin)
  then [(at_ 0%nat (ptr soa1) i, at_ 0%nat (ptr soa2) j)] else [].

(** The separation is strictly below the bound. *)
Definition below (distsquare bound : Q) : Prop :=
  (sqrt (Q2R distsquare) < Q2R bound)%R.

Lemma Qlt_bool_below a cs :
  (0 <= a)%Q -> (0 <= cs)%Q -> Qlt_bool a (cs * cs) = true <-> below a cs.
Proof.
  intros Ha Hcs. unfold below. rewrite <- sq_lt_sqrt by assumption.
  unfold Qlt_bool. rewrite negb_true_iff, <- not_true_iff_false, Qle_bool_iff.
  split; [apply Qnot_le_lt|apply Qlt_not_le].
Qed.

Lemma dr2_nonneg soa1 soa2 i j : (0 <= dr2 soa1 soa2 i j)%Q.
Proof.
  unfold dr2. cbn zeta.
  set (drx := (_ - _)%Q). set (dry := (_ - _)%Q). set (drz := (_ - _)%Q).
  pose proof (C08Traversal.Qsquare_nonneg drx) as Hx.
  pose proof (C08Traversal.Qsquare_nonneg dry) as Hy.
  pose proof (C08Traversal.Qsquare_nonneg drz) as Hz.
  generalize dependent (drx * drx)%Q. generalize dependent (dry * dry)%Q.
  generalize dependent (drz * drz)%Q.
  intros a Ha b Hb c Hc. lra.
Qed.

Lemma appendPairs_app calls1 calls2 l :
  appendPairs (calls1 ++ calls2) l = appendPairs calls2 (appendPairs calls1 l).
Proof. unfold appendPairs. now rewrite foldl_app. Qed.

Lemma foldl_as_appendPairs {A}
  (body : gmap nat (list nat) -> A -> gmap nat (list nat))
  (ev : A -> list (nat * nat)) (l : list A) st :
  (forall st a, body st a = appendPairs (ev a) st) ->
  foldl body st l = appendPairs (l ≫= ev) st.
Proof.
  intros Hbody. revert st. induction l as [|a l IH]; intros st; [reflexivity|].
  cbn [foldl]. rewrite bind_cons, appendPairs_app, Hbody. apply IH.
Qed.

Lemma SoAFunctor_appendPairs cs soa newton3 l :
  SoAFunctor (gmap nat (list nat)) appendPair cs soa newton3 l
  = appendPairs (SoAFunctor_pairs cs soa newton3) l.
Proof.
  unfold SoAFunctor, SoAFunctor_pairs, _cutoffskinsquared.
  destruct (bool_decide (getNumParticles soa = 0%nat)) eqn:E.
  - apply bool_decide_eq_true in E. now rewrite E.
  - apply foldl_as_appendPairs. intros st i.
    apply foldl_as_appendPairs. intros st' j.
    destruct (Qlt_bool _ _); [|reflexivity]. now destruct newton3.
Qed.

Lemma SoAFunctorPair_appendPairs cs soa1 soa2 newton3 l :
  SoAFunctorPair (gmap nat (list nat)) appendPair cs soa1 soa2 newton3 l
  = appendPairs (SoAFunctorPair_pairs cs soa1 soa2) l.
Proof.
  unfold SoAFunctorPair, SoAFunctorPair_pairs, _cutoffskinsquared.
  destruct (bool_decide (getNumParticles soa1 = 0%nat)) eqn:E1.
  - apply bool_decide_eq_true in E1. now rewrite E1.
  - destruct (bool_decide (getNumParticles soa2 = 0%nat)) eqn:E2.
    + apply bool_decide_eq_true in E2. rewrite E2. cbn [orb seq].
      induction (seq 0 (getNumParticles soa1)) as [|i s IH]; [reflexivity|].
      now rewrite bind_cons.
    + cbn [orb]. apply foldl_as_appendPairs. intros st i.
      apply foldl_as_appendPairs. intros st' j.
      now destruct (Qlt_bool _ _).
Qed.

Lemma appendPair_lookup i j l p :
  appendPair i j l !!! p
  = if decide (i = p) then (l !!! p) ++ [j] else l !!! p.
Proof.
  unfold appendPair. destruct (decide (i = p)) as [->|Hne].
  - now rewrite lookup_total_insert_eq.
  - now rewrite lookup_total_insert_ne.
Qed.

Lemma appendPairs_lookup calls l p :
  appendPairs calls l !!! p
  = (l !!! p) ++ (snd <$> filter (fun c => c.1 = p) calls).
Proof.
  revert l. induction calls as [|[a b] calls IH]; intros l.
  - cbn. now rewrite app_nil_r.
  - change (appendPairs ((a, b) :: calls) l)
      with (appendPairs calls (appendPair a b l)).
    rewrite IH, appendPair_lookup. cbn [fst snd].
    destruct (decide (a = p)) as [->|Hne].
    + rewrite filter_cons_True by reflexivity. now rewrite <- app_assoc.
    + now rewrite filter_cons_False by assumption.
Qed.

Lemma elem_of_appendPairs calls p x :
  x ∈ appendPairs calls ∅ !!! p <-> (p, x) ∈ calls.
Proof.
  rewrite appendPairs_lookup, lookup_total_empty.
  change (inhabitant ++ ?l) with l.
  rewrite list_elem_of_fmap. split.
  - intros ([a b] & -> & Hab). apply list_elem_of_filter in Hab as [Ha Hab].
    cbn in Ha. now subst a.
  - intros Hpx. exists (p, x). split; [reflexivity|].
    apply list_elem_of_filter. now split.
Qed.

(** The separation of row [i] of [soa1] and row [j] of [soa2]. *)
Definition rowSeparation (soa1 soa2 : SoA) (i j : nat) : R :=
  sqrt (Q2R (dr2 soa1 soa2 i j)).

Lemma elem_of_SoAFunctor_pairs cs soa newton3 c :
  (0 <= cs)%Q ->
  c ∈ SoAFunctor_pairs cs soa newton3 <->
  exists i j, (i < j < getNumParticles soa)%nat
    /\ (rowSeparation soa soa i j < Q2R cs)%R
    /\ (c = (at_ 0%nat (ptr soa) i, at_ 0%nat (ptr soa) j)
        \/ newton3 = false
           /\ c = (at_ 0%nat (ptr soa) j, at_ 0%nat (ptr soa) i)).
Proof.
  intros Hcs. unfold SoAFunctor_pairs. rewrite list_elem_of_bind. split.
  - intros (i & Hc & Hi). apply list_elem_of_bind in Hc as (j & Hc & Hj).
    apply elem_of_seq in Hi, Hj. exists i, j. split; [lia|].
    destruct (Qlt_bool _ _) eqn:E; [|now apply elem_of_nil in Hc].
    apply Qlt_bool_below in E; [|apply dr2_nonneg|assumption].
    split; [exact E|].
    apply elem_of_cons in Hc as [->|Hc]; [now left|].
    destruct newton3; cbn in Hc; [now apply elem_of_nil in Hc|].
    apply list_elem_of_singleton in Hc. now right.
  - intros (i & j & Hij & Hsep & Hc). exists i. split; [|apply elem_of_seq; lia].
    apply list_elem_of_bind. exists j. split; [|apply elem_of_seq; lia].
    apply (Qlt_bool_below _ _ (dr2_nonneg soa soa i j) Hcs) in Hsep.
    rewrite Hsep. destruct Hc as [->|[-> ->]]; [left|right; left].
Qed.

Lemma elem_of_SoAFunctorPair_pairs cs soa1 soa2 c :
  (0 <= cs)%Q ->
  c ∈ SoAFunctorPair_pairs cs soa1 soa2 <->
  exists i j, (i < getNumParticles soa1)%nat /\ (j < getNumParticles soa2)%nat
    /\ (rowSeparation soa1 soa2 i j < Q2R cs)%R
    /\ c = (at_ 0%nat (ptr soa1) i, at_ 0%nat (ptr soa2) j).
Proof.
  intros Hcs. unfold SoAFunctorPair_pairs. rewrite list_elem_of_bind. split.
  - intros (i & Hc & Hi). apply list_elem_of_bind in Hc as (j & Hc & Hj).
    apply elem_of_seq in Hi, Hj. exists i, j. split; [lia|]. split; [lia|].
    destruct (Qlt_bool _ _) eqn:E; [|now apply elem_of_nil in Hc].
    apply Qlt_bool_below in E; [|apply dr2_nonneg|assumption].
    split; [exact E|]. now apply list_elem_of_singleton in Hc.
  - intros (i & j & Hi & Hj & Hsep & ->).
    exists i. split; [|apply elem_of_seq; lia].
    apply list_elem_of_bind. exists j. split; [|apply elem_of_seq; lia].
    apply (Qlt_bool_below _ _ (dr2_nonneg soa1 soa2 i j) Hcs) in Hsep.
    rewrite Hsep. left.
Qed.

Lemma AoSFunctor_appendPair checkPair cs i j newton3 l :
  (0 <= cs)%Q ->
  AoSFunctor (gmap nat (list nat)) appendPair checkPair false cs i j newton3 l
  = if Qlt_bool (dot (sub (getR i) (getR j)) (sub (getR i) (getR j))) (cs * cs)
    then appendPair (address i) (address j) l else l.
Proof. reflexivity. Qed.

(** *** Replaying the calls of a cell functor *)

(** One call of the cell functor, executed by the list-building functor
    ([callCheckInstead = false]). *)
Definition call (cutoffskin : Q) (c : CellFunctor.FunctorCall Particle SoA)
  (_list : gmap nat (list nat)) : gmap nat (list nat) :=
  match c with
  | CellFunctor.AoSFunctor i j newton3 =>
      AoSFunctor _ appendPair (fun _ _ l => l) false cutoffskin i j newton3 _list
  | CellFunctor.SoAFunctor buffer newton3 =>
      SoAFunctor _ appendPair cutoffskin buffer newton3 _list
  | CellFunctor.SoAFunctorPair soa1 soa2 newton3 =>
      SoAFunctorPair _ appendPair cutoffskin soa1 soa2 newton3 _list
  end.

Definition replay (cutoffskin : Q)
  (calls : list (CellFunctor.FunctorCall Particle SoA))
  (_list : gmap nat (list nat)) : gmap nat (list nat) :=
  foldl (fun l c => call cutoffskin c l) _list calls.

(** The pairs one call adds. *)
Definition pairsOfCall (cutoffskin : Q)
  (c : CellFunctor.FunctorCall Particle SoA) : list (nat * nat) :=
  match c with
  | CellFunctor.AoSFunctor i j _ =>
      if Qlt_bool (dot (sub (getR i) (getR j)) (sub (getR i) (getR j)))
                  (cutoffskin * cutoffskin)
      then [(address i, address j)] else []
  | CellFunctor.SoAFunctor buffer newton3 =>
      SoAFunctor_pairs cutoffskin buffer newton3
  | CellFunctor.SoAFunctorPair soa1 soa2 _ =>
      SoAFunctorPair_pairs cutoffskin soa1 soa2
  end.

Lemma replay_appendPairs cs calls l :
  replay cs calls l = appendPairs (calls ≫= pairsOfCall cs) l.
Proof.
  apply foldl_as_appendPairs. intros st [i j n3|buffer n3|soa1 soa2 n3]; cbn.
  - unfold AoSFunctor, _cutoffskinsquared. now destruct (Qlt_bool _ _).
  - apply SoAFunctor_appendPairs.
  - apply SoAFunctorPair_appendPairs.
Qed.


Lemma dot_sub_sym (r1 r2 : array3) :
  (dot (sub r1 r2) (sub r1 r2) == dot (sub r2 r1) (sub r2 r1))%Q.
Proof. destruct r1 as [[x1 y1] z1], r2 as [[x2 y2] z2]. cbn. ring. Qed.

Lemma AoS_within_sym cs (r1 r2 : array3) :
  Qlt_bool (dot (sub r1 r2) (sub r1 r2)) (cs * cs)
  = Qlt_bool (dot (sub r2 r1) (sub r2 r1)) (cs * cs).
Proof.
  unfold Qlt_bool. f_equal. apply eq_true_iff_eq.
  rewrite !Qle_bool_iff. now rewrite (dot_sub_sym r1 r2).
Qed.

Definition sample_i : Particle := MkParticle 1 (0, 0, 0)%Q.
Definition sample_j : Particle := MkParticle 2 (1 # 2, 0, 0)%Q.

Lemma sample_close :
  (C08Traversal.separation (getR sample_i) (getR sample_j) < Q2R 1)%R.
Proof.
  apply sq_lt_sqrt; [apply LinkedCellTraversals.dot_self_nonneg|discriminate|].
  reflexivity.
Qed.

End AsBuildPairGeneratorFunctor.

(** ** verletListsCellBased/verletLists/VerletLists.h *)

Module VerletLists.
Import ArrayMath.

(** The fields of the container the two functions below work on.
    Particles are known by their addresses ([Particle *]). *)
Record Container : Type := MkContainer {
  _neighborListIsValid : bool;
  _aosNeighborLists : gmap nat (list nat);
  _aos2soaMap : gmap nat nat;
  _soaNeighborLists : list (list nat);
  _soaListIsValid : bool
}.

(** A loop whose body may throw. *)
Fixpoint foldlM {A B} (f : B -> A -> Run B) (l : list A) (b : B) : Run B :=
  match l with
  | [] => mret b
  | a :: l => f b a ≫= foldlM f l
  end.

(** The body of the first loop: the particle under the iterator gets row
    [i], and [++i]. *)
Definition setRow (st : gmap nat nat * nat) (p : nat) : gmap nat nat * nat :=
  (<[p := st.2]> st.1, S st.2).

Definition out_of_range : string := "std::out_of_range".
Definition outside_the_vector : string := "index outside the vector".

(** The loop over the neighbours of one particle:
    [_soaNeighborLists[i_id][j] = _aos2soaMap.at(neighbor)] with [j++];
    [at] throws for a key the map does not have. *)
Fixpoint fillRow (_aos2soaMap : gmap nat nat) (neighbors : list nat) (j : nat)
  (row : list nat) : Run (list nat) :=
  match neighbors with
  | [] => mret row
  | neighbor :: rest =>
      match _aos2soaMap !! neighbor with
      | Some r => fillRow _aos2soaMap rest (S j) (<[j := r]> row)
      | None => throw out_of_range
      end
  end.

(** The body of the loop over [_aosNeighborLists].  [operator[]] of the
    map inserts the key with row 0 when the map does not have it.
    [operator[]] of the vector is undefined outside the vector; the model
    ends the run there. *)
Definition convertList (st : gmap nat nat * list (list nat))
  (aosList : nat * list nat) : Run (gmap nat nat * list (list nat)) :=
  let i_id := default 0%nat (st.1 !! aosList.1) in
  let map := match st.1 !! aosList.1 with
             | Some _ => st.1
             | None => <[aosList.1 := 0%nat]> st.1
             end in
  match st.2 !! i_id with
  | None => MkRun [] (Aborted outside_the_vector)
  | Some row =>
      fillRow map aosList.2 0 (resize (length aosList.2) 0%nat row)
      ≫= fun row => mret (map, <[i_id := row]> st.2)
  end.

(** [generateSoAListFromAoSVerletLists()]; [particles] are the particles
    of the container in the order of its iterator. *)
Definition generateSoAListFromAoSVerletLists (particles : list nat)
  (this : Container) : Run Container :=
  let lists := resize (size (_aosNeighborLists this)) [] (_soaNeighborLists this) in
  let map := (foldl setRow (∅, 0%nat) particles).1 in
  foldlM convertList (map_to_list (_aosNeighborLists this)) (map, lists)
  ≫= fun st =>
  mret (MkContainer (_neighborListIsValid this) (_aosNeighborLists this)
          st.1 st.2 true).

(** *** The row mapping *)

Lemma setRow_spec (particles : list nat) :
  NoDup particles ->
  (foldl setRow (∅, 0%nat) particles).2 = length particles
  /\ forall p k, (foldl setRow (∅, 0%nat) particles).1 !! p = Some k
                 <-> particles !! k = Some p.
Proof.
  induction particles as [|x l IH] using rev_ind; intros Hnd.
  - split; [reflexivity|]. intros p k. cbn. rewrite lookup_empty.
    split; intros H; discriminate.
  - apply NoDup_app in Hnd as (Hl & Hx & _). destruct (IH Hl) as [Hlen Hrow].
    rewrite foldl_app. cbn [foldl]. unfold setRow at 1 3. cbn [fst snd].
    rewrite Hlen. split; [rewrite length_app; cbn; lia|].
    intros p k. destruct (decide (p = x)) as [->|Hne].
    + rewrite lookup_insert_eq. split.
      * intros [= <-]. rewrite lookup_app_r by lia.
        now rewrite Nat.sub_diag.
      * intros Hk. f_equal.
        destruct (decide (k < length l)%nat) as [Hlt|Hge].
        -- rewrite lookup_app_l in Hk by assumption.
           exfalso. apply (Hx x); [|left].
           now apply list_elem_of_lookup_2 in Hk.
        -- apply lookup_lt_Some in Hk. rewrite length_app in Hk. cbn in Hk. lia.
    + rewrite lookup_insert_ne by congruence. rewrite Hrow. split.
      * intros Hk. rewrite lookup_app_l; [assumption|].
        now apply lookup_lt_Some in Hk.
      * intros Hk. destruct (decide (k < length l)%nat) as [Hlt|Hge].
        -- now rewrite lookup_app_l in Hk.
        -- rewrite lookup_app_r in Hk by lia.
           destruct (k - length l)%nat as [|d]; [|destruct d; discriminate].
           injection Hk as ->. contradiction.
Qed.

(** The rows of the partners. *)
Definition translate (map : gmap nat nat) (neighbors : list nat) : list nat :=
  (fun n => default 0%nat (map !! n)) <$> neighbors.

Lemma fillRow_spec map neighbors j row :
  (forall n, n ∈ neighbors -> is_Some (map !! n)) ->
  length row = (j + length neighbors)%nat ->
  fillRow map neighbors j row = mret (take j row ++ translate map neighbors).
Proof.
  revert j row. induction neighbors as [|n rest IH]; intros j row Hin Hlen.
  - cbn in *. rewrite app_nil_r, take_ge by lia. reflexivity.
  - cbn [fillRow]. destruct (Hin n) as [r Hr]; [left|]. rewrite Hr.
    rewrite IH.
    + f_equal. cbn [translate fmap list_fmap]. rewrite Hr. cbn [default from_option].
      rewrite (take_S_r _ _ r).
      * rewrite take_insert_ge by lia. now rewrite <- app_assoc.
      * apply list_lookup_insert_eq. cbn in Hlen. lia.
    + intros n' Hn'. apply Hin. now right.
    + rewrite length_insert. cbn in Hlen. lia.
Qed.

Lemma convertList_spec map lists p neighbors k row :
  map !! p = Some k -> lists !! k = Some row ->
  (forall n, n ∈ neighbors -> is_Some (map !! n)) ->
  convertList (map, lists) (p, neighbors)
  = mret (map, <[k := translate map neighbors]> lists).
Proof.
  intros Hk Hrow Hin. unfold convertList. cbn [fst snd]. rewrite Hk.
  cbn [default from_option]. unfold Datatypes.id. rewrite Hrow.
  rewrite fillRow_spec; [|assumption|now rewrite length_resize].
  now rewrite Run_bind_ret.
Qed.

Lemma convertLists_spec (map : gmap nat nat) (n : nat)
  (entries : list (nat * list nat)) :
  NoDup entries.*1 ->
  (forall p p' k, map !! p = Some k -> map !! p' = Some k -> p = p') ->
  (forall p l, (p, l) ∈ entries ->
     (exists k, map !! p = Some k /\ (k < n)%nat)
     /\ forall x, x ∈ l -> is_Some (map !! x)) ->
  forall lists, length lists = n ->
  exists lists',
    foldlM convertList entries (map, lists) = mret (map, lists')
    /\ length lists' = n
    /\ (forall p l k, (p, l) ∈ entries -> map !! p = Some k ->
          lists' !! k = Some (translate map l))
    /\ (forall k, (forall p l, (p, l) ∈ entries -> map !! p ≠ Some k) ->
          lists' !! k = lists !! k).
Proof.
  intros Hnd Hinj. induction entries as [|[p l] entries IH]; intros Hok lists Hlen.
  - exists lists. split; [reflexivity|]. split; [assumption|].
    split; [|reflexivity]. intros p l k Hin. now apply elem_of_nil in Hin.
  - cbn in Hnd. apply NoDup_cons in Hnd as [Hp Hnd].
    destruct (Hok p l) as [(k & Hk & Hlt) Hl]; [left|].
    destruct (lookup_lt_is_Some_2 lists k) as [row Hrow]; [lia|].
    destruct (IH Hnd) with (lists := <[k := translate map l]> lists)
      as (lists' & Hrun & Hlen' & Hrows & Hrest).
    { intros p' l' Hin. apply Hok. now right. }
    { now rewrite length_insert. }
    exists lists'. split; [|split; [assumption|split]].
    + cbn [foldlM]. rewrite (convertList_spec map lists p l k row) by assumption.
      now rewrite Run_bind_ret.
    + intros p' l' k' Hin Hk'. apply elem_of_cons in Hin as [[= -> ->]|Hin].
      * assert (k' = k) as -> by congruence.
        rewrite Hrest.
        -- apply list_lookup_insert_eq. lia.
        -- intros p'' l'' Hin Hk''. apply Hp.
           assert (p'' = p) as -> by (eapply Hinj; eassumption).
           apply list_elem_of_fmap. now exists (p, l'').
      * now apply (Hrows p' l' k').
    + intros k' Hnone. rewrite Hrest.
      * apply list_lookup_insert_ne. intros ->. apply (Hnone p l); [left|assumption].
      * intros p' l' Hin. apply (Hnone p' l'). now right.
Qed.

(** C4.  Let the particles of the container be different objects, let
    the AoS list have an entry for every particle of the container and for
    no other, and let all partners be particles of the container (the
    state in which [updateVerletListsAoS] leaves the lists).  Then
    [generateSoAListFromAoSVerletLists] returns without raising, leaves
    the AoS list as it was and marks the SoA list valid; the row of a
    particle is its position in the order of the iterator; the SoA list
    has one row for every particle; and the row of particle [p] is as long
    as the AoS list of [p], its [j]-th entry being the row of the [j]-th
    partner of [p]. *)
Theorem generateSoAListFromAoSVerletLists_spec (particles : list nat)
  (this : Container) :
  NoDup particles ->
  (forall p, p ∈ particles <-> is_Some (_aosNeighborLists this !! p)) ->
  (forall p l n, _aosNeighborLists this !! p = Some l -> n ∈ l -> n ∈ particles) ->
  exists this',
    generateSoAListFromAoSVerletLists particles this = mret this'
    /\ _aosNeighborLists this' = _aosNeighborLists this
    /\ _soaListIsValid this' = true
    /\ (forall p k, _aos2soaMap this' !! p = Some k <-> particles !! k = Some p)
    /\ length (_soaNeighborLists this') = length particles
    /\ forall k p l,
         particles !! k = Some p -> _aosNeighborLists this !! p = Some l ->
         exists row, _soaNeighborLists this' !! k = Some row
           /\ length row = length l
           /\ forall j n, l !! j = Some n ->
                exists r, particles !! r = Some n /\ row !! j = Some r.
Proof.
  intros Hnd Hdom Hpartners.
  destruct (setRow_spec particles Hnd) as [_ Hmap].
  set (map := (foldl setRow (∅, 0%nat) particles).1) in *.
  assert (Hsize : size (_aosNeighborLists this) = length particles).
  { rewrite <- size_dom, <- (size_list_to_set (C := gset nat)) by assumption.
    f_equal. apply set_eq. intros p.
    now rewrite elem_of_dom, elem_of_list_to_set, Hdom. }
  assert (Hrows : forall x, x ∈ particles -> is_Some (map !! x)).
  { intros x Hx. apply list_elem_of_lookup_1 in Hx as [r Hr]. exists r.
    now apply Hmap. }
  destruct (convertLists_spec map (length particles)
              (map_to_list (_aosNeighborLists this)))
    with (lists := resize (size (_aosNeighborLists this)) []
                     (_soaNeighborLists this))
    as (lists' & Hrun & Hlen & Hlists & _).
  - apply NoDup_fst_map_to_list.
  - intros p p' k Hp Hp'. apply Hmap in Hp, Hp'. congruence.
  - intros p l Hin. apply elem_of_map_to_list in Hin. split.
    + destruct (Hrows p) as [k Hk]; [apply Hdom; eauto|]. exists k.
      split; [assumption|]. apply Hmap in Hk. now apply lookup_lt_Some in Hk.
    + intros x Hx. apply Hrows. eapply Hpartners; eassumption.
  - now rewrite length_resize.
  - eexists. split.
    { unfold generateSoAListFromAoSVerletLists. cbn zeta. fold map.
      rewrite Hrun, Run_bind_ret. reflexivity. }
    cbn [_aosNeighborLists _soaListIsValid _aos2soaMap _soaNeighborLists fst snd].
    split; [reflexivity|]. split; [reflexivity|]. split; [exact Hmap|].
    split; [assumption|].
    intros k p l Hk Hl. exists (translate map l). split; [|split].
    + apply (Hlists p l k); [now apply elem_of_map_to_list|now apply Hmap].
    + unfold translate. now rewrite length_fmap.
    + intros j n Hj. destruct (Hrows n) as [r Hr].
      { eapply Hpartners; [eassumption|]. eapply list_elem_of_lookup_2; eassumption. }
      exists r. split; [now apply Hmap|].
      unfold translate. rewrite list_lookup_fmap, Hj. cbn. now rewrite Hr.
Qed.

(** Three particles; the first has the other two as partners, the second
    has the first, the third has none. *)
Definition sample_particles : list nat := [10; 20; 30]%nat.

Definition sample_container : Container :=
  MkContainer true
    (list_to_map [(10, [20; 30]); (20, [10]); (30, [])]%nat) ∅ [] false.

Lemma generateSoAListFromAoSVerletLists_spec_witness :
  exists this',
    generateSoAListFromAoSVerletLists sample_particles sample_container
    = mret this'
    /\ _aosNeighborLists this' = _aosNeighborLists sample_container
    /\ _soaListIsValid this' = true
    /\ (forall p k, _aos2soaMap this' !! p = Some k
                    <-> sample_particles !! k = Some p)
    /\ length (_soaNeighborLists this') = length sample_particles
    /\ forall k p l,
         sample_particles !! k = Some p ->
         _aosNeighborLists sample_container !! p = Some l ->
         exists row, _soaNeighborLists this' !! k = Some row
           /\ length row = length l
           /\ forall j n, l !! j = Some n ->
                exists r, sample_particles !! r = Some n /\ row !! j = Some r.
Proof.
  apply (generateSoAListFromAoSVerletLists_spec sample_particles sample_container).
  - apply (bool_decide_unpack _). vm_compute. exact I.
  - intros p. cbn [sample_container _aosNeighborLists].
    rewrite <- elem_of_dom, dom_list_to_map_L, elem_of_list_to_set.
    reflexivity.
  - intros p l n Hl Hn. cbn [sample_container _aosNeighborLists] in Hl.
    apply elem_of_list_to_map_2 in Hl. unfold sample_particles.
    repeat (apply elem_of_cons in Hl as [Hl|Hl];
            [injection Hl as -> ->;
             repeat (apply elem_of_cons in Hn as [->|Hn];
                     [apply (bool_decide_unpack _); vm_compute; exact I|]);
             now apply elem_of_nil in Hn|]).
    now apply elem_of_nil in Hl.
Defined.

(** *** checkNeighborListsAreValid *)

Section Validity.
(** The position of the particle at an address. *)
Variable getR : nat -> array3.
Variable normalize : array3 -> array3.




End Validity.





End VerletLists.

(** * Double precision

    Where a statement depends on the outcome of a comparison of computed
    [double]s (which offsets a schedule keeps, which pairs a list
    receives), the functions are embedded in IEEE 754 binary64 with
    rounding to nearest, ties to even, every operation rounded on its
    own: the arithmetic of the sources compiled without contraction of
    products and sums. *)

Module Binary64.

Definition double : Set := float.

(** The conversion of an integer ([long], [unsigned long]) to [double]:
    the nearest double. *)
Definition of_long (z : Z) : double :=
  SF2Prim (binary_normalize prec emax z 0 false).

(** The rational number a finite double stands for. *)
Definition exact (d : double) : option Q :=
  match Prim2SF d with
  | S754_zero _ => Some 0%Q
  | S754_finite s m e =>
      Some ((if s then - inject_Z (Z.pos m) else inject_Z (Z.pos m)) * 2 ^ e)%Q
  | S754_infinity _ | S754_nan => None
  end.

(** [std::max(a, b)]: [(a < b) ? b : a]. *)
Definition std_max (a b : double) : double :=
  if (a <? b)%float then b else a.

Definition array3 : Set := double * double * double.

Definition exact3 (v : array3) : option (Q * Q * Q) :=
  x ← exact v.1.1; y ← exact v.1.2; z ← exact v.2; Some (x, y, z).

(** Modelled from the spec: utils/ArrayMath.h is missing; as in the exact
    model [mul] is the elementwise product, [sub] the elementwise
    difference and [dot] the scalar product, summed from the first
    component to the last.  (Summing from an initial zero gives the same
    value up to the sign of a zero, which no comparison sees.) *)
Definition mul (a b : array3) : array3 :=
  let '(a0, a1, a2) := a in
  let '(b0, b1, b2) := b in
  (a0 * b0, a1 * b1, a2 * b2)%float.

Definition sub (a b : array3) : array3 :=
  let '(a0, a1, a2) := a in
  let '(b0, b1, b2) := b in
  (a0 - b0, a1 - b1, a2 - b2)%float.

Definition dot (a b : array3) : double :=
  let '(a0, a1, a2) := a in
  let '(b0, b1, b2) := b in
  (a0 * b0 + a1 * b1 + a2 * b2)%float.

(** *** The square of a difference does not depend on the order

    Rounding to nearest is symmetric in the sign, so [(a - b) * (a - b)]
    and [(b - a) * (b - a)] are the same double. *)







End Binary64.

(** ** C08CellHandler.h and C18Traversal.h in double precision

    The vector of cell offsets of the c08 block and [getIndex] of the c18
    traversal compute with integers only and are those of
    [LinkedCellTraversals]. *)

Module LinkedCellTraversals64.
Import ThreeDimensionalMapping Binary64.

(** What a base step asks of the cell functor. *)
Inductive CellFunctorCall : Type :=
| CallProcessCell (cellIndex : Z)
| CallProcessCellPair (cellIndex1 cellIndex2 : Z) (r : array3).

Section Geometry.
(** [ArrayMath::normalize] is missing from the sources and only produces
    the vector handed through to the functor. *)
Variable normalize : array3 -> array3.
Variable _cellsPerDimension : Z * Z * Z.
Variable _interactionLength : double.
Variable _cellLength : array3.
Variable _overlap : Z * Z * Z.

(** [distSquare <= interactionLengthSquare], with
    [interactionLengthSquare(_interactionLength * _interactionLength)]. *)
Definition withinInteractionLength (distVec : array3) : bool :=
  (dot distVec distVec <=? _interactionLength * _interactionLength)%float.

(** *** C08CellHandler::computeOffsets *)

(** [ArrayMath::mul({std::max(0.0, X - 1.0), std::max(0.0, Y - 1.0),
    std::max(0.0, Z - 1.0)}, _cellLength)] for [unsigned long] values
    [X], [Y], [Z]. *)
Definition C08_distVec (X Y Z' : Z) : array3 :=
  mul (std_max 0 (of_long X - 1), std_max 0 (of_long Y - 1),
       std_max 0 (of_long Z' - 1))%float
      _cellLength.

Definition C08_computeOffsets : list (Z * Z * array3) :=
  let '(o0, o1, o2) := _overlap in
  let ov1 := u64 (o0 + 1) in
  let ov1_squared := u64 (ov1 * ov1) in
  let cellOffsets :=
    LinkedCellTraversals.C08_cellOffsets _cellsPerDimension _overlap in
  x ← seqZ 0 (o0 + 1);
  y ← seqZ 0 (o1 + 1);
  z ← seqZ 0 (o2 + 1);
  let offset := vec_at cellOffsets (u64 (ov1_squared * x + ov1 * y)) in
  (* origin *)
  (let distVec := C08_distVec x y z in
   if withinInteractionLength distVec
   then [(vec_at cellOffsets z, offset, normalize distVec)] else [])
  ++
  (* back left *)
  (if bool_decide (y ≠ o1) && bool_decide (z ≠ 0) then
     let distVec := C08_distVec x (u64 (o1 - y)) z in
     if withinInteractionLength distVec
     then [(vec_at cellOffsets (u64 (ov1_squared - ov1 + z)), offset,
            normalize distVec)]
     else []
   else [])
  ++
  (* front right *)
  (if bool_decide (x ≠ o0) && (bool_decide (y ≠ 0) || bool_decide (z ≠ 0)) then
     let distVec := C08_distVec (u64 (o0 - x)) y z in
     if withinInteractionLength distVec
     then [(vec_at cellOffsets (u64 (ov1_squared * o0 + z)), offset,
            normalize distVec)]
     else []
   else [])
  ++
  (* back right *)
  (if bool_decide (y ≠ o1) && bool_decide (x ≠ o0) && bool_decide (z ≠ 0) then
     let distVec := C08_distVec (u64 (o0 - x)) (u64 (o1 - y)) z in
     if withinInteractionLength distVec
     then [(vec_at cellOffsets (u64 (ov1_squared * ov1 - ov1 + z)), offset,
            normalize distVec)]
     else []
   else []).

(** *** C08CellHandler::processBaseCell: the calls on the cell functor *)

Definition C08_processBaseCell (_cellPairOffsets : list (Z * Z * array3))
  (baseIndex : Z) : list CellFunctorCall :=
  '(offset1, offset2, r) ← _cellPairOffsets;
  let cellIndex1 := u64 (baseIndex + offset1) in
  let cellIndex2 := u64 (baseIndex + offset2) in
  if bool_decide (cellIndex1 = cellIndex2)
  then [CallProcessCell cellIndex1]
  else [CallProcessCellPair cellIndex1 cellIndex2 r].

(** *** C18Traversal::computeOffsets *)

Definition offsetArray_t : Type := list (Z * array3).

(** [_cellOffsets[i][j].push_back(e)]. *)
Definition push_back_at (i j : Z) (e : Z * array3)
  (offsets : list (list offsetArray_t)) : list (list offsetArray_t) :=
  alter (alter (fun a => a ++ [e]) (Z.to_nat j)) (Z.to_nat i) offsets.

(** [pos]: [std::max(0l, (std::abs(x) - 1l)) * _cellLength[0]] and the
    like; the [long] is converted to [double] for the product. *)
Definition C18_pos (x y z : Z) : array3 :=
  let '(l0, l1, l2) := _cellLength in
  (of_long (Z.max 0 (Z.abs x - 1)) * l0,
   of_long (Z.max 0 (Z.abs y - 1)) * l1,
   of_long (Z.max 0 (Z.abs z - 1)) * l2)%float.

Definition C18_computeOffsets : list (list offsetArray_t) :=
  let '(o0, o1, o2) := _overlap in
  let resized : list (list offsetArray_t) :=
    replicate (Z.to_nat (u64 (2 * o1 + 1)))
      (replicate (Z.to_nat (u64 (2 * o0 + 1))) []) in
  foldl (fun offsets z =>
    foldl (fun offsets y =>
      foldl (fun offsets x =>
        let offset := threeToOneD_long x y z _cellsPerDimension in
        if bool_decide (offset < 0) then offsets
        else
          foldl (fun offsets yArray =>
            if bool_decide (Z.abs (yArray + y) <= o1) then
              foldl (fun offsets xArray =>
                if bool_decide (Z.abs (xArray + x) <= o0) then
                  let pos := C18_pos x y z in
                  if withinInteractionLength pos
                  then push_back_at (yArray + o1) (xArray + o0)
                         (u64 offset, normalize pos) offsets
                  else offsets
                else offsets)
                offsets (seqZ (- o0) (2 * o0 + 1))
            else offsets)
            offsets (seqZ (- o1) (2 * o1 + 1)))
        offsets (seqZ (- o0) (2 * o0 + 1)))
      offsets (seqZ (- o1) (2 * o1 + 1)))
    resized (seqZ 0 (o2 + 1)).

(** [C18Traversal::processBaseCell]: the calls on the cell functor. *)
Definition C18_processBaseCell (_cellOffsets : list (list offsetArray_t))
  (x y z : Z) : list CellFunctorCall :=
  let baseIndex := threeToOneD x y z _cellsPerDimension in
  let xArray :=
    LinkedCellTraversals.C18_getIndex _cellsPerDimension _overlap x 0 in
  let yArray :=
    LinkedCellTraversals.C18_getIndex _cellsPerDimension _overlap y 1 in
  let offsets :=
    default [] (default [] (_cellOffsets !! Z.to_nat yArray) !! Z.to_nat xArray) in
  '(offset, r) ← offsets;
  let otherIndex := u64 (baseIndex + offset) in
  if bool_decide (baseIndex = otherIndex)
  then [CallProcessCell baseIndex]
  else [CallProcessCellPair baseIndex otherIndex r].

End Geometry.

(** *** Which offset pairs the c08 block keeps *)

Lemma elem_of_kept {A} (g w : bool) (entry e : A) :
  e ∈ (if g then (if w then [entry] else []) else [])
  <-> g = true /\ w = true /\ e = entry.
Proof.
  destruct g, w; cbn; rewrite ?list_elem_of_singleton, ?elem_of_nil;
    intuition congruence.
Qed.

(** For equal overlaps the entry [(o1, o2, r)] is in the schedule exactly
    when the four blocks of [computeOffsets] consider the pair at some
    [(x, y, z)] (second cell [(x, y, 0)], first cell [(a, b, z)] with
    [(a, b)] one of the four corners) and the test on the rounded squared
    distance succeeds. *)
Lemma C08_computeOffsets_kept normalize dims L cl ov o1 o2 r :
  0 <= ov -> (ov + 1) * (ov + 1) * (ov + 1) <= 2 ^ 64 ->
  (o1, o2, r) ∈ C08_computeOffsets normalize dims L cl (ov, ov, ov)
  <->
  exists x y z a b,
    0 <= x <= ov /\ 0 <= y <= ov /\ 0 <= z <= ov
    /\ LinkedCellTraversals.C08_corner ov x y z a b
    /\ o1 = threeToOneD a b z dims
    /\ o2 = threeToOneD x y 0 dims
    /\ withinInteractionLength L
         (C08_distVec cl (Z.abs (x - a)) (Z.abs (y - b)) z) = true
    /\ r = normalize (C08_distVec cl (Z.abs (x - a)) (Z.abs (y - b)) z).
Proof.
  intros Hov Hcube. unfold C08_computeOffsets.
  assert (H1 : u64 (ov + 1) = ov + 1)
    by (apply LinkedCellTraversals.u64_small; nia).
  rewrite H1.
  assert (H2 : u64 ((ov + 1) * (ov + 1)) = (ov + 1) * (ov + 1))
    by (apply LinkedCellTraversals.u64_small; nia).
  rewrite H2.
  assert (I1 : forall x y, 0 <= x <= ov -> 0 <= y <= ov ->
    vec_at (LinkedCellTraversals.C08_cellOffsets dims (ov, ov, ov))
      (u64 ((ov + 1) * (ov + 1) * x + (ov + 1) * y)) = threeToOneD x y 0 dims).
  { intros x y Hx Hy. rewrite LinkedCellTraversals.u64_small by nia.
    rewrite <- (LinkedCellTraversals.C08_cellOffsets_at dims ov x y 0) by lia.
    f_equal. lia. }
  assert (I2 : forall z, 0 <= z <= ov ->
    vec_at (LinkedCellTraversals.C08_cellOffsets dims (ov, ov, ov)) z
    = threeToOneD 0 0 z dims).
  { intros z Hz.
    rewrite <- (LinkedCellTraversals.C08_cellOffsets_at dims ov 0 0 z) by lia.
    f_equal. }
  assert (I3 : forall z, 0 <= z <= ov ->
    vec_at (LinkedCellTraversals.C08_cellOffsets dims (ov, ov, ov))
      (u64 ((ov + 1) * (ov + 1) - (ov + 1) + z)) = threeToOneD 0 ov z dims).
  { intros z Hz. rewrite LinkedCellTraversals.u64_small by nia.
    rewrite <- (LinkedCellTraversals.C08_cellOffsets_at dims ov 0 ov z) by lia.
    f_equal. lia. }
  assert (I4 : forall z, 0 <= z <= ov ->
    vec_at (LinkedCellTraversals.C08_cellOffsets dims (ov, ov, ov))
      (u64 ((ov + 1) * (ov + 1) * ov + z)) = threeToOneD ov 0 z dims).
  { intros z Hz. rewrite LinkedCellTraversals.u64_small by nia.
    rewrite <- (LinkedCellTraversals.C08_cellOffsets_at dims ov ov 0 z) by lia.
    f_equal. lia. }
  assert (I5 : forall z, 0 <= z <= ov ->
    vec_at (LinkedCellTraversals.C08_cellOffsets dims (ov, ov, ov))
      (u64 ((ov + 1) * (ov + 1) * (ov + 1) - (ov + 1) + z))
    = threeToOneD ov ov z dims).
  { intros z Hz. rewrite LinkedCellTraversals.u64_small by nia.
    rewrite <- (LinkedCellTraversals.C08_cellOffsets_at dims ov ov ov z) by lia.
    f_equal. lia. }
  assert (U : forall k, 0 <= k <= ov -> u64 (ov - k) = ov - k)
    by (intros k Hk; apply LinkedCellTraversals.u64_small; nia).
  assert (A0 : forall k, 0 <= k <= ov -> Z.abs (k - 0) = k) by (intros; lia).
  assert (A1 : forall k, 0 <= k <= ov -> Z.abs (k - ov) = ov - k) by (intros; lia).
  split.
  - intros Hin.
    apply list_elem_of_bind in Hin as (x & Hin & Hx%elem_of_seqZ).
    apply list_elem_of_bind in Hin as (y & Hin & Hy%elem_of_seqZ).
    apply list_elem_of_bind in Hin as (z & Hin & Hz%elem_of_seqZ).
    exists x, y, z.
    rewrite I1, I2 in Hin by lia.
    rewrite I3, I4, I5 in Hin by lia. rewrite !U in Hin by lia.
    rewrite !elem_of_app in Hin.
    destruct Hin as [Hin|[Hin|[Hin|Hin]]].
    + apply (elem_of_kept true) in Hin as (_ & Hw & Heq).
      inversion Heq; subst. exists 0, 0. rewrite !A0 by lia.
      repeat split; try lia; try assumption. left; tauto.
    + apply elem_of_kept in Hin as (Hg & Hw & Heq).
      apply andb_true_iff in Hg as [Hg1%bool_decide_eq_true Hg2%bool_decide_eq_true].
      inversion Heq; subst. exists 0, ov. rewrite A0, A1 by lia.
      repeat split; try lia; try assumption. right; left; tauto.
    + apply elem_of_kept in Hin as (Hg & Hw & Heq).
      apply andb_true_iff in Hg as [Hg1%bool_decide_eq_true Hg2].
      apply orb_true_iff in Hg2.
      rewrite !bool_decide_eq_true in Hg2.
      inversion Heq; subst. exists ov, 0. rewrite A0, A1 by lia.
      repeat split; try lia; try assumption. right; right; left; tauto.
    + apply elem_of_kept in Hin as (Hg & Hw & Heq).
      apply andb_true_iff in Hg as [Hg Hg3%bool_decide_eq_true].
      apply andb_true_iff in Hg as [Hg1%bool_decide_eq_true Hg2%bool_decide_eq_true].
      inversion Heq; subst. exists ov, ov. rewrite !A1 by lia.
      repeat split; try lia; try assumption. right; right; right; tauto.
  - intros (x & y & z & a & b & Hx & Hy & Hz & Hc & -> & -> & Hd & ->).
    destruct Hc as [(-> & ->)|[(-> & -> & Hg1 & Hg2)
      |[(-> & -> & Hg1 & Hg2)|(-> & -> & Hg1 & Hg2 & Hg3)]]];
      rewrite ?A0, ?A1 in * by lia;
      (apply list_elem_of_bind; exists x; split; [|apply elem_of_seqZ; lia]);
      (apply list_elem_of_bind; exists y; split; [|apply elem_of_seqZ; lia]);
      (apply list_elem_of_bind; exists z; split; [|apply elem_of_seqZ; lia]);
      rewrite I1, I2 by lia; rewrite I3, I4, I5 by lia; rewrite !U by lia;
      rewrite !elem_of_app.
    + left. apply (elem_of_kept true). now repeat split.
    + right; left. apply elem_of_kept. split; [|now split].
      apply andb_true_iff. now rewrite !bool_decide_eq_true.
    + right; right; left. apply elem_of_kept. split; [|now split].
      apply andb_true_iff. rewrite orb_true_iff, !bool_decide_eq_true. tauto.
    + right; right; right. apply elem_of_kept. split; [|now split].
      rewrite !andb_true_iff, !bool_decide_eq_true. tauto.
Qed.

(** *** Which offsets the c18 arrays keep *)

(** One [push_back] of [computeOffsets]: row, column, entry. *)
Definition push_event : Type := Z * Z * (Z * array3).

Definition pushes (evs : list push_event)
  (offsets : list (list offsetArray_t)) : list (list offsetArray_t) :=
  foldl (fun st ev => push_back_at ev.1.1 ev.1.2 ev.2 st) offsets evs.

(** [_cellOffsets[i][j]], when it exists. *)
Definition offsets_at (offsets : list (list offsetArray_t)) (i j : nat)
  : option offsetArray_t :=
  offsets !! i ≫= fun row => row !! j.

Lemma pushes_app evs1 evs2 st :
  pushes (evs1 ++ evs2) st = pushes evs2 (pushes evs1 st).
Proof. unfold pushes. now rewrite foldl_app. Qed.

Lemma foldl_as_pushes {A}
  (body : list (list offsetArray_t) -> A -> list (list offsetArray_t))
  (ev : A -> list push_event) (l : list A) st :
  (forall st a, body st a = pushes (ev a) st) ->
  foldl body st l = pushes (l ≫= ev) st.
Proof.
  intros Hbody. revert st. induction l as [|a l IH]; intros st; [reflexivity|].
  cbn [foldl]. rewrite bind_cons, pushes_app, Hbody. apply IH.
Qed.

Lemma offsets_at_push i' j' e st i j :
  offsets_at (push_back_at i' j' e st) i j
  = if decide (Z.to_nat i' = i /\ Z.to_nat j' = j)
    then (fun a => a ++ [e]) <$> offsets_at st i j
    else offsets_at st i j.
Proof.
  unfold offsets_at, push_back_at.
  destruct (decide (Z.to_nat i' = i)) as [->|Hi].
  - rewrite list_lookup_alter_eq.
    destruct (st !! i) as [row|]; cbn [fmap option_fmap option_map mbind option_bind].
    + destruct (decide (Z.to_nat j' = j)) as [->|Hj].
      * rewrite decide_True by tauto. apply list_lookup_alter_eq.
      * rewrite decide_False by tauto. now apply list_lookup_alter_ne.
    + now destruct (decide _).
  - rewrite decide_False by tauto. now rewrite list_lookup_alter_ne.
Qed.

Lemma offsets_at_pushes evs st i j l0 :
  offsets_at st i j = Some l0 ->
  offsets_at (pushes evs st) i j
  = Some (l0 ++ omap (fun ev : push_event =>
            if decide (Z.to_nat ev.1.1 = i /\ Z.to_nat ev.1.2 = j)
            then Some ev.2 else None) evs).
Proof.
  revert st l0. induction evs as [|ev evs IH]; intros st l0 H0.
  - cbn. now rewrite app_nil_r.
  - cbn [pushes foldl]. fold (pushes evs (push_back_at ev.1.1 ev.1.2 ev.2 st)).
    cbn [omap list_omap].
    destruct (decide (Z.to_nat ev.1.1 = i /\ Z.to_nat ev.1.2 = j)) as [Heq|Hne].
    + erewrite IH.
      2:{ rewrite offsets_at_push, decide_True, H0 by exact Heq. reflexivity. }
      now rewrite <- app_assoc.
    + erewrite IH.
      2:{ rewrite offsets_at_push, decide_False, H0 by exact Hne. reflexivity. }
      reflexivity.
Qed.

(** The sequence of [push_back]s of [C18Traversal::computeOffsets]. *)
Definition C18_events (normalize : array3 -> array3) (dims : Z * Z * Z)
  (L : double) (cl : array3) (overlap : Z * Z * Z) : list push_event :=
  let '(o0, o1, o2) := overlap in
  z ← seqZ 0 (o2 + 1);
  y ← seqZ (- o1) (2 * o1 + 1);
  x ← seqZ (- o0) (2 * o0 + 1);
  if bool_decide (threeToOneD_long x y z dims < 0) then []
  else
    yArray ← seqZ (- o1) (2 * o1 + 1);
    if bool_decide (Z.abs (yArray + y) <= o1) then
      xArray ← seqZ (- o0) (2 * o0 + 1);
      if bool_decide (Z.abs (xArray + x) <= o0) then
        if withinInteractionLength L (C18_pos cl x y z)
        then [(yArray + o1, xArray + o0,
               (u64 (threeToOneD_long x y z dims), normalize (C18_pos cl x y z)))]
        else []
      else []
    else [].

Lemma C18_computeOffsets_events normalize dims L cl overlap :
  C18_computeOffsets normalize dims L cl overlap
  = pushes (C18_events normalize dims L cl overlap)
      (replicate (Z.to_nat (u64 (2 * overlap.1.2 + 1)))
         (replicate (Z.to_nat (u64 (2 * overlap.1.1 + 1))) [])).
Proof.
  destruct overlap as [[o0 o1] o2]. unfold C18_computeOffsets, C18_events.
  cbn [fst snd].
  apply foldl_as_pushes. intros st z.
  apply foldl_as_pushes. intros st1 y.
  apply foldl_as_pushes. intros st2 x.
  destruct (bool_decide (threeToOneD_long x y z dims < 0)); [reflexivity|].
  apply foldl_as_pushes. intros st3 yArray.
  destruct (bool_decide (Z.abs (yArray + y) <= o1)); [|reflexivity].
  apply foldl_as_pushes. intros st4 xArray.
  destruct (bool_decide (Z.abs (xArray + x) <= o0)); [|reflexivity].
  now destruct (withinInteractionLength L (C18_pos cl x y z)).
Qed.

(** The array of the special case [(xA, yA)] holds the entry [e] exactly
    when the loop considers an offset [(x, y, z)] for that case, the test
    on the rounded squared distance succeeds and [e] is its entry. *)
Lemma C18_computeOffsets_kept normalize dims L cl o0 o1 o2 xA yA e :
  0 <= o0 -> 0 <= o1 -> 2 * o0 + 1 < 2 ^ 64 -> 2 * o1 + 1 < 2 ^ 64 ->
  - o1 <= yA <= o1 -> - o0 <= xA <= o0 ->
  e ∈ default [] (offsets_at (C18_computeOffsets normalize dims L cl (o0, o1, o2))
                    (Z.to_nat (yA + o1)) (Z.to_nat (xA + o0)))
  <->
  exists x y z,
    0 <= z <= o2 /\ - o1 <= y <= o1 /\ - o0 <= x <= o0
    /\ 0 <= threeToOneD_long x y z dims
    /\ Z.abs (yA + y) <= o1 /\ Z.abs (xA + x) <= o0
    /\ withinInteractionLength L (C18_pos cl x y z) = true
    /\ e = (u64 (threeToOneD_long x y z dims), normalize (C18_pos cl x y z)).
Proof.
  intros Ho0 Ho1 Hb0 Hb1 HyA HxA.
  rewrite C18_computeOffsets_events. cbn [fst snd].
  rewrite !LinkedCellTraversals.u64_small by lia.
  erewrite offsets_at_pushes.
  2:{ unfold offsets_at. rewrite lookup_replicate_2 by lia. cbn.
      rewrite lookup_replicate_2 by lia. reflexivity. }
  cbn [from_option app]. unfold Datatypes.id. rewrite list_elem_of_omap.
  unfold C18_events. split.
  - intros (ev & Hev & Hsel).
    apply list_elem_of_bind in Hev as (z & Hev & Hz%elem_of_seqZ).
    apply list_elem_of_bind in Hev as (y & Hev & Hy%elem_of_seqZ).
    apply list_elem_of_bind in Hev as (x & Hev & Hx%elem_of_seqZ).
    destruct (bool_decide (threeToOneD_long x y z dims < 0)) eqn:Hoff;
      [now apply elem_of_nil in Hev|].
    apply bool_decide_eq_false in Hoff.
    apply list_elem_of_bind in Hev as (yArr & Hev & HyArr%elem_of_seqZ).
    destruct (bool_decide (Z.abs (yArr + y) <= o1)) eqn:Hyy;
      [|now apply elem_of_nil in Hev].
    apply bool_decide_eq_true in Hyy.
    apply list_elem_of_bind in Hev as (xArr & Hev & HxArr%elem_of_seqZ).
    destruct (bool_decide (Z.abs (xArr + x) <= o0)) eqn:Hxx;
      [|now apply elem_of_nil in Hev].
    apply bool_decide_eq_true in Hxx.
    destruct (withinInteractionLength L (C18_pos cl x y z)) eqn:Hwithin;
      [|now apply elem_of_nil in Hev].
    apply list_elem_of_singleton in Hev. subst ev. cbn [fst snd] in Hsel.
    destruct (decide _) as [[Hi Hj]|]; [|discriminate].
    inversion Hsel; subst e.
    assert (yArr = yA) by lia. assert (xArr = xA) by lia. subst.
    exists x, y, z. repeat split; try lia. exact Hwithin.
  - intros (x & y & z & Hz & Hy & Hx & Hoff & Hyy & Hxx & Hd & ->).
    eexists. split.
    + apply list_elem_of_bind. exists z. split; [|apply elem_of_seqZ; lia].
      apply list_elem_of_bind. exists y. split; [|apply elem_of_seqZ; lia].
      apply list_elem_of_bind. exists x. split; [|apply elem_of_seqZ; lia].
      rewrite bool_decide_eq_false_2 by lia.
      apply list_elem_of_bind. exists yA. split; [|apply elem_of_seqZ; lia].
      rewrite bool_decide_eq_true_2 by lia.
      apply list_elem_of_bind. exists xA. split; [|apply elem_of_seqZ; lia].
      rewrite bool_decide_eq_true_2 by lia.
      rewrite Hd. left.
    + cbn [fst snd]. now rewrite decide_True by tauto.
Qed.

(** *** What the base steps hand to the cell functor *)

Lemma elem_of_C08_processBaseCell64 offsets baseIndex c :
  c ∈ C08_processBaseCell offsets baseIndex <->
  exists o1 o2 r, (o1, o2, r) ∈ offsets
    /\ c = (if bool_decide (u64 (baseIndex + o1) = u64 (baseIndex + o2))
            then CallProcessCell (u64 (baseIndex + o1))
            else CallProcessCellPair (u64 (baseIndex + o1)) (u64 (baseIndex + o2)) r).
Proof.
  unfold C08_processBaseCell. rewrite list_elem_of_bind. split.
  - intros ([[o1 o2] r] & Hc & Hin). exists o1, o2, r. split; [exact Hin|].
    destruct (bool_decide _); now apply list_elem_of_singleton in Hc.
  - intros (o1 & o2 & r & Hin & ->). exists (o1, o2, r). split; [|exact Hin].
    destruct (bool_decide _); left.
Qed.

Lemma elem_of_C18_processBaseCell64 dims overlap offsets x y z c :
  c ∈ C18_processBaseCell dims overlap offsets x y z <->
  exists offset r,
    (offset, r) ∈ default [] (offsets_at offsets
                    (Z.to_nat (LinkedCellTraversals.C18_getIndex dims overlap y 1))
                    (Z.to_nat (LinkedCellTraversals.C18_getIndex dims overlap x 0)))
    /\ c = (let baseIndex := threeToOneD x y z dims in
            if bool_decide (baseIndex = u64 (baseIndex + offset))
            then CallProcessCell baseIndex
            else CallProcessCellPair baseIndex (u64 (baseIndex + offset)) r).
Proof.
  unfold C18_processBaseCell. rewrite list_elem_of_bind.
  assert (Heq : default []
                  (default []
                     (offsets !! Z.to_nat (LinkedCellTraversals.C18_getIndex dims overlap y 1))
                     !! Z.to_nat (LinkedCellTraversals.C18_getIndex dims overlap x 0))
          = default [] (offsets_at offsets
                    (Z.to_nat (LinkedCellTraversals.C18_getIndex dims overlap y 1))
                    (Z.to_nat (LinkedCellTraversals.C18_getIndex dims overlap x 0)))).
  { unfold offsets_at. now destruct (offsets !! _). }
  rewrite Heq. split.
  - intros ([offset r] & Hc & Hin). exists offset, r. split; [exact Hin|].
    cbn zeta. destruct (bool_decide _); now apply list_elem_of_singleton in Hc.
  - intros (offset & r & Hin & ->). exists (offset, r). split; [|exact Hin].
    cbn zeta. destruct (bool_decide _); left.
Qed.

(** The two cells of a call on the cell functor. *)
Definition callCells (c : CellFunctorCall) : Z * Z :=
  match c with
  | CallProcessCell cellIndex => (cellIndex, cellIndex)
  | CallProcessCellPair cellIndex1 cellIndex2 _ => (cellIndex1, cellIndex2)
  end.

(** C3 (as the code has it).  The offset schedules are pruned by the
    squared distance between the cell boxes as the sources compute it in
    double precision: per axis [max(0, |d| - 1) * cellLength], the three
    squares summed, every operation rounded, compared by [<=] with the
    rounded square of the interaction length.  For the c08 block (overlap
    equal in the three dimensions) an entry is in the schedule exactly
    when it is the entry of one of the pairs the block considers and that
    test succeeds; for the c18 arrays an entry is in the array of a
    special case exactly when the loop considers its offset for that case
    and the test succeeds.  Both base steps call the cell functor once for
    each entry of the schedule and for nothing else. *)
Theorem offsets_pruned_by_rounded_distance
  (normalize : array3 -> array3) (dims : Z * Z * Z) (L : double) (cl : array3) :
  (forall ov o1 o2 r,
     0 <= ov -> (ov + 1) * (ov + 1) * (ov + 1) <= 2 ^ 64 ->
     (o1, o2, r) ∈ C08_computeOffsets normalize dims L cl (ov, ov, ov)
     <->
     exists x y z a b,
       0 <= x <= ov /\ 0 <= y <= ov /\ 0 <= z <= ov
       /\ LinkedCellTraversals.C08_corner ov x y z a b
       /\ o1 = threeToOneD a b z dims
       /\ o2 = threeToOneD x y 0 dims
       /\ withinInteractionLength L
            (C08_distVec cl (Z.abs (x - a)) (Z.abs (y - b)) z) = true
       /\ r = normalize (C08_distVec cl (Z.abs (x - a)) (Z.abs (y - b)) z))
  /\ (forall offsets baseIndex c,
        c ∈ C08_processBaseCell offsets baseIndex <->
        exists o1 o2 r, (o1, o2, r) ∈ offsets
          /\ c = (if bool_decide (u64 (baseIndex + o1) = u64 (baseIndex + o2))
                  then CallProcessCell (u64 (baseIndex + o1))
                  else CallProcessCellPair (u64 (baseIndex + o1))
                         (u64 (baseIndex + o2)) r))
  /\ (forall o0 o1 o2 xA yA e,
        0 <= o0 -> 0 <= o1 -> 2 * o0 + 1 < 2 ^ 64 -> 2 * o1 + 1 < 2 ^ 64 ->
        - o1 <= yA <= o1 -> - o0 <= xA <= o0 ->
        e ∈ default []
              (offsets_at (C18_computeOffsets normalize dims L cl (o0, o1, o2))
                 (Z.to_nat (yA + o1)) (Z.to_nat (xA + o0)))
        <->
        exists x y z,
          0 <= z <= o2 /\ - o1 <= y <= o1 /\ - o0 <= x <= o0
          /\ 0 <= threeToOneD_long x y z dims
          /\ Z.abs (yA + y) <= o1 /\ Z.abs (xA + x) <= o0
          /\ withinInteractionLength L (C18_pos cl x y z) = true
          /\ e = (u64 (threeToOneD_long x y z dims),
                  normalize (C18_pos cl x y z)))
  /\ (forall overlap offsets x y z c,
        c ∈ C18_processBaseCell dims overlap offsets x y z <->
        exists offset r,
          (offset, r) ∈ default [] (offsets_at offsets
                          (Z.to_nat (LinkedCellTraversals.C18_getIndex dims overlap y 1))
                          (Z.to_nat (LinkedCellTraversals.C18_getIndex dims overlap x 0)))
          /\ c = (let baseIndex := threeToOneD x y z dims in
                  if bool_decide (baseIndex = u64 (baseIndex + offset))
                  then CallProcessCell baseIndex
                  else CallProcessCellPair baseIndex (u64 (baseIndex + offset)) r)).
Proof.
  split; [|split; [|split]].
  - intros ov o1 o2 r Hov Hcube. now apply C08_computeOffsets_kept.
  - apply elem_of_C08_processBaseCell64.
  - intros o0 o1 o2 xA yA e Ho0 Ho1 Hb0 Hb1 HyA HxA.
    now apply C18_computeOffsets_kept.
  - intros overlap offsets x y z c. apply elem_of_C18_processBaseCell64.
Qed.

(** Cells of side 0.3, 0.4 and 1 with interaction length 0.5, overlap 2,
    in a grid of 10 x 10 x 10 cells.  The boxes of the cells [(0, 0, 0)]
    and [(2, 2, 0)] are one cell apart in x and in y; with the cell
    lengths the doubles stand for, their minimum distance is above the
    interaction length.  The rounded squares add up to the rounded square
    of the interaction length, and the pair of offsets [(0, 22)] is in the
    c08 schedule; the c18 array of the interior case keeps the offset 22
    as well.

    Cells of side 1, 0.5 and 0.5 with interaction length 1 have overlap 1,
    2 and 2.  The box of the cell [(1, 0, 0)], offset 1, touches that of
    the base cell and passes the test, but the c08 schedule indexes the
    vector of cell offsets with the overlap of the first dimension alone,
    and the offset 1 is in none of its entries. *)
Lemma offset_kept_beyond_interaction_length :
  let cl : array3 := (0.3, 0.4, 1)%float in
  let L : double := 0.5%float in
  exists (clQ : Q * Q * Q) (LQ : Q),
    exact3 cl = Some clQ /\ exact L = Some LQ
    /\ (Q2R LQ < LinkedCellTraversals.minDistance clQ (2, 2, 0)%Z)%R
    /\ (0, 22, C08_distVec cl 2 2 0)
       ∈ C08_computeOffsets (fun v => v) (10, 10, 10) L cl (2, 2, 2)
    /\ (22, C18_pos cl 2 2 0)
       ∈ default []
           (offsets_at (C18_computeOffsets (fun v => v) (10, 10, 10) L cl (2, 2, 2))
              2 2)
    /\ threeToOneD 1 0 0 (10, 10, 10) = 1
    /\ withinInteractionLength 1%float (C08_distVec (1, 0.5, 0.5)%float 1 0 0) = true
    /\ Forall (fun e : Z * Z * array3 => e.1.1 <> 1 /\ e.1.2 <> 1)
         (C08_computeOffsets (fun v => v) (10, 10, 10) 1%float
            (1, 0.5, 0.5)%float (1, 2, 2)).
Proof.
  intros cl L. eexists. eexists.
  split; [vm_compute; reflexivity|]. split; [vm_compute; reflexivity|].
  split; [|split; [|split; [|split; [reflexivity|split;
                                      [vm_compute; reflexivity|]]]]];
    [| | |vm_compute; repeat (constructor; [split; discriminate|]);
          constructor].
  - apply Rnot_le_lt. intros Hle.
    apply sq_le_sqrt in Hle;
      [|apply LinkedCellTraversals.dot_self_nonneg|discriminate].
    revert Hle. unfold Qle. vm_compute. intros H. now apply H.
  - apply C08_computeOffsets_kept; [lia|lia|].
    exists 2, 2, 0, 0, 0.
    split; [lia|]. split; [lia|]. split; [lia|].
    split; [left; split; reflexivity|].
    split; [reflexivity|]. split; [reflexivity|].
    split; [vm_compute; reflexivity|reflexivity].
  - apply (C18_computeOffsets_kept (fun v => v) (10, 10, 10) L cl 2 2 2 0 0);
      try lia.
    exists 2, 2, 0.
    split; [lia|]. split; [lia|]. split; [lia|].
    split; [cbn; lia|]. split; [lia|]. split; [lia|].
    split; [vm_compute; reflexivity|reflexivity].
Qed.

End LinkedCellTraversals64.

(** ** AsBuildPairGeneratorFunctor.h in double precision

    The list the functor fills ([appendPair], [appendPairs]) is that of
    [AsBuildPairGeneratorFunctor]. *)

Module AsBuildPairGeneratorFunctor64.
Import Binary64.

(** A particle as the functor sees it: the address of the object and its
    position.  Address 0 is the null pointer. *)
Record Particle : Type := MkParticle {
  address : nat;
  getR : array3
}.

(** [SoA<SoAArraysType>] with the attributes [ptr], [posX], [posY],
    [posZ]. *)
Record SoA : Type := MkSoA {
  ptr : list nat;
  posX : list double;
  posY : list double;
  posZ : list double
}.

Definition getNumParticles (soa : SoA) : nat := length (ptr soa).

(** Reading row [i] of a column; the rows read are below the number of
    particles. *)
Definition at_ {A} (d : A) (col : list A) (i : nat) : A := default d (col !! i).

Section Functor.
(** [VerletNeighborListAsBuild] is missing from the sources: the list and
    its two operations are parameters of the functor. *)
Variable NeighborList : Type.
Variable addPair : nat -> nat -> NeighborList -> NeighborList.
Variable checkPair : nat -> nat -> NeighborList -> NeighborList.
(** The template argument. *)
Variable callCheckInstead : bool.
(** The constructor argument; [_cutoffskinsquared] is its square. *)
Variable cutoffskin : double.

Definition _cutoffskinsquared : double := (cutoffskin * cutoffskin)%float.

(** [AoSFunctor(i, j, newton3)]. *)
Definition AoSFunctor (i j : Particle) (newton3 : bool) (_list : NeighborList)
  : NeighborList :=
  let dist := sub (getR i) (getR j) in
  let distsquare := dot dist dist in
  if (distsquare <? _cutoffskinsquared)%float then
    if callCheckInstead then checkPair (address i) (address j) _list
    else addPair (address i) (address j) _list
  else _list.

(** [dr2] of rows [i] of [soa1] and [j] of [soa2]. *)
Definition dr2 (soa1 soa2 : SoA) (i j : nat) : double :=
  let drx := (at_ 0 (posX soa1) i - at_ 0 (posX soa2) j)%float in
  let dry := (at_ 0 (posY soa1) i - at_ 0 (posY soa2) j)%float in
  let drz := (at_ 0 (posZ soa1) i - at_ 0 (posZ soa2) j)%float in
  let drx2 := (drx * drx)%float in
  let dry2 := (dry * dry)%float in
  let drz2 := (drz * drz)%float in
  (drx2 + dry2 + drz2)%float.

(** [SoAFunctor(soa, newton3)]. *)
Definition SoAFunctor (soa : SoA) (newton3 : bool) (_list : NeighborList)
  : NeighborList :=
  if bool_decide (getNumParticles soa = 0%nat) then _list
  else
    let numPart := getNumParticles soa in
    foldl (fun _list i =>
      foldl (fun _list j =>
        if (dr2 soa soa i j <? _cutoffskinsquared)%float then
          let _list := addPair (at_ 0%nat (ptr soa) i) (at_ 0%nat (ptr soa) j) _list in
          if negb newton3
          then addPair (at_ 0%nat (ptr soa) j) (at_ 0%nat (ptr soa) i) _list
          else _list
        else _list)
        _list (seq (S i) (numPart - S i)))
      _list (seq 0 numPart).

(** [SoAFunctor(soa1, soa2, newton3)]. *)
Definition SoAFunctorPair (soa1 soa2 : SoA) (newton3 : bool)
  (_list : NeighborList) : NeighborList :=
  if bool_decide (getNumParticles soa1 = 0%nat)
     || bool_decide (getNumParticles soa2 = 0%nat) then _list
  else
    let numPart1 := getNumParticles soa1 in
    foldl (fun _list i =>
      let numPart2 := getNumParticles soa2 in
      foldl (fun _list j =>
        if (dr2 soa1 soa2 i j <? _cutoffskinsquared)%float
        then addPair (at_ 0%nat (ptr soa1) i) (at_ 0%nat (ptr soa2) j) _list
        else _list)
        _list (seq 0 numPart2))
      _list (seq 0 numPart1).

End Functor.

Abbreviation appendPair := AsBuildPairGeneratorFunctor.appendPair.
Abbreviation appendPairs := AsBuildPairGeneratorFunctor.appendPairs.

(** The test of the three entry points on two positions: the squared
    separation, every operation rounded, strictly below the rounded square
    of the search radius. *)
Definition closer (cutoffskin : double) (r1 r2 : array3) : bool :=
  (dot (sub r1 r2) (sub r1 r2) <? cutoffskin * cutoffskin)%float.


(** The position in row [i] of a buffer. *)
Definition rowR (soa : SoA) (i : nat) : array3 :=
  (at_ 0%float (posX soa) i, at_ 0%float (posY soa) i, at_ 0%float (posZ soa) i).

(** The pairs [SoAFunctor(soa, newton3)] adds, in the order of its loops. *)
Definition SoAFunctor_pairs (cutoffskin : double) (soa : SoA) (newton3 : bool)
  : list (nat * nat) :=
  i ← seq 0 (getNumParticles soa);
  j ← seq (S i) (getNumParticles soa - S i);
  if closer cutoffskin (rowR soa i) (rowR soa j) then
    (at_ 0%nat (ptr soa) i, at_ 0%nat (ptr soa) j)
    :: (if negb newton3
        then [(at_ 0%nat (ptr soa) j, at_ 0%nat (ptr soa) i)] else [])
  else [].

(** The pairs [SoAFunctor(soa1, soa2, newton3)] adds. *)
Definition SoAFunctorPair_pairs (cutoffskin : double) (soa1 soa2 : SoA)
  : list (nat * nat) :=
  i ← seq 0 (getNumParticles soa1);
  j ← seq 0 (getNumParticles soa2);
  if closer cutoffskin (rowR soa1 i) (rowR soa2 j)
  then [(at_ 0%nat (ptr soa1) i, at_ 0%nat (ptr soa2) j)] else [].





(** *** Replaying the calls of a cell functor *)

(** One call of the cell functor, executed by the list-building functor
    ([callCheckInstead = false]). *)
Definition call (cutoffskin : double) (c : CellFunctor.FunctorCall Particle SoA)
  (_list : gmap nat (list nat)) : gmap nat (list nat) :=
  match c with
  | CellFunctor.AoSFunctor i j newton3 =>
      AoSFunctor _ appendPair (fun _ _ l => l) false cutoffskin i j newton3 _list
  | CellFunctor.SoAFunctor buffer newton3 =>
      SoAFunctor _ appendPair cutoffskin buffer newton3 _list
  | CellFunctor.SoAFunctorPair soa1 soa2 newton3 =>
      SoAFunctorPair _ appendPair cutoffskin soa1 soa2 newton3 _list
  end.

Definition replay (cutoffskin : double)
  (calls : list (CellFunctor.FunctorCall Particle SoA))
  (_list : gmap nat (list nat)) : gmap nat (list nat) :=
  foldl (fun l c => call cutoffskin c l) _list calls.

(** The pairs one call adds. *)
Definition pairsOfCall (cutoffskin : double)
  (c : CellFunctor.FunctorCall Particle SoA) : list (nat * nat) :=
  match c with
  | CellFunctor.AoSFunctor i j _ =>
      if closer cutoffskin (getR i) (getR j)
      then [(address i, address j)] else []
  | CellFunctor.SoAFunctor buffer newton3 =>
      SoAFunctor_pairs cutoffskin buffer newton3
  | CellFunctor.SoAFunctorPair soa1 soa2 _ =>
      SoAFunctorPair_pairs cutoffskin soa1 soa2
  end.



Definition sample_i : Particle := MkParticle 1 (0, 0, 0)%float.
Definition sample_j : Particle := MkParticle 2 (0.5, 0, 0)%float.


End AsBuildPairGeneratorFunctor64.

(** * Further properties of the embedded code *)

(** ** CellFunctor.h: the Newton3 loops, call counts, the two modes *)

Module CellFunctorCalls.
Import CellFunctor.

Section Counts.
Context {Particle SoA : Type}.
Implicit Types cell : ParticleCell Particle SoA.

Lemma length_deref {B} (l : list Particle) (i : nat) (g : Particle -> list B) (m : nat) :
  (i < length l)%nat -> (forall p, length (g p) = m) ->
  length (option_list (l !! i) ≫= g) = m.
Proof.
  intros Hi Hg. destruct (lookup_lt_is_Some_2 l i Hi) as [p ->].
  cbn. rewrite app_nil_r. apply Hg.
Qed.

Lemma length_bind_in {A B} (f : A -> list B) (m : nat) (l : list A) :
  (forall a, a ∈ l -> length (f a) = m) -> length (l ≫= f) = (length l * m)%nat.
Proof.
  induction l as [|a l IH]; intros Hf; [reflexivity|].
  rewrite bind_cons, length_app, Hf by left. rewrite IH; [reflexivity|].
  intros b Hb. apply Hf. now right.
Qed.

(** The inner loops of [processCellAoSN3] started at the last [m]
    positions. *)
Lemma length_triangle {B} (f : nat -> list B) (n m : nat) :
  (m <= n)%nat ->
  (forall o, (o < n)%nat -> length (f o) = (n - S o)%nat) ->
  (2 * length (seq (n - m) m ≫= f) = m * (m - 1))%nat.
Proof.
  intros Hm Hf. induction m as [|m IH]; [reflexivity|].
  cbn [seq]. rewrite bind_cons, length_app, Hf by lia.
  replace (S (n - S m)) with (n - m)%nat by lia.
  specialize (IH ltac:(lia)). nia.
Qed.

Lemma length_processCellAoSN3 cell :
  (2 * length (processCellAoSN3 cell)
   = length (particles cell) * (length (particles cell) - 1))%nat.
Proof.
  unfold processCellAoSN3.
  pose proof (length_triangle
    (fun outer => p1 ← option_list (particles cell !! outer);
       (fun p2 => AoSFunctor (SoA := SoA) p1 p2 true)
         <$> drop (S outer) (particles cell))
    (length (particles cell)) (length (particles cell)) (le_n _)) as H.
  rewrite Nat.sub_diag in H. apply H. intros o Ho.
  apply length_deref; [assumption|]. intros p.
  now rewrite length_fmap, length_drop.
Qed.

Lemma length_processCellAoSNoN3 cell :
  length (processCellAoSNoN3 cell)
  = (length (particles cell) * (length (particles cell) - 1))%nat.
Proof.
  unfold processCellAoSNoN3.
  transitivity (length (seq 0 (length (particles cell)))
                * (length (particles cell) - 1))%nat; [|now rewrite length_seq].
  apply length_bind_in. intros o Ho. apply elem_of_seq in Ho.
  apply length_deref; [lia|]. intros p.
  rewrite length_app, !length_fmap, length_take, length_drop. lia.
Qed.

Lemma length_processCellPairAoSN3 cell1 cell2 :
  length (processCellPairAoSN3 cell1 cell2)
  = (length (particles cell1) * length (particles cell2))%nat.
Proof.
  unfold processCellPairAoSN3. apply length_bind_uniform. intros p.
  rewrite (length_bind_uniform _ 1%nat); [lia|reflexivity].
Qed.

Lemma length_processCellPairAoSNoN3 cell1 cell2 :
  length (processCellPairAoSNoN3 cell1 cell2)
  = (2 * (length (particles cell1) * length (particles cell2)))%nat.
Proof.
  unfold processCellPairAoSNoN3.
  rewrite (length_bind_uniform _ (2 * length (particles cell2))%nat); [lia|].
  intros p. rewrite (length_bind_uniform _ 2%nat); [lia|reflexivity].
Qed.

End Counts.

(** X1.  In AoS layout with Newton3 the cell functor calls
    [AoSFunctor(p_i, p_j)] exactly once for every two positions [i < j] of
    one cell, never with the two particles in the other order, and makes
    no other call; for two cells it calls [AoSFunctor(p, q)] exactly once
    for every [p] of the first and [q] of the second cell, never
    [AoSFunctor(q, p)], and makes no other call.  The particles are
    different objects. *)
Theorem aos_N3_visits {Particle SoA : Type}
  `{EqDecision Particle} `{EqDecision SoA}
  (cell cell1 cell2 : ParticleCell Particle SoA) :
  NoDup (particles cell) ->
  NoDup (particles cell1 ++ particles cell2) ->
  (forall i j p q, (i < j)%nat ->
     particles cell !! i = Some p -> particles cell !! j = Some q ->
     invocations (AoSFunctor p q true) (processCell false true cell) = 1%nat
     /\ invocations (AoSFunctor q p true) (processCell false true cell) = 0%nat)
  /\ (forall c, c ∈ processCell false true cell ->
        exists i j p q, (i < j)%nat
          /\ particles cell !! i = Some p /\ particles cell !! j = Some q
          /\ c = AoSFunctor p q true)
  /\ (forall p q, p ∈ particles cell1 -> q ∈ particles cell2 ->
        invocations (AoSFunctor p q true)
          (processCellPair false true cell1 cell2) = 1%nat
        /\ invocations (AoSFunctor q p true)
             (processCellPair false true cell1 cell2) = 0%nat)
  /\ (forall c, c ∈ processCellPair false true cell1 cell2 ->
        exists p q, p ∈ particles cell1 /\ q ∈ particles cell2
          /\ c = AoSFunctor p q true).
Proof.
  intros Hnd Hnd12. cbn. split; [|split; [|split]].
  - intros i j p q Hij Hp Hq. split.
    + apply invocations_once; [now apply NoDup_processCellAoSN3|].
      apply elem_of_processCellAoSN3. eauto 10.
    + apply invocations_absent. intros Hin.
      apply elem_of_processCellAoSN3 in Hin
        as (i' & j' & p' & q' & Hij' & Hp' & Hq' & [= -> ->]).
      pose proof (NoDup_lookup _ _ _ _ Hnd Hp Hq') as E1.
      pose proof (NoDup_lookup _ _ _ _ Hnd Hq Hp') as E2. lia.
  - intros c Hc. now apply elem_of_processCellAoSN3.
  - intros p q Hp Hq. apply NoDup_app in Hnd12 as (Hnd1 & Hdisj & Hnd2). split.
    + apply invocations_once; [now apply NoDup_processCellPairAoSN3|].
      apply elem_of_processCellPairAoSN3. eauto 10.
    + apply invocations_absent. intros Hin.
      apply elem_of_processCellPairAoSN3 in Hin as (p' & q' & Hp' & Hq' & [= -> ->]).
      now apply (Hdisj p').
  - intros c Hc. now apply elem_of_processCellPairAoSN3.
Qed.

Lemma aos_N3_visits_witness :
  let cell := MkCell [1; 2; 3]%nat tt in
  let cell1 := MkCell [1; 2]%nat tt in
  let cell2 := MkCell [3]%nat tt in
  invocations (AoSFunctor 1 3 true)%nat (processCell false true cell) = 1%nat
  /\ invocations (AoSFunctor 3 1 true)%nat (processCell false true cell) = 0%nat.
Proof.
  intros cell cell1 cell2.
  assert (Hnd : NoDup (particles cell))
    by (apply (bool_decide_unpack _); vm_compute; exact I).
  assert (Hnd12 : NoDup (particles cell1 ++ particles cell2))
    by (apply (bool_decide_unpack _); vm_compute; exact I).
  destruct (aos_N3_visits cell cell1 cell2 Hnd Hnd12) as (H1 & _).
  apply (H1 0%nat 2%nat); [lia|reflexivity|reflexivity].
Defined.

(** X2.  The number of calls the cell functor makes on the functor: for a
    cell of [n] particles [n (n - 1) / 2] AoS calls with Newton3 and
    [n (n - 1)] without; for cells of [n1] and [n2] particles [n1 n2] AoS
    calls with Newton3 and [2 n1 n2] without; in SoA layout one call for a
    cell, one for a pair of cells with Newton3 and two without. *)
Theorem call_counts {Particle SoA : Type}
  (cell cell1 cell2 : ParticleCell Particle SoA) :
  (2 * length (processCell false true cell)
   = length (particles cell) * (length (particles cell) - 1))%nat
  /\ length (processCell false false cell)
     = (length (particles cell) * (length (particles cell) - 1))%nat
  /\ length (processCellPair false true cell1 cell2)
     = (length (particles cell1) * length (particles cell2))%nat
  /\ length (processCellPair false false cell1 cell2)
     = (2 * (length (particles cell1) * length (particles cell2)))%nat
  /\ (forall useNewton3, length (processCell true useNewton3 cell) = 1%nat)
  /\ length (processCellPair true true cell1 cell2) = 1%nat
  /\ length (processCellPair true false cell1 cell2) = 2%nat.
Proof.
  split; [apply length_processCellAoSN3|].
  split; [apply length_processCellAoSNoN3|].
  split; [apply length_processCellPairAoSN3|].
  split; [apply length_processCellPairAoSNoN3|].
  split; [now intros []|]. split; reflexivity.
Qed.

(** X3.  The calls without Newton3 are the calls with Newton3 made in
    both orders: [AoSFunctor(p, q, false)] is among the calls for a cell
    (a pair of cells) without Newton3 exactly when [AoSFunctor(p, q)] or
    [AoSFunctor(q, p)] is among the calls with Newton3. *)
Theorem aos_noN3_is_N3_in_both_orders {Particle SoA : Type}
  (cell cell1 cell2 : ParticleCell Particle SoA) (p q : Particle) :
  (AoSFunctor p q false ∈ processCell false false cell
   <-> AoSFunctor p q true ∈ processCell false true cell
       \/ AoSFunctor q p true ∈ processCell false true cell)
  /\ (AoSFunctor p q false ∈ processCellPair false false cell1 cell2
      <-> AoSFunctor p q true ∈ processCellPair false true cell1 cell2
          \/ AoSFunctor q p true ∈ processCellPair false true cell1 cell2).
Proof.
  cbn. rewrite elem_of_processCellAoSNoN3, !elem_of_processCellAoSN3.
  rewrite elem_of_processCellPairAoSNoN3, !elem_of_processCellPairAoSN3.
  split; split.
  - intros (i & j & p' & q' & Hij & Hp & Hq & [= -> ->]).
    destruct (decide (i < j)%nat); [left|right]; eauto 10 with lia.
    exists j, i, q', p'. repeat split; [lia|assumption..].
  - intros [(i & j & p' & q' & Hij & Hp & Hq & [= -> ->])
           |(i & j & p' & q' & Hij & Hp & Hq & [= -> ->])].
    + exists i, j, p', q'. repeat split; [lia|assumption..].
    + exists j, i, q', p'. repeat split; [lia|assumption..].
  - intros (p' & q' & Hp & Hq & [[= -> ->]|[= -> ->]]); [left|right]; eauto 10.
  - intros [(p' & q' & Hp & Hq & [= -> ->])|(p' & q' & Hp & Hq & [= -> ->])];
      eauto 10.
Qed.

End CellFunctorCalls.

(** ** C08CellHandler.h: the cells a base step touches *)

Module C08BaseStep.
Import ThreeDimensionalMapping ArrayMath LinkedCellTraversals C08Traversal.

(** The two cells of a call on the cell functor. *)
Definition callCells (c : CellFunctorCall) : Z * Z :=
  match c with
  | CallProcessCell cellIndex => (cellIndex, cellIndex)
  | CallProcessCellPair cellIndex1 cellIndex2 _ => (cellIndex1, cellIndex2)
  end.










End C08BaseStep.

(** ** C18Traversal.h: the special cases at the walls *)

Module C18BaseStep.
Import ThreeDimensionalMapping ArrayMath LinkedCellTraversals.

Lemma getIndex_cases ov n pos :
  0 <= ov -> 2 * ov <= n -> n < 2 ^ 64 -> 0 <= pos < n ->
  let r := if bool_decide (pos < ov) then pos
           else if bool_decide (pos < u64 (n - ov)) then ov
           else u64 (pos - n + 2 * ov + 1) in
  0 <= r <= 2 * ov
  /\ forall d, - ov <= d <= ov ->
       (Z.abs (r - ov + d) <= ov <-> 0 <= pos + d < n).
Proof.
  intros Hov Hn Hmax Hpos. cbn zeta.
  rewrite (u64_small (n - ov)) by lia.
  destruct (bool_decide (pos < ov)) eqn:E1.
  - apply bool_decide_eq_true in E1. split; [lia|]. intros d Hd. lia.
  - apply bool_decide_eq_false in E1.
    destruct (bool_decide (pos < n - ov)) eqn:E2.
    + apply bool_decide_eq_true in E2. split; [lia|]. intros d Hd. lia.
    + apply bool_decide_eq_false in E2. rewrite u64_small by lia.
      split; [lia|]. intros d Hd. lia.
Qed.

(** X5.  [getIndex] stays inside the array of special cases, and the
    special case it selects is the one whose displacements stay inside the
    grid: for a position [pos] of a dimension with [n >= 2 * overlap]
    cells the index [r] is between 0 and [2 * overlap], and a displacement
    [d] of at most [overlap] cells is admitted by the case [r - overlap]
    exactly when [pos + d] is a position of the grid. *)
Theorem C18_getIndex_selects_the_grid (dims overlap : Z * Z * Z) (pos : Z)
  (dim : nat) :
  let ov := match dim with O => overlap.1.1 | S O => overlap.1.2 | _ => overlap.2 end in
  let n := match dim with O => dims.1.1 | S O => dims.1.2 | _ => dims.2 end in
  0 <= ov -> 2 * ov <= n -> n < 2 ^ 64 -> 0 <= pos < n ->
  0 <= C18_getIndex dims overlap pos dim <= 2 * ov
  /\ forall d, - ov <= d <= ov ->
       (Z.abs (C18_getIndex dims overlap pos dim - ov + d) <= ov
        <-> 0 <= pos + d < n).
Proof.
  intros ov n Hov Hn Hmax Hpos.
  pose proof (getIndex_cases ov n pos Hov Hn Hmax Hpos) as H.
  unfold C18_getIndex. destruct overlap as [[o0 o1] o2], dims as [[n0 n1] n2].
  exact H.
Qed.

Lemma C18_getIndex_selects_the_grid_witness :
  0 <= C18_getIndex (5, 5, 5) (2, 2, 2) 4 0 <= 2 * 2
  /\ forall d, - 2 <= d <= 2 ->
       (Z.abs (C18_getIndex (5, 5, 5) (2, 2, 2) 4 0 - 2 + d) <= 2
        <-> 0 <= 4 + d < 5).
Proof.
  apply (C18_getIndex_selects_the_grid (5, 5, 5) (2, 2, 2) 4 0); cbn; lia.
Defined.

(** X6.  The base step of the c18 traversal, in double precision, at the
    cell [(x, y, z)] of a grid with at least [2 * overlap] cells in x and
    in y: the partner cells are the cells [(x + dx, y + dy, z + dz)] with
    [0 <= dz] and [|dx|], [|dy|], [dz] at most the overlap whose offset is
    not negative, which lie inside the grid in x and y and for which the
    test of [computeOffsets] on the rounded squared distance of the boxes
    succeeds.  If the layers up to [z + overlap] exist as well, the index
    of every partner is the index of that cell, is not below the index of
    the base cell and is inside the vector of cells. *)
Theorem C18_base_step (normalize : Binary64.array3 -> Binary64.array3)
  (L : Binary64.double) (cl : Binary64.array3)
  (nx ny nz o0 o1 o2 x y z : Z) (c : LinkedCellTraversals64.CellFunctorCall) :
  0 <= o0 -> 0 <= o1 -> 2 * o0 <= nx -> 2 * o1 <= ny ->
  nx < 2 ^ 63 -> ny < 2 ^ 63 ->
  0 <= x < nx -> 0 <= y < ny ->
  (c ∈ LinkedCellTraversals64.C18_processBaseCell (nx, ny, nz) (o0, o1, o2)
         (LinkedCellTraversals64.C18_computeOffsets normalize (nx, ny, nz) L cl
            (o0, o1, o2)) x y z
   <-> exists dx dy dz,
         0 <= dz <= o2 /\ - o1 <= dy <= o1 /\ - o0 <= dx <= o0
         /\ 0 <= threeToOneD_long dx dy dz (nx, ny, nz)
         /\ 0 <= x + dx < nx /\ 0 <= y + dy < ny
         /\ LinkedCellTraversals64.withinInteractionLength L
              (LinkedCellTraversals64.C18_pos cl dx dy dz) = true
         /\ c = (let baseIndex := threeToOneD x y z (nx, ny, nz) in
                 let otherIndex :=
                   u64 (baseIndex + u64 (threeToOneD_long dx dy dz (nx, ny, nz))) in
                 if bool_decide (baseIndex = otherIndex)
                 then LinkedCellTraversals64.CallProcessCell baseIndex
                 else LinkedCellTraversals64.CallProcessCellPair baseIndex otherIndex
                        (normalize (LinkedCellTraversals64.C18_pos cl dx dy dz))))
  /\ (0 <= z -> z + o2 < nz -> nx * ny * nz <= 2 ^ 63 ->
      forall dx dy dz,
        0 <= dz <= o2 -> 0 <= threeToOneD_long dx dy dz (nx, ny, nz) ->
        0 <= x + dx < nx -> 0 <= y + dy < ny ->
        let baseIndex := threeToOneD x y z (nx, ny, nz) in
        let otherIndex :=
          u64 (baseIndex + u64 (threeToOneD_long dx dy dz (nx, ny, nz))) in
        otherIndex = threeToOneD (x + dx) (y + dy) (z + dz) (nx, ny, nz)
        /\ baseIndex <= otherIndex < nx * ny * nz).
Proof.
  intros Ho0 Ho1 Hnx Hny Mx My Hx Hy.
  destruct (C18BaseStep.getIndex_cases o0 nx x Ho0 Hnx ltac:(lia) Hx) as [Rx Sx].
  destruct (C18BaseStep.getIndex_cases o1 ny y Ho1 Hny ltac:(lia) Hy) as [Ry Sy].
  cbn zeta in Rx, Sx, Ry, Sy.
  split.
  - rewrite LinkedCellTraversals64.elem_of_C18_processBaseCell64.
    change (C18_getIndex (nx, ny, nz) (o0, o1, o2) x 0)
      with (if bool_decide (x < o0) then x
            else if bool_decide (x < u64 (nx - o0)) then o0
            else u64 (x - nx + 2 * o0 + 1)).
    change (C18_getIndex (nx, ny, nz) (o0, o1, o2) y 1)
      with (if bool_decide (y < o1) then y
            else if bool_decide (y < u64 (ny - o1)) then o1
            else u64 (y - ny + 2 * o1 + 1)).
    set (rx := if bool_decide (x < o0) then x else _) in *.
    set (ry := if bool_decide (y < o1) then y else _) in *.
    assert (Hspec : forall e,
      e ∈ default []
            (LinkedCellTraversals64.offsets_at
               (LinkedCellTraversals64.C18_computeOffsets normalize (nx, ny, nz) L cl
                  (o0, o1, o2))
               (Z.to_nat ry) (Z.to_nat rx))
      <-> exists dx dy dz,
            0 <= dz <= o2 /\ - o1 <= dy <= o1 /\ - o0 <= dx <= o0
            /\ 0 <= threeToOneD_long dx dy dz (nx, ny, nz)
            /\ Z.abs (ry - o1 + dy) <= o1 /\ Z.abs (rx - o0 + dx) <= o0
            /\ LinkedCellTraversals64.withinInteractionLength L
                 (LinkedCellTraversals64.C18_pos cl dx dy dz) = true
            /\ e = (u64 (threeToOneD_long dx dy dz (nx, ny, nz)),
                    normalize (LinkedCellTraversals64.C18_pos cl dx dy dz))).
    { intros e.
      pose proof (LinkedCellTraversals64.C18_computeOffsets_kept normalize
                    (nx, ny, nz) L cl o0 o1 o2
                    (rx - o0) (ry - o1) e Ho0 Ho1 ltac:(lia) ltac:(lia)
                    ltac:(lia) ltac:(lia)) as H.
      replace (ry - o1 + o1) with ry in H by lia.
      replace (rx - o0 + o0) with rx in H by lia. exact H. }
    split.
    + intros (offset & r & Hin & ->).
      apply Hspec in Hin.
      destruct Hin as (dx & dy & dz & Hz & Hdy & Hdx & Hoff & Ay & Ax & Hdist & [= -> ->]).
      exists dx, dy, dz.
      split; [assumption|]. split; [assumption|]. split; [assumption|].
      split; [assumption|]. split; [now apply Sx|]. split; [now apply Sy|].
      split; [assumption|reflexivity].
    + intros (dx & dy & dz & Hz & Hdy & Hdx & Hoff & Gx & Gy & Hdist & ->).
      exists (u64 (threeToOneD_long dx dy dz (nx, ny, nz))),
             (normalize (LinkedCellTraversals64.C18_pos cl dx dy dz)).
      split; [|reflexivity].
      apply Hspec. exists dx, dy, dz.
      split; [assumption|]. split; [assumption|]. split; [assumption|].
      split; [assumption|]. split; [now apply Sy|]. split; [now apply Sx|].
      split; [assumption|reflexivity].
  - intros Hz0 Hz Hsize dx dy dz Hdz Hoff Gx Gy. cbn zeta.
    pose proof (C08Traversal.lin_bounds nx ny nz x y z Hx Hy ltac:(lia)) as B.
    pose proof (C08Traversal.lin_bounds nx ny nz (x + dx) (y + dy) (z + dz)
                  Gx Gy ltac:(lia)) as B'.
    unfold threeToOneD, threeToOneD_long in *.
    rewrite (u64_small (x + nx * (y + ny * z))) by lia.
    assert (E : x + nx * (y + ny * z) + (dx + nx * (dy + ny * dz))
                = x + dx + nx * (y + dy + ny * (z + dz))) by ring.
    rewrite (u64_small (dx + nx * (dy + ny * dz))) by lia.
    rewrite E. rewrite u64_small by lia. split; [reflexivity|]. lia.
Qed.

Lemma C18_base_step_witness :
  LinkedCellTraversals64.CallProcessCellPair 13 14 (0, 0, 0)%float
  ∈ LinkedCellTraversals64.C18_processBaseCell (3, 3, 3) (1, 1, 1)
      (LinkedCellTraversals64.C18_computeOffsets (fun v => v) (3, 3, 3) 1%float
         (1, 1, 1)%float (1, 1, 1)) 1 1 1.
Proof.
  destruct (C18_base_step (fun v => v) 1%float (1, 1, 1)%float 3 3 3 1 1 1 1 1 1
              (LinkedCellTraversals64.CallProcessCellPair 13 14 (0, 0, 0)%float)
              ltac:(lia) ltac:(lia) ltac:(lia) ltac:(lia) ltac:(lia) ltac:(lia)
              ltac:(lia) ltac:(lia)) as [[_ Hin] _].
  apply Hin. exists 1, 0, 0.
  split; [lia|]. split; [lia|]. split; [lia|]. split; [cbn; lia|].
  split; [lia|]. split; [lia|].
  split; [vm_compute; reflexivity|vm_compute; reflexivity].
Defined.

End C18BaseStep.

(** ** utils/ExceptionHandler.h: what [exception] does to the caller *)

Module ExceptionOutcome.

(** X7.  [ExceptionHandler::exception] records the message once, whatever
    the behaviour.  It throws exactly under [throwException]; it comes
    back to its caller exactly under [ignore], or under
    [printCustomAbortFunction] when the custom abort function returns;
    otherwise the process is aborted.  What follows the call runs exactly
    when the call comes back. *)
Theorem exception_outcome {A} (h : Handler) (what : string) (k : unit -> Run A) :
  raised (exception h what) = [what]
  /\ (throws (exception h what) = true <-> _behavior h = throwException)
  /\ (returns (exception h what) = Some tt
      <-> _behavior h = ignore
          \/ (_behavior h = printCustomAbortFunction
              /\ _customAbortFunction h = customReturns))
  /\ (result (exception h what) = Aborted what
      <-> _behavior h = printAbort
          \/ (_behavior h = printCustomAbortFunction
              /\ _customAbortFunction h = customTerminates))
  /\ (returns (exception h what) = Some tt ->
      exception h what ≫= k = MkRun (what :: raised (k tt)) (result (k tt)))
  /\ (returns (exception h what) = None ->
      raised (exception h what ≫= k) = [what]
      /\ returns (exception h what ≫= k) = None).
Proof.
  destruct h as [[] []]; cbn; unfold throws, returns; cbn;
    repeat split; try (intros; discriminate); try tauto;
    try (intros [H|[H1 H2]]; discriminate);
    try (now left); try (right; now split).
Qed.

Lemma exception_outcome_witness :
  exception (MkHandler ignore customReturns) "e" ≫= (fun _ => throw "f")
  = MkRun ["e"; "f"] (Thrown (A := unit) "f").
Proof.
  destruct (exception_outcome (A := unit) (MkHandler ignore customReturns) "e"
              (fun _ => throw "f")) as (_ & _ & _ & _ & Hk & _).
  apply Hk. reflexivity.
Defined.

End ExceptionOutcome.

(** ** pairwiseFunctors/Functor.h: the generic SoA loader and extractor *)

Module Functor.

Section Attributes.
(** [Particle::AttributeNames] and the values of the attributes. *)
Context {Attr V : Type} `{EqDecision Attr}.
(** The value of a value-initialised row. *)
Variable zero : V.
(** [Impl_t::getNeededAttr()] and [Impl_t::getComputedAttr()]. *)
Variable neededAttr : list Attr.
Variable computedAttr : list Attr.

(** A particle answers [get<attr>()]; a buffer has one column for each
    attribute. *)
Definition Particle : Type := Attr -> V.
Definition SoA : Type := Attr -> list V.

(** [p.set<attr>(v)]. *)
Definition set (attr : Attr) (v : V) (p : Particle) : Particle :=
  fun a => if decide (a = attr) then v else p a.

(** [soa.begin<attr>()[i] = v]. *)
Definition write (attr : Attr) (i : nat) (v : V) (soa : SoA) : SoA :=
  fun a => if decide (a = attr) then <[i := v]> (soa a) else soa a.

Definition resizeArrays (n : nat) (soa : SoA) : SoA :=
  fun a => resize n zero (soa a).

(** The fold over the needed attributes for row [i]. *)
Definition loadRow (st : SoA * nat) (p : Particle) : SoA * nat :=
  (foldl (fun buffer attr => write attr st.2 (p attr) buffer) st.1 neededAttr,
   S st.2).

(** [SoALoaderImpl(cell, soa, offset)]. *)
Definition SoALoaderImpl (cell : list Particle) (soa : SoA) (offset : nat) : SoA :=
  let soa := resizeArrays (offset + length cell) soa in
  if bool_decide (length cell = 0%nat) then soa
  else (foldl loadRow (soa, offset) cell).1.

(** The fold over the computed attributes for row [i].  Reading a row the
    column does not have is undefined in the source; the model gives no
    result then. *)
Definition extractRow (soa : SoA) (i : nat) (p : Particle) : option Particle :=
  foldl (fun op attr => p ← op; v ← soa attr !! i; Some (set attr v p))
        (Some p) computedAttr.

Fixpoint extractRows (soa : SoA) (i : nat) (cell : list Particle)
  : option (list Particle) :=
  match cell with
  | [] => Some []
  | p :: cell =>
      p' ← extractRow soa i p;
      cell' ← extractRows soa (S i) cell;
      Some (p' :: cell')
  end.

(** [SoAExtractorImpl(cell, soa, offset)]: the cell afterwards. *)
Definition SoAExtractorImpl (cell : list Particle) (soa : SoA) (offset : nat)
  : option (list Particle) :=
  if bool_decide (length cell = 0%nat) then Some cell
  else extractRows soa offset cell.

(** *** Loading *)

Lemma write_lookup attr i v soa a :
  write attr i v soa a = if decide (a = attr) then <[i := v]> (soa a) else soa a.
Proof. reflexivity. Qed.

Lemma length_loadAttrs (attrs : list Attr) (p : Particle) i buffer a :
  length (foldl (fun buffer attr => write attr i (p attr) buffer) buffer attrs a)
  = length (buffer a).
Proof.
  revert buffer. induction attrs as [|attr attrs IH]; intros buffer; [reflexivity|].
  cbn [foldl]. rewrite IH, write_lookup.
  destruct (decide (a = attr)); [apply length_insert|reflexivity].
Qed.

Lemma loadAttrs_other (attrs : list Attr) (p : Particle) i buffer a j :
  j ≠ i ->
  foldl (fun buffer attr => write attr i (p attr) buffer) buffer attrs a !! j
  = buffer a !! j.
Proof.
  intros Hj. revert buffer. induction attrs as [|attr attrs IH]; intros buffer;
    [reflexivity|].
  cbn [foldl]. rewrite IH, write_lookup.
  destruct (decide (a = attr)); [now apply list_lookup_insert_ne|reflexivity].
Qed.

Lemma loadAttrs_absent (attrs : list Attr) (p : Particle) i buffer a :
  a ∉ attrs ->
  foldl (fun buffer attr => write attr i (p attr) buffer) buffer attrs a = buffer a.
Proof.
  revert buffer. induction attrs as [|attr attrs IH]; intros buffer Ha;
    [reflexivity|].
  apply not_elem_of_cons in Ha as [Hne Ha].
  cbn [foldl]. rewrite IH by assumption. rewrite write_lookup.
  now destruct (decide (a = attr)).
Qed.

Lemma loadAttrs_row (attrs : list Attr) (p : Particle) i buffer a :
  a ∈ attrs -> (i < length (buffer a))%nat ->
  foldl (fun buffer attr => write attr i (p attr) buffer) buffer attrs a !! i
  = Some (p a).
Proof.
  revert buffer. induction attrs as [|attr attrs IH]; intros buffer Ha Hi.
  - now apply elem_of_nil in Ha.
  - cbn [foldl]. destruct (decide (a ∈ attrs)) as [Hin|Hout].
    + apply IH; [assumption|]. rewrite write_lookup.
      destruct (decide (a = attr)); [now rewrite length_insert|assumption].
    + apply elem_of_cons in Ha as [->|Ha]; [|contradiction].
      rewrite loadAttrs_absent by assumption. rewrite write_lookup.
      rewrite decide_True by reflexivity. now apply list_lookup_insert_eq.
Qed.

Lemma loadRows_rows (cell : list Particle) (soa : SoA) (i : nat) :
  (forall a, (i + length cell <= length (soa a))%nat) ->
  let st := foldl loadRow (soa, i) cell in
  st.2 = (i + length cell)%nat
  /\ (forall a, length (st.1 a) = length (soa a))
  /\ (forall a j, (j < i \/ i + length cell <= j)%nat -> st.1 a !! j = soa a !! j)
  /\ (forall a, a ∉ neededAttr -> st.1 a = soa a)
  /\ (forall a k p, a ∈ neededAttr -> cell !! k = Some p ->
        st.1 a !! (i + k)%nat = Some (p a)).
Proof.
  revert soa i. induction cell as [|p cell IH]; intros soa i Hlen.
  - cbn. split; [lia|]. split; [reflexivity|]. split; [reflexivity|].
    split; [reflexivity|]. intros a k p _ Hk. discriminate.
  - cbn [foldl length]. unfold loadRow at 2. cbn [fst snd].
    set (soa1 := foldl (fun buffer attr => write attr i (p attr) buffer) soa neededAttr).
    assert (Hlen1 : forall a, length (soa1 a) = length (soa a))
      by (intros a; apply length_loadAttrs).
    destruct (IH soa1 (S i)) as (H2 & HL & Hout & Habs & Hrows).
    { intros a. rewrite Hlen1. specialize (Hlen a). cbn in Hlen. lia. }
    cbn zeta. split; [lia|]. split; [|split; [|split]].
    + intros a. now rewrite HL.
    + intros a j Hj. rewrite Hout by lia. apply loadAttrs_other. lia.
    + intros a Ha. rewrite Habs by assumption. now apply loadAttrs_absent.
    + intros a k q Ha Hk. destruct k as [|k]; cbn in Hk.
      * inversion Hk; subst q. rewrite Nat.add_0_r, Hout by lia.
        apply loadAttrs_row; [assumption|]. specialize (Hlen a). cbn in Hlen. lia.
      * replace (i + S k)%nat with (S i + k)%nat by lia. now apply Hrows.
Qed.

(** X8.  [SoALoaderImpl(cell, soa, offset)] leaves every column with
    [offset + numParticles] rows; the rows the buffer already had below
    [offset] keep their values; row [offset + k] of every needed attribute
    holds that attribute of the [k]-th particle of the cell; the columns
    of the other attributes are only resized. *)
Theorem SoALoaderImpl_spec (cell : list Particle) (soa : SoA) (offset : nat) :
  let soa' := SoALoaderImpl cell soa offset in
  (forall a, length (soa' a) = (offset + length cell)%nat)
  /\ (forall a j, (j < offset)%nat -> (j < length (soa a))%nat ->
        soa' a !! j = soa a !! j)
  /\ (forall a k p, a ∈ neededAttr -> cell !! k = Some p ->
        soa' a !! (offset + k)%nat = Some (p a))
  /\ (forall a, a ∉ neededAttr ->
        soa' a = resize (offset + length cell) zero (soa a)).
Proof.
  unfold SoALoaderImpl. cbn zeta.
  destruct (bool_decide (length cell = 0%nat)) eqn:E.
  - apply bool_decide_eq_true in E. apply length_zero_iff_nil in E. subst cell.
    split; [intros a; apply length_resize|].
    split; [intros a j Hj Hl; apply lookup_resize; cbn; lia|].
    split; [intros a k p _ Hk; discriminate|reflexivity].
  - destruct (loadRows_rows cell (resizeArrays (offset + length cell) soa) offset)
      as (_ & HL & Hout & Habs & Hrows).
    { intros a. unfold resizeArrays. now rewrite length_resize. }
    split; [|split; [|split]].
    + intros a. rewrite HL. apply length_resize.
    + intros a j Hj Hl. rewrite Hout by lia. apply lookup_resize; lia.
    + exact Hrows.
    + exact Habs.
Qed.

(** *** Extracting *)

Lemma extractAttrs_spec (soa : SoA) (i : nat) (attrs : list Attr) (p : Particle) :
  (forall a, a ∈ attrs -> is_Some (soa a !! i)) ->
  exists p',
    foldl (fun op attr => p ← op; v ← soa attr !! i; Some (set attr v p))
          (Some p) attrs = Some p'
    /\ (forall a, a ∈ attrs -> soa a !! i = Some (p' a))
    /\ (forall a, a ∉ attrs -> p' a = p a).
Proof.
  revert p. induction attrs as [|x attrs IH]; intros p Hrows.
  - exists p. split; [reflexivity|]. split; [|reflexivity].
    intros a Ha. now apply elem_of_nil in Ha.
  - destruct (Hrows x) as [v Hv]; [left|].
    destruct (IH (set x v p)) as (p' & Hrun & Hin & Hout).
    { intros a Ha. apply Hrows. now right. }
    exists p'. split; [|split].
    + cbn [foldl]. cbn. rewrite Hv. cbn. exact Hrun.
    + intros a Ha. destruct (decide (a ∈ attrs)) as [Hi|Ho]; [now apply Hin|].
      apply elem_of_cons in Ha as [->|Ha]; [|contradiction].
      rewrite Hout by assumption. unfold set. now rewrite decide_True.
    + intros a Ha. apply not_elem_of_cons in Ha as [Hne Ha].
      rewrite Hout by assumption. unfold set. now rewrite decide_False.
Qed.

Lemma extractRows_spec (soa : SoA) (cell : list Particle) (i : nat) :
  (forall a, a ∈ computedAttr -> (i + length cell <= length (soa a))%nat) ->
  exists cell',
    extractRows soa i cell = Some cell'
    /\ length cell' = length cell
    /\ forall k p, cell !! k = Some p ->
         exists p', cell' !! k = Some p'
           /\ (forall a, a ∈ computedAttr -> soa a !! (i + k)%nat = Some (p' a))
           /\ (forall a, a ∉ computedAttr -> p' a = p a).
Proof.
  revert i. induction cell as [|p cell IH]; intros i Hlen.
  - exists []. split; [reflexivity|]. split; [reflexivity|]. intros k p Hk. discriminate.
  - destruct (extractAttrs_spec soa i computedAttr p) as (p' & Hp & Hin & Hout).
    { intros a Ha. apply lookup_lt_is_Some_2. specialize (Hlen a Ha). cbn in Hlen. lia. }
    destruct (IH (S i)) as (cell' & Hrun & Hl & Hrows).
    { intros a Ha. specialize (Hlen a Ha). cbn in Hlen. lia. }
    exists (p' :: cell'). split; [|split].
    + cbn [extractRows]. unfold extractRow. rewrite Hp. cbn. rewrite Hrun. reflexivity.
    + cbn. now rewrite Hl.
    + intros k q Hk. destruct k as [|k]; cbn in Hk.
      * inversion Hk; subst q. exists p'. rewrite Nat.add_0_r. now split.
      * destruct (Hrows k q Hk) as (q' & Hq & Hqin & Hqout).
        exists q'. replace (i + S k)%nat with (S i + k)%nat by lia. now split.
Qed.

(** X9.  When every column of a computed attribute has the rows
    [offset .. offset + numParticles - 1], [SoAExtractorImpl(cell, soa,
    offset)] is defined and keeps the number of particles; the [k]-th
    particle afterwards has, for every computed attribute, the value of
    row [offset + k] of that column and, for every other attribute, the
    value it had before. *)
Theorem SoAExtractorImpl_spec (cell : list Particle) (soa : SoA) (offset : nat) :
  (forall a, a ∈ computedAttr -> (offset + length cell <= length (soa a))%nat) ->
  exists cell',
    SoAExtractorImpl cell soa offset = Some cell'
    /\ length cell' = length cell
    /\ forall k p, cell !! k = Some p ->
         exists p', cell' !! k = Some p'
           /\ (forall a, a ∈ computedAttr ->
                 soa a !! (offset + k)%nat = Some (p' a))
           /\ (forall a, a ∉ computedAttr -> p' a = p a).
Proof.
  intros Hlen. unfold SoAExtractorImpl.
  destruct (bool_decide (length cell = 0%nat)) eqn:E.
  - apply bool_decide_eq_true in E. apply length_zero_iff_nil in E. subst cell.
    exists []. split; [reflexivity|]. split; [reflexivity|]. intros k p Hk. discriminate.
  - now apply extractRows_spec.
Qed.

(** X10.  Loading a cell and extracting it again at the same offset gives
    the cell back, attribute by attribute, when every computed attribute
    is among the needed ones. *)
Theorem SoAExtractor_after_SoALoader (cell : list Particle) (soa : SoA)
  (offset : nat) :
  (forall a, a ∈ computedAttr -> a ∈ neededAttr) ->
  exists cell',
    SoAExtractorImpl cell (SoALoaderImpl cell soa offset) offset = Some cell'
    /\ length cell' = length cell
    /\ forall k p p', cell !! k = Some p -> cell' !! k = Some p' ->
         forall a, p' a = p a.
Proof.
  intros Hsub.
  destruct (SoALoaderImpl_spec cell soa offset) as (HL & _ & Hrows & _).
  destruct (SoAExtractorImpl_spec cell (SoALoaderImpl cell soa offset) offset)
    as (cell' & Hrun & Hlen & Hback).
  { intros a _. now rewrite HL. }
  exists cell'. split; [assumption|]. split; [assumption|].
  intros k p p' Hk Hk' a. destruct (Hback k p Hk) as (q & Hq & Hin & Hout).
  assert (q = p') as -> by congruence.
  destruct (decide (a ∈ computedAttr)) as [Hc|Hc]; [|now apply Hout].
  specialize (Hin a Hc). rewrite (Hrows a k p (Hsub a Hc) Hk) in Hin. congruence.
Qed.

End Attributes.

(** Two attributes, the second one computed from the first. *)
Definition sample_cell : list (@Particle bool Q) :=
  [fun a : bool => if a then 1 else 2; fun a : bool => if a then 3 else 4]%Q.

Lemma SoAExtractorImpl_spec_witness :
  exists cell',
    SoAExtractorImpl [false] sample_cell (fun _ => [7; 8; 9]%Q) 1 = Some cell'
    /\ length cell' = length sample_cell
    /\ forall k p, sample_cell !! k = Some p ->
         exists p', cell' !! k = Some p'
           /\ (forall a, a ∈ [false] ->
                 (fun _ : bool => [7; 8; 9]%Q) a !! (1 + k)%nat = Some (p' a))
           /\ (forall a, a ∉ [false] -> p' a = p a).
Proof.
  apply (SoAExtractorImpl_spec [false] sample_cell (fun _ => [7; 8; 9]%Q) 1).
  intros a _. cbn. lia.
Defined.

Lemma SoAExtractor_after_SoALoader_witness :
  exists cell',
    SoAExtractorImpl [false] sample_cell
      (SoALoaderImpl 0%Q [true; false] sample_cell (fun _ => []) 0) 0 = Some cell'
    /\ length cell' = length sample_cell
    /\ forall k p p', sample_cell !! k = Some p -> cell' !! k = Some p' ->
         forall a, p' a = p a.
Proof.
  apply (SoAExtractor_after_SoALoader 0%Q [true; false] [false] sample_cell
           (fun _ => []) 0).
  intros a Ha. apply list_elem_of_singleton in Ha. subst a. right. left.
Defined.

End Functor.

(** ** verletLists/traversals/TraversalVerlet.h *)

Module TraversalVerlet.

(** The calls [traverseParticlePairs] makes on the functor; particles are
    known by their addresses, the buffer and the neighbour lists of the
    SoA call are those of the traversal. *)
Inductive FunctorCall : Set :=
| AoSFunctor (i j : nat) (newton3 : bool)
| SoAFunctor (iFrom iTo : nat) (newton3 : bool).

#[global] Instance FunctorCall_eq_dec : EqDecision FunctorCall.
Proof. solve_decision. Defined.

Definition dataLayout_not_available : string :=
  "VerletList dataLayout {} not available".

(** [traverseParticlePairs()], built without OpenMP. *)
Definition traverseParticlePairs (h : Handler) (dataLayout : DataLayoutOption)
  (useNewton3 : bool) (aosNeighborLists : gmap nat (list nat))
  (soaNeighborLists : list (list nat)) : Run (list FunctorCall) :=
  match dataLayout with
  | aos =>
      mret (list ← map_to_list aosNeighborLists;
            j ← list.2;
            [AoSFunctor list.1 j useNewton3])
  | soa => mret [SoAFunctor 0 (length soaNeighborLists) useNewton3]
  | cuda => exception h dataLayout_not_available ≫= fun _ => mret []
  end.

(** [traverseParticlePairs()], built with [AUTOPAS_OPENMP].  Without
    Newton3 the loops are parallel loops: their calls are listed in the
    order of the loop index (the buckets of the map one after the other),
    the order in which the threads make them is not fixed by the code. *)
Definition traverseParticlePairs_openmp (h : Handler)
  (dataLayout : DataLayoutOption) (useNewton3 : bool)
  (aosNeighborLists : gmap nat (list nat))
  (soaNeighborLists : list (list nat)) : Run (list FunctorCall) :=
  match dataLayout with
  | aos =>
      if negb useNewton3 then
        mret (it ← map_to_list aosNeighborLists;
              j ← it.2;
              [AoSFunctor it.1 j false])
      else
        mret (list ← map_to_list aosNeighborLists;
              j ← list.2;
              [AoSFunctor list.1 j useNewton3])
  | soa =>
      let iFrom := 0%nat in
      let iTo := length soaNeighborLists in
      if negb useNewton3 then
        mret ((fun i => SoAFunctor i (i + 1) useNewton3)
                <$> seq iFrom (iTo - iFrom))
      else mret [SoAFunctor iFrom iTo useNewton3]
  | cuda => exception h dataLayout_not_available ≫= fun _ => mret []
  end.

Section Buffers.
Context {Particle SoA : Type}.
(** The virtual [SoALoader] and [SoAExtractor] of the functor. *)
Variable SoALoader : list Particle -> SoA -> nat -> SoA.
Variable SoAExtractor : list Particle -> SoA -> nat -> option (list Particle).

(** [initTraversal()]: the buffer [_soa] afterwards. *)
Definition initTraversal (dataLayout : DataLayoutOption)
  (cells : list (list Particle)) (_soa : SoA) : SoA :=
  if decide (dataLayout = soa) then
    (foldl (fun st cell => (SoALoader cell st.1 st.2, (st.2 + length cell)%nat))
           (_soa, 0%nat) cells).1
  else _soa.

(** The loop of [endTraversal()] started at [offset]. *)
Fixpoint extractCells (_soa : SoA) (offset : nat) (cells : list (list Particle))
  : option (list (list Particle)) :=
  match cells with
  | [] => Some []
  | cell :: cells =>
      cell' ← SoAExtractor cell _soa offset;
      cells' ← extractCells _soa (offset + length cell) cells;
      Some (cell' :: cells')
  end.

(** [endTraversal()]: the cells afterwards. *)
Definition endTraversal (dataLayout : DataLayoutOption)
  (cells : list (list Particle)) (_soa : SoA) : option (list (list Particle)) :=
  if decide (dataLayout = soa) then extractCells _soa 0 cells else Some cells.

End Buffers.

(** *** The AoS calls *)

Lemma invocations_AoS_calls (entries : list (nat * list nat)) useNewton3 i j :
  NoDup entries.*1 ->
  invocations (AoSFunctor i j useNewton3)
    (list ← entries; j ← list.2; [AoSFunctor list.1 j useNewton3])
  = match list_to_map (M := gmap nat (list nat)) entries !! i with
    | Some l => invocations j l
    | None => 0%nat
    end.
Proof.
  induction entries as [|[k l] entries IH]; intros Hnd; [reflexivity|].
  cbn in Hnd. apply NoDup_cons in Hnd as [Hk Hnd].
  rewrite bind_cons, invocations_app, IH by assumption. cbn [fst snd list_to_map foldr].
  assert (Hrow : invocations (AoSFunctor i j useNewton3)
                   (j0 ← l; [AoSFunctor k j0 useNewton3])
                 = if decide (k = i) then invocations j l else 0%nat).
  { clear. induction l as [|x l IHl]; [now destruct (decide (k = i))|].
    rewrite bind_cons, invocations_app, IHl. unfold invocations at 1 3. cbn [filter].
    destruct (decide (k = i)) as [->|Hne].
    - destruct (decide (x = j)) as [->|Hx].
      + rewrite filter_cons_True by reflexivity.
        rewrite (filter_cons_True _ j) by reflexivity. reflexivity.
      + rewrite filter_cons_False by congruence.
        rewrite (filter_cons_False _ x) by congruence. reflexivity.
    - rewrite filter_cons_False by congruence. reflexivity. }
  rewrite Hrow. destruct (decide (k = i)) as [->|Hne].
  - rewrite lookup_insert_eq.
    rewrite (not_elem_of_list_to_map_1 (M := gmap nat)) by assumption. lia.
  - rewrite lookup_insert_ne by assumption. reflexivity.
Qed.

(** X11.  In AoS layout [traverseParticlePairs] raises nothing and calls
    [AoSFunctor(i, j, useNewton3)] as often as [j] occurs in the neighbour
    list of [i]; every call it makes is such a call for a [j] of the list
    of [i]. *)
Theorem traverseParticlePairs_aos (h : Handler) (useNewton3 : bool)
  (aosNeighborLists : gmap nat (list nat)) (soaNeighborLists : list (list nat)) :
  exists calls,
    traverseParticlePairs h aos useNewton3 aosNeighborLists soaNeighborLists
    = mret calls
    /\ (forall i j, invocations (AoSFunctor i j useNewton3) calls
                    = invocations j (aosNeighborLists !!! i))
    /\ (forall c, c ∈ calls ->
          exists i j, c = AoSFunctor i j useNewton3
                      /\ j ∈ aosNeighborLists !!! i).
Proof.
  eexists. split; [reflexivity|]. split.
  - intros i j. rewrite invocations_AoS_calls by apply NoDup_fst_map_to_list.
    rewrite list_to_map_to_list, lookup_total_alt.
    now destruct (aosNeighborLists !! i).
  - intros c Hc. apply list_elem_of_bind in Hc as ([i l] & Hc & Hin).
    apply list_elem_of_bind in Hc as (j & Hc & Hj). cbn [fst snd] in *.
    apply list_elem_of_singleton in Hc. exists i, j. split; [assumption|].
    apply elem_of_map_to_list in Hin. now rewrite lookup_total_alt, Hin.
Qed.

Lemma invocations_SoA_rows (i k n : nat) :
  invocations (SoAFunctor i (i + 1) false)
    ((fun i0 => SoAFunctor i0 (i0 + 1) false) <$> seq k n)
  = if decide (k <= i < k + n)%nat then 1%nat else 0%nat.
Proof.
  unfold invocations. revert k. induction n as [|n IH]; intros k.
  - cbn. destruct (decide _); [lia|reflexivity].
  - cbn [seq]. rewrite fmap_cons. destruct (decide (k = i)) as [->|Hne].
    + rewrite filter_cons_True by reflexivity. cbn [length]. rewrite IH.
      repeat destruct (decide _); lia.
    + rewrite filter_cons_False by (intros [= E]; lia). rewrite IH.
      repeat destruct (decide _); lia.
Qed.

(** X12.  In both builds [traverseParticlePairs] hands an exception to
    the handler exactly for the data layouts for which [isApplicable]
    answers false.  In SoA layout the build without OpenMP, and the build
    with OpenMP when Newton3 is used, make the one call
    [SoAFunctor(_soa, soaNeighborLists, 0, soaNeighborLists.size(),
    useNewton3)]; the build with OpenMP without Newton3 calls
    [SoAFunctor(_soa, soaNeighborLists, i, i + 1, false)] once for every
    [i] below [soaNeighborLists.size()] and makes no other call.  In AoS
    layout both builds make the same calls. *)
Theorem traverseParticlePairs_applicable (h : Handler)
  (dataLayout : DataLayoutOption) (useNewton3 : bool)
  (aosNeighborLists : gmap nat (list nat)) (soaNeighborLists : list (list nat)) :
  (raised (traverseParticlePairs h dataLayout useNewton3 aosNeighborLists
             soaNeighborLists) = []
   <-> Traversals.TraversalVerlet_isApplicable dataLayout = true)
  /\ (raised (traverseParticlePairs_openmp h dataLayout useNewton3
                aosNeighborLists soaNeighborLists) = []
      <-> Traversals.TraversalVerlet_isApplicable dataLayout = true)
  /\ (Traversals.TraversalVerlet_isApplicable dataLayout = false ->
      raised (traverseParticlePairs h dataLayout useNewton3 aosNeighborLists
                soaNeighborLists) = [dataLayout_not_available]
      /\ throws (traverseParticlePairs throwing dataLayout useNewton3
                   aosNeighborLists soaNeighborLists) = true
      /\ raised (traverseParticlePairs_openmp h dataLayout useNewton3
                   aosNeighborLists soaNeighborLists)
         = [dataLayout_not_available]
      /\ throws (traverseParticlePairs_openmp throwing dataLayout useNewton3
                   aosNeighborLists soaNeighborLists) = true)
  /\ traverseParticlePairs h soa useNewton3 aosNeighborLists soaNeighborLists
     = mret [SoAFunctor 0 (length soaNeighborLists) useNewton3]
  /\ traverseParticlePairs_openmp h soa true aosNeighborLists soaNeighborLists
     = mret [SoAFunctor 0 (length soaNeighborLists) true]
  /\ (exists calls,
        traverseParticlePairs_openmp h soa false aosNeighborLists
          soaNeighborLists = mret calls
        /\ length calls = length soaNeighborLists
        /\ (forall i, (i < length soaNeighborLists)%nat ->
              invocations (SoAFunctor i (i + 1) false) calls = 1%nat)
        /\ (forall c, c ∈ calls ->
              exists i, (i < length soaNeighborLists)%nat
                        /\ c = SoAFunctor i (i + 1) false))
  /\ traverseParticlePairs_openmp h aos useNewton3 aosNeighborLists
       soaNeighborLists
     = traverseParticlePairs h aos useNewton3 aosNeighborLists
         soaNeighborLists.
Proof.
  split; [|split; [|split; [|split; [reflexivity|split; [reflexivity|split]]]]].
  - destruct dataLayout; cbn; [tauto|tauto|].
    destruct h as [[] []]; cbn; split; discriminate.
  - destruct dataLayout, useNewton3; cbn; try tauto;
      destruct h as [[] []]; cbn; split; discriminate.
  - destruct dataLayout; cbn; [discriminate|discriminate|].
    intros _. repeat split; now destruct h as [[] []].
  - eexists. split; [reflexivity|]. rewrite Nat.sub_0_r.
    split; [now rewrite length_fmap, length_seq|]. split.
    + intros i Hi. rewrite invocations_SoA_rows.
      destruct (decide _); [reflexivity|lia].
    + intros c Hc. apply list_elem_of_fmap in Hc as (i & -> & Hi).
      apply elem_of_seq in Hi. exists i. split; [lia|reflexivity].
  - now destruct useNewton3.
Qed.

Lemma traverseParticlePairs_applicable_witness :
  raised (traverseParticlePairs throwing cuda true ∅ []) = [dataLayout_not_available]
  /\ throws (traverseParticlePairs throwing cuda true ∅ []) = true
  /\ raised (traverseParticlePairs_openmp throwing cuda true ∅ [])
     = [dataLayout_not_available]
  /\ throws (traverseParticlePairs_openmp throwing cuda true ∅ []) = true.
Proof.
  destruct (traverseParticlePairs_applicable throwing cuda true ∅ [])
    as (_ & _ & H & _).
  apply H. reflexivity.
Defined.

(** *** The buffer of the traversal, with the generic loader and
    extractor of Functor.h *)

Section GenericBuffers.
Context {Attr V : Type} `{EqDecision Attr}.
Variable zero : V.
Variable neededAttr : list Attr.
Variable computedAttr : list Attr.

Abbreviation Cell := (list (@Functor.Particle Attr V)).

Ltac plia := unfold Functor.Particle, Functor.SoA in *; lia.

Definition load (cells : list Cell) (_soa : @Functor.SoA Attr V)
  : @Functor.SoA Attr V * nat :=
  foldl (fun st cell =>
           (Functor.SoALoaderImpl zero neededAttr cell st.1 st.2,
            (st.2 + length cell)%nat))
        (_soa, 0%nat) cells.

Lemma load_spec (cells : list Cell) (_soa : @Functor.SoA Attr V) :
  (load cells _soa).2 = length (concat cells)
  /\ (cells ≠ [] -> forall a, length ((load cells _soa).1 a) = length (concat cells))
  /\ (forall a k p, a ∈ neededAttr -> concat cells !! k = Some p ->
        (load cells _soa).1 a !! k = Some (p a)).
Proof.
  unfold load. induction cells as [|cell cells IH] using rev_ind.
  - cbn. split; [reflexivity|]. split; [congruence|]. intros a k p _ Hk. discriminate.
  - destruct IH as (Hoff & Hlen & Hrows).
    rewrite foldl_app. cbn [foldl fst snd].
    set (st := foldl _ (_soa, 0%nat) cells) in *.
    destruct (Functor.SoALoaderImpl_spec zero neededAttr cell st.1 st.2)
      as (HL & Hkeep & Hnew & _).
    rewrite concat_app, length_app. cbn [concat]. rewrite app_nil_r.
    split; [plia|]. split.
    + intros _ a. rewrite HL. plia.
    + intros a k p Ha Hk.
      destruct (decide (k < length (concat cells))%nat) as [Hlt|Hge].
      * unfold Functor.Particle in *. rewrite lookup_app_l in Hk by assumption.
        assert (Hne : cells ≠ []) by (intros ->; cbn in Hlt; plia).
        rewrite Hkeep; [now apply Hrows| plia |rewrite Hlen by assumption; plia].
      * unfold Functor.Particle in *. rewrite lookup_app_r in Hk by plia.
        assert (Ek : k = (st.2 + (k - length (concat cells)))%nat)
          by (rewrite Hoff; plia).
        rewrite Ek. now apply Hnew.
Qed.

(** X13.  In SoA layout [initTraversal] with the generic loader fills
    the buffer of the traversal with the particles of all cells, one cell
    after the other: row [k] of every needed attribute holds that
    attribute of the [k]-th particle of the concatenated cells, and every
    column has as many rows as there are particles.  In the other layouts
    the buffer is not touched. *)
Theorem initTraversal_rows (dataLayout : DataLayoutOption) (cells : list Cell)
  (_soa : @Functor.SoA Attr V) :
  let loaded := initTraversal (Functor.SoALoaderImpl zero neededAttr)
                  dataLayout cells _soa in
  (dataLayout = soa ->
   (cells ≠ [] -> forall a, length (loaded a) = length (concat cells))
   /\ forall a k p, a ∈ neededAttr -> concat cells !! k = Some p ->
        loaded a !! k = Some (p a))
  /\ (dataLayout ≠ soa -> loaded = _soa).
Proof.
  cbn zeta. unfold initTraversal. split.
  - intros ->. rewrite decide_True by reflexivity.
    destruct (load_spec cells _soa) as (_ & Hlen & Hrows). now split.
  - intros Hne. now rewrite decide_False.
Qed.

(** Two cells written back from a buffer that holds their particles from
    row [offset] on. *)
Lemma extractCells_back (cells : list Cell) (buffer : @Functor.SoA Attr V)
  (offset : nat) :
  (forall a, a ∈ computedAttr ->
     (offset + length (concat cells) <= length (buffer a))%nat) ->
  (forall a k p, a ∈ computedAttr -> concat cells !! k = Some p ->
     buffer a !! (offset + k)%nat = Some (p a)) ->
  exists cells',
    extractCells (Functor.SoAExtractorImpl computedAttr) buffer offset cells
    = Some cells'
    /\ Forall2 (fun cell cell' =>
                 length cell' = length cell
                 /\ forall k p p', cell !! k = Some p -> cell' !! k = Some p' ->
                      forall a, p' a = p a) cells cells'.
Proof.
  unfold Functor.Particle in *.
  revert offset. induction cells as [|cell cells IH]; intros offset Hlen Hrows.
  - exists []. split; [reflexivity|constructor].
  - cbn [concat] in Hlen, Hrows.
    destruct (Functor.SoAExtractorImpl_spec computedAttr cell buffer offset)
      as (cell' & Hrun & Hl & Hback).
    { intros a Ha. specialize (Hlen a Ha). rewrite length_app in Hlen. plia. }
    destruct (IH (offset + length cell)%nat) as (cells' & Hruns & Hall).
    { intros a Ha. specialize (Hlen a Ha). rewrite length_app in Hlen. plia. }
    { intros a k p Ha Hk.
      replace (offset + length cell + k)%nat with (offset + (length cell + k))%nat
        by plia.
      apply Hrows; [assumption|]. rewrite lookup_app_r by plia.
      now replace (length cell + k - length cell)%nat with k by plia. }
    exists (cell' :: cells'). split.
    + cbn [extractCells]. rewrite Hrun. cbn. rewrite Hruns. reflexivity.
    + constructor; [|assumption]. split; [assumption|].
      intros k p p' Hk Hk' a. destruct (Hback k p Hk) as (q & Hq & Hin & Hout).
      assert (q = p') as -> by (unfold Functor.Particle in *; congruence).
      destruct (decide (a ∈ computedAttr)) as [Hc|Hc]; [|now apply Hout].
      specialize (Hin a Hc).
      rewrite (Hrows a k p Hc) in Hin by (now apply lookup_app_l_Some).
      unfold Functor.Particle in *. congruence.
Qed.

(** X14.  [endTraversal] after [initTraversal], with the generic
    extractor and loader and every computed attribute among the needed
    ones, is defined and gives every cell back with the particles it had,
    attribute by attribute, in every data layout. *)
Theorem endTraversal_after_initTraversal (dataLayout : DataLayoutOption)
  (cells : list Cell) (_soa : @Functor.SoA Attr V) :
  (forall a, a ∈ computedAttr -> a ∈ neededAttr) ->
  exists cells',
    endTraversal (Functor.SoAExtractorImpl computedAttr) dataLayout cells
      (initTraversal (Functor.SoALoaderImpl zero neededAttr) dataLayout cells _soa)
    = Some cells'
    /\ Forall2 (fun cell cell' =>
                 length cell' = length cell
                 /\ forall k p p', cell !! k = Some p -> cell' !! k = Some p' ->
                      forall a, p' a = p a) cells cells'.
Proof.
  intros Hsub. unfold endTraversal, initTraversal.
  destruct (decide (dataLayout = soa)) as [->|Hne].
  - destruct (load_spec cells _soa) as (_ & Hlen & Hrows).
    apply extractCells_back.
    + intros a _. destruct cells as [|c cells]; [cbn; plia|].
      rewrite Hlen by discriminate. plia.
    + intros a k p Ha Hk. apply Hrows; [now apply Hsub|assumption].
  - exists cells. split; [reflexivity|].
    apply Forall2_same_length_lookup_2; [reflexivity|].
    intros i c c' Hc Hc'. assert (c' = c) as -> by (unfold Functor.Particle in *; congruence).
    split; [reflexivity|]. intros k p p' Hp Hp' a. unfold Functor.Particle in *. congruence.
Qed.

End GenericBuffers.

Lemma initTraversal_rows_witness :
  let loaded := initTraversal (Functor.SoALoaderImpl 0%Q [true])
                  soa [Functor.sample_cell; Functor.sample_cell] (fun _ => []) in
  loaded true !! 3%nat = Some 3%Q.
Proof.
  intros loaded.
  destruct (initTraversal_rows 0%Q [true] soa
              [Functor.sample_cell; Functor.sample_cell] (fun _ => []))
    as [Hsoa _].
  destruct (Hsoa eq_refl) as [_ Hrows].
  apply (Hrows true 3%nat (fun a : bool => if a then 3 else 4)%Q);
    [left|reflexivity].
Defined.

Lemma endTraversal_after_initTraversal_witness :
  exists cells',
    endTraversal (Functor.SoAExtractorImpl [false]) soa [Functor.sample_cell]
      (initTraversal (Functor.SoALoaderImpl 0%Q [true; false]) soa
         [Functor.sample_cell] (fun _ => []))
    = Some cells'
    /\ Forall2 (fun cell cell' =>
                 length cell' = length cell
                 /\ forall k p p', cell !! k = Some p -> cell' !! k = Some p' ->
                      forall a, p' a = p a) [Functor.sample_cell] cells'.
Proof.
  apply (endTraversal_after_initTraversal 0%Q [true; false] [false] soa
           [Functor.sample_cell] (fun _ => [])).
  intros a Ha. apply list_elem_of_singleton in Ha. subst a. right. left.
Defined.

End TraversalVerlet.

(** ** VerletLists.h: the id map, and partners that are not in the
    container *)

Module VerletListsIdMap.
Import VerletLists.

(** The body of the loop: [operator[]] of [_aosNeighborLists] creates the
    empty list for a key the map does not have. *)
Definition touch (lists : gmap nat (list nat)) (p : nat) : gmap nat (list nat) :=
  match lists !! p with
  | Some _ => lists
  | None => <[p := []]> lists
  end.

(** [updateIdMapAoS()]: the container afterwards and the count returned;
    [particles] are the particles of the container in the order of its
    iterator. *)
Definition updateIdMapAoS (particles : list nat) (this : Container)
  : Container * nat :=
  (MkContainer (_neighborListIsValid this) (foldl touch ∅ particles)
     (_aos2soaMap this) (_soaNeighborLists this) (_soaListIsValid this),
   length particles).

Lemma touch_spec (particles : list nat) (lists : gmap nat (list nat)) p :
  foldl touch lists particles !! p
  = match lists !! p with
    | Some l => Some l
    | None => if decide (p ∈ particles) then Some [] else None
    end.
Proof.
  revert lists. induction particles as [|q particles IH]; intros lists.
  - cbn. now destruct (lists !! p).
  - cbn [foldl]. rewrite IH. unfold touch.
    destruct (lists !! q) eqn:Eq.
    + destruct (lists !! p) eqn:Ep; [reflexivity|].
      assert (Hne : p ≠ q) by congruence.
      destruct (decide (p ∈ particles)) as [Hin|Hout].
      * rewrite decide_True; [reflexivity|now right].
      * rewrite decide_False; [reflexivity|].
        intros Hin. apply elem_of_cons in Hin as [?|?]; contradiction.
    + destruct (decide (p = q)) as [->|Hne].
      * rewrite lookup_insert_eq, Eq. rewrite decide_True; [reflexivity|left].
      * rewrite lookup_insert_ne by congruence.
        destruct (lists !! p); [reflexivity|].
        destruct (decide (p ∈ particles)) as [Hin|Hout].
        -- rewrite decide_True; [reflexivity|now right].
        -- rewrite decide_False; [reflexivity|].
           intros Hin. apply elem_of_cons in Hin as [?|?]; contradiction.
Qed.

(** X15.  [updateIdMapAoS] returns the number of particles it iterated
    over and leaves a neighbour list for every particle of the container
    and for nothing else, all of them empty, whatever the lists were
    before; the other fields are not touched. *)
Theorem updateIdMapAoS_spec (particles : list nat) (this : Container) :
  let this' := (updateIdMapAoS particles this).1 in
  (updateIdMapAoS particles this).2 = length particles
  /\ (forall p, p ∈ particles <-> is_Some (_aosNeighborLists this' !! p))
  /\ (forall p l, _aosNeighborLists this' !! p = Some l -> l = [])
  /\ _neighborListIsValid this' = _neighborListIsValid this
  /\ _aos2soaMap this' = _aos2soaMap this
  /\ _soaNeighborLists this' = _soaNeighborLists this
  /\ _soaListIsValid this' = _soaListIsValid this.
Proof.
  cbn. split; [reflexivity|]. split; [|split; [|repeat split]].
  - intros p. rewrite touch_spec, lookup_empty.
    destruct (decide (p ∈ particles)); split; intros H;
      [eauto|assumption|contradiction|now destruct H].
  - intros p l. rewrite touch_spec, lookup_empty.
    destruct (decide (p ∈ particles)); congruence.
Qed.

(** *** A partner that is not a particle of the container *)

Lemma Run_bind_throw {A B} (what : string) (k : A -> Run B) :
  throw what ≫= k = throw what.
Proof. reflexivity. Qed.

Lemma fillRow_missing map neighbors j row :
  (exists n, n ∈ neighbors /\ map !! n = None) ->
  fillRow map neighbors j row = throw out_of_range.
Proof.
  revert j row. induction neighbors as [|n rest IH]; intros j row (x & Hx & Hnone).
  - now apply elem_of_nil in Hx.
  - cbn [fillRow]. destruct (map !! n) as [r|] eqn:En; [|reflexivity].
    apply IH. exists x. split; [|assumption].
    apply elem_of_cons in Hx as [->|Hx]; [congruence|assumption].
Qed.

Lemma convertLists_missing (map : gmap nat nat) (n : nat)
  (entries : list (nat * list nat)) :
  (forall p l, (p, l) ∈ entries -> exists k, map !! p = Some k /\ (k < n)%nat) ->
  (exists p l x, (p, l) ∈ entries /\ x ∈ l /\ map !! x = None) ->
  forall lists, length lists = n ->
  foldlM convertList entries (map, lists) = throw out_of_range.
Proof.
  induction entries as [|[p l] entries IH]; intros Hkeys Hbad lists Hlen.
  - destruct Hbad as (q & l & x & Hin & _). now apply elem_of_nil in Hin.
  - cbn [foldlM]. destruct (Hkeys p l) as (k & Hk & Hlt); [left|].
    destruct (lookup_lt_is_Some_2 lists k) as [row Hrow]; [lia|].
    assert (Hdec : forall x, {is_Some (map !! x)} + {map !! x = None}).
    { intros x. destruct (map !! x); [left; eauto|right; reflexivity]. }
    destruct (Forall_Exists_dec (fun x => is_Some (map !! x))
                (fun x => map !! x = None) Hdec l) as [Hl|Hl].
    + rewrite Forall_forall in Hl.
      rewrite (convertList_spec map lists p l k row Hk Hrow Hl).
      rewrite Run_bind_ret. apply IH.
      * intros q l' Hin. apply (Hkeys q l'). now right.
      * destruct Hbad as (q & l' & x & Hin & Hx & Hnone).
        apply elem_of_cons in Hin as [[= -> ->]|Hin]; [|eauto 6].
        destruct (Hl x Hx) as [r Hr]. congruence.
      * now rewrite length_insert.
    + apply Exists_exists in Hl.
      unfold convertList. cbn [fst snd]. rewrite Hk. cbn [default from_option].
      unfold Datatypes.id. rewrite Hrow.
      rewrite fillRow_missing by assumption. reflexivity.
Qed.

(** X16.  When the particles of the container are different objects and
    the AoS list has exactly them as keys, but some neighbour list names a
    partner that is not a particle of the container,
    [generateSoAListFromAoSVerletLists] ends with the [std::out_of_range]
    of [_aos2soaMap.at], whatever the behaviour of the exception handler
    is. *)
Theorem generateSoAListFromAoSVerletLists_missing_partner
  (particles : list nat) (this : Container) :
  NoDup particles ->
  (forall p, p ∈ particles <-> is_Some (_aosNeighborLists this !! p)) ->
  (exists p l x, _aosNeighborLists this !! p = Some l /\ x ∈ l /\ x ∉ particles) ->
  generateSoAListFromAoSVerletLists particles this = throw out_of_range.
Proof.
  intros Hnd Hdom (p & l & x & Hl & Hx & Hout).
  destruct (setRow_spec particles Hnd) as [_ Hmap].
  unfold generateSoAListFromAoSVerletLists. cbn zeta.
  set (map := (foldl setRow (∅, 0%nat) particles).1) in *.
  assert (Hsize : size (_aosNeighborLists this) = length particles).
  { rewrite <- size_dom, <- (size_list_to_set (C := gset nat)) by assumption.
    f_equal. apply set_eq. intros q.
    now rewrite elem_of_dom, elem_of_list_to_set, Hdom. }
  rewrite (convertLists_missing map (length particles)).
  - reflexivity.
  - intros q l' Hin. apply elem_of_map_to_list in Hin.
    assert (Hq : q ∈ particles) by (apply Hdom; eauto).
    apply list_elem_of_lookup_1 in Hq as [k Hk]. exists k.
    split; [now apply Hmap|]. now apply lookup_lt_Some in Hk.
  - exists p, l, x. split; [now apply elem_of_map_to_list|]. split; [assumption|].
    destruct (map !! x) as [k|] eqn:Ex; [|reflexivity].
    exfalso. apply Hout. apply Hmap in Ex.
    eapply list_elem_of_lookup_2; eassumption.
  - now rewrite length_resize.
Qed.

Definition dangling_container : Container :=
  MkContainer true (list_to_map [(10, [30]); (20, [])]%nat) ∅ [] false.

Lemma generateSoAListFromAoSVerletLists_missing_partner_witness :
  generateSoAListFromAoSVerletLists [10; 20]%nat dangling_container
  = throw out_of_range.
Proof.
  apply generateSoAListFromAoSVerletLists_missing_partner.
  - apply (bool_decide_unpack _). vm_compute. exact I.
  - intros p. cbn [dangling_container _aosNeighborLists].
    rewrite <- elem_of_dom, dom_list_to_map_L, elem_of_list_to_set.
    reflexivity.
  - exists 10%nat, [30%nat], 30%nat. split; [reflexivity|].
    split; [left|]. apply (bool_decide_unpack _). vm_compute. exact I.
Defined.

End VerletListsIdMap.

(** ** AsBuildPairGeneratorFunctor.h with CellFunctor.h: the lists do not
    depend on the data layout *)

Module AsBuildLayouts.
Import ArrayMath AsBuildPairGeneratorFunctor.

(** The buffer [SoALoader] leaves for a cell. *)
Definition loaded (cell : list Particle) : SoA :=
  MkSoA (address <$> cell) ((fun p => (getR p).1.1) <$> cell)
        ((fun p => (getR p).1.2) <$> cell) ((fun p => (getR p).2) <$> cell).

(** [distsquare < _cutoffskinsquared] for two particles. *)
Definition close (cutoffskin : Q) (p q : Particle) : bool :=
  Qlt_bool (dot (sub (getR p) (getR q)) (sub (getR p) (getR q)))
           (cutoffskin * cutoffskin).

Lemma close_sym cs p q : close cs p q = close cs q p.
Proof. apply AoS_within_sym. Qed.

Lemma dr2_loaded cell1 cell2 i j p q :
  cell1 !! i = Some p -> cell2 !! j = Some q ->
  dr2 (loaded cell1) (loaded cell2) i j
  = dot (sub (getR p) (getR q)) (sub (getR p) (getR q)).
Proof.
  intros Hp Hq. unfold dr2, loaded, at_. cbn [posX posY posZ].
  rewrite !list_lookup_fmap, Hp, Hq. cbn.
  now destruct (getR p) as [[x1 y1] z1], (getR q) as [[x2 y2] z2].
Qed.

Lemma ptr_loaded cell i p :
  cell !! i = Some p -> at_ 0%nat (ptr (loaded cell)) i = address p.
Proof. intros Hp. unfold at_, loaded. cbn. now rewrite list_lookup_fmap, Hp. Qed.

Lemma getNumParticles_loaded cell : getNumParticles (loaded cell) = length cell.
Proof. unfold getNumParticles, loaded. cbn. apply length_fmap. Qed.

(** The pairs of the single-buffer entry point on a loaded buffer. *)
Lemma elem_of_SoA_pairs_loaded cs cell newton3 c :
  c ∈ SoAFunctor_pairs cs (loaded cell) newton3 <->
  exists i j p q, (i < j)%nat /\ cell !! i = Some p /\ cell !! j = Some q
    /\ close cs p q = true
    /\ (c = (address p, address q)
        \/ newton3 = false /\ c = (address q, address p)).
Proof.
  unfold SoAFunctor_pairs. rewrite getNumParticles_loaded, list_elem_of_bind. split.
  - intros (i & Hc & Hi). apply list_elem_of_bind in Hc as (j & Hc & Hj).
    apply elem_of_seq in Hi, Hj.
    destruct (lookup_lt_is_Some_2 cell i) as [p Hp]; [lia|].
    destruct (lookup_lt_is_Some_2 cell j) as [q Hq]; [lia|].
    rewrite (dr2_loaded cell cell i j p q Hp Hq) in Hc.
    rewrite (ptr_loaded cell i p Hp), (ptr_loaded cell j q Hq) in Hc.
    fold (close cs p q) in Hc.
    destruct (close cs p q) eqn:E; [|now apply elem_of_nil in Hc].
    exists i, j, p, q. split; [lia|]. split; [assumption|]. split; [assumption|].
    split; [assumption|].
    apply elem_of_cons in Hc as [->|Hc]; [now left|].
    destruct newton3; cbn in Hc; [now apply elem_of_nil in Hc|].
    apply list_elem_of_singleton in Hc. now right.
  - intros (i & j & p & q & Hij & Hp & Hq & Hclose & Hc).
    pose proof (lookup_lt_Some _ _ _ Hq) as Hlt.
    exists i. split; [|apply elem_of_seq; lia].
    apply list_elem_of_bind. exists j. split; [|apply elem_of_seq; lia].
    rewrite (dr2_loaded cell cell i j p q Hp Hq).
    rewrite (ptr_loaded cell i p Hp), (ptr_loaded cell j q Hq).
    fold (close cs p q). rewrite Hclose.
    destruct Hc as [->|[-> ->]]; [left|right; left].
Qed.

(** The pairs of the two-buffer entry point on loaded buffers. *)
Lemma elem_of_SoAPair_pairs_loaded cs cell1 cell2 c :
  c ∈ SoAFunctorPair_pairs cs (loaded cell1) (loaded cell2) <->
  exists p q, p ∈ cell1 /\ q ∈ cell2 /\ close cs p q = true
    /\ c = (address p, address q).
Proof.
  unfold SoAFunctorPair_pairs. rewrite !getNumParticles_loaded, list_elem_of_bind.
  split.
  - intros (i & Hc & Hi). apply list_elem_of_bind in Hc as (j & Hc & Hj).
    apply elem_of_seq in Hi, Hj.
    destruct (lookup_lt_is_Some_2 cell1 i) as [p Hp]; [lia|].
    destruct (lookup_lt_is_Some_2 cell2 j) as [q Hq]; [lia|].
    rewrite (dr2_loaded cell1 cell2 i j p q Hp Hq) in Hc.
    rewrite (ptr_loaded cell1 i p Hp), (ptr_loaded cell2 j q Hq) in Hc.
    fold (close cs p q) in Hc.
    destruct (close cs p q) eqn:E; [|now apply elem_of_nil in Hc].
    apply list_elem_of_singleton in Hc. exists p, q.
    split; [eapply list_elem_of_lookup_2; eassumption|].
    split; [eapply list_elem_of_lookup_2; eassumption|]. now split.
  - intros (p & q & Hp & Hq & Hclose & ->).
    apply list_elem_of_lookup_1 in Hp as [i Hp].
    apply list_elem_of_lookup_1 in Hq as [j Hq].
    pose proof (lookup_lt_Some _ _ _ Hp). pose proof (lookup_lt_Some _ _ _ Hq).
    exists i. split; [|apply elem_of_seq; lia].
    apply list_elem_of_bind. exists j. split; [|apply elem_of_seq; lia].
    rewrite (dr2_loaded cell1 cell2 i j p q Hp Hq).
    rewrite (ptr_loaded cell1 i p Hp), (ptr_loaded cell2 j q Hq).
    fold (close cs p q). rewrite Hclose. left.
Qed.

Abbreviation ParticleCell := (CellFunctor.ParticleCell Particle SoA).

(** The pairs added when the calls of the cell functor are replayed. *)
Definition pairsOf (cs : Q) (calls : list (CellFunctor.FunctorCall Particle SoA))
  : list (nat * nat) :=
  calls ≫= pairsOfCall cs.

Lemma pairsOf_cell (cs : Q) (cell : ParticleCell) (useSoA newton3 : bool) c :
  CellFunctor._particleSoABuffer cell = loaded (CellFunctor.particles cell) ->
  c ∈ pairsOf cs (CellFunctor.processCell useSoA newton3 cell) <->
  exists i j p q, (i < j)%nat
    /\ CellFunctor.particles cell !! i = Some p
    /\ CellFunctor.particles cell !! j = Some q
    /\ close cs p q = true
    /\ (c = (address p, address q)
        \/ newton3 = false /\ c = (address q, address p)).
Proof.
  intros Hbuf. unfold pairsOf. destruct useSoA.
  - assert (E : CellFunctor.processCell true newton3 cell ≫= pairsOfCall cs
                = SoAFunctor_pairs cs (loaded (CellFunctor.particles cell)) newton3).
    { destruct newton3; cbn; rewrite Hbuf; apply app_nil_r. }
    rewrite E. apply elem_of_SoA_pairs_loaded.
  - rewrite list_elem_of_bind. destruct newton3; cbn [CellFunctor.processCell].
    + split.
      * intros (call & Hc & Hcall).
        apply CellFunctor.elem_of_processCellAoSN3 in Hcall
          as (i & j & p & q & Hij & Hp & Hq & ->).
        cbn in Hc. fold (close cs p q) in Hc.
        destruct (close cs p q) eqn:E; [|now apply elem_of_nil in Hc].
        apply list_elem_of_singleton in Hc. exists i, j, p, q. auto 10.
      * intros (i & j & p & q & Hij & Hp & Hq & Hclose & [->|[? _]]);
          [|discriminate].
        exists (CellFunctor.AoSFunctor p q true). split.
        -- cbn. fold (close cs p q). rewrite Hclose. left.
        -- apply CellFunctor.elem_of_processCellAoSN3. eauto 10.
    + split.
      * intros (call & Hc & Hcall).
        apply CellFunctor.elem_of_processCellAoSNoN3 in Hcall
          as (i & j & p & q & Hij & Hp & Hq & ->).
        cbn in Hc. fold (close cs p q) in Hc.
        destruct (close cs p q) eqn:E; [|now apply elem_of_nil in Hc].
        apply list_elem_of_singleton in Hc.
        destruct (decide (i < j)%nat) as [Hlt|Hge].
        -- exists i, j, p, q. auto 10.
        -- exists j, i, q, p. rewrite close_sym.
           split; [lia|]. auto 10.
      * intros (i & j & p & q & Hij & Hp & Hq & Hclose & [->|[_ ->]]).
        -- exists (CellFunctor.AoSFunctor p q false). split.
           ++ cbn. fold (close cs p q). rewrite Hclose. left.
           ++ apply CellFunctor.elem_of_processCellAoSNoN3.
              exists i, j, p, q. split; [lia|]. auto.
        -- exists (CellFunctor.AoSFunctor q p false). split.
           ++ cbn. fold (close cs q p). rewrite close_sym, Hclose. left.
           ++ apply CellFunctor.elem_of_processCellAoSNoN3.
              exists j, i, q, p. split; [lia|]. auto.
Qed.

Lemma pairsOf_cellPair (cs : Q) (cell1 cell2 : ParticleCell)
  (useSoA newton3 : bool) c :
  CellFunctor._particleSoABuffer cell1 = loaded (CellFunctor.particles cell1) ->
  CellFunctor._particleSoABuffer cell2 = loaded (CellFunctor.particles cell2) ->
  c ∈ pairsOf cs (CellFunctor.processCellPair useSoA newton3 cell1 cell2) <->
  exists p q, p ∈ CellFunctor.particles cell1 /\ q ∈ CellFunctor.particles cell2
    /\ close cs p q = true
    /\ (c = (address p, address q)
        \/ newton3 = false /\ c = (address q, address p)).
Proof.
  intros Hbuf1 Hbuf2. unfold pairsOf. destruct useSoA.
  - destruct newton3; cbn; rewrite Hbuf1, Hbuf2, ?app_nil_r.
    + rewrite elem_of_SoAPair_pairs_loaded. split.
      * intros (p & q & Hp & Hq & Hclose & ->). eauto 10.
      * intros (p & q & Hp & Hq & Hclose & [->|[? _]]); [eauto 10|discriminate].
    + rewrite elem_of_app, !elem_of_SoAPair_pairs_loaded. split.
      * intros [(p & q & Hp & Hq & Hclose & ->)|(q & p & Hq & Hp & Hclose & ->)].
        -- eauto 10.
        -- rewrite close_sym in Hclose. eauto 10.
      * intros (p & q & Hp & Hq & Hclose & [->|[_ ->]]).
        -- left. eauto 10.
        -- right. rewrite close_sym in Hclose. eauto 10.
  - rewrite list_elem_of_bind. destruct newton3; cbn [CellFunctor.processCellPair].
    + split.
      * intros (call & Hc & Hcall).
        apply CellFunctor.elem_of_processCellPairAoSN3 in Hcall
          as (p & q & Hp & Hq & ->).
        cbn in Hc. fold (close cs p q) in Hc.
        destruct (close cs p q) eqn:E; [|now apply elem_of_nil in Hc].
        apply list_elem_of_singleton in Hc. eauto 10.
      * intros (p & q & Hp & Hq & Hclose & [->|[? _]]); [|discriminate].
        exists (CellFunctor.AoSFunctor p q true). split.
        -- cbn. fold (close cs p q). rewrite Hclose. left.
        -- apply CellFunctor.elem_of_processCellPairAoSN3. eauto 10.
    + split.
      * intros (call & Hc & Hcall).
        apply CellFunctor.elem_of_processCellPairAoSNoN3 in Hcall
          as (p & q & Hp & Hq & [->| ->]); cbn in Hc.
        -- fold (close cs p q) in Hc.
           destruct (close cs p q) eqn:E; [|now apply elem_of_nil in Hc].
           apply list_elem_of_singleton in Hc. eauto 10.
        -- fold (close cs q p) in Hc. rewrite close_sym in Hc.
           destruct (close cs p q) eqn:E; [|now apply elem_of_nil in Hc].
           apply list_elem_of_singleton in Hc. exists p, q. auto 10.
      * intros (p & q & Hp & Hq & Hclose & [->|[_ ->]]).
        -- exists (CellFunctor.AoSFunctor p q false). split.
           ++ cbn. fold (close cs p q). rewrite Hclose. left.
           ++ apply CellFunctor.elem_of_processCellPairAoSNoN3. eauto 10.
        -- exists (CellFunctor.AoSFunctor q p false). split.
           ++ cbn. fold (close cs q p). rewrite close_sym, Hclose. left.
           ++ apply CellFunctor.elem_of_processCellPairAoSNoN3. eauto 10.
Qed.

Lemma elem_of_replay cs calls p x :
  x ∈ replay cs calls ∅ !!! p <-> (p, x) ∈ pairsOf cs calls.
Proof. rewrite replay_appendPairs. apply elem_of_appendPairs. Qed.

Lemma loaded_buffer h s (cell : ParticleCell) :
  returns (SoALoader h (CellFunctor.particles cell) s 0)
  = Some (CellFunctor.particles cell, CellFunctor._particleSoABuffer cell) ->
  CellFunctor._particleSoABuffer cell = loaded (CellFunctor.particles cell).
Proof. rewrite SoALoader_zero. cbn. intros [= <-]. reflexivity. Qed.

(** X17.  Building the lists does not depend on the data layout: when
    the buffers of the cells are those [SoALoader] leaves for their
    particles, replaying the calls the cell functor makes for a cell, or
    for a pair of cells, on the empty list puts the same partners into the
    list of every particle in SoA layout as in AoS layout, with Newton3 and
    without. *)
Theorem lists_do_not_depend_on_layout (h : Handler) (s : SoA) (cutoffskin : Q)
  (cell cell1 cell2 : ParticleCell) (useNewton3 : bool) :
  returns (SoALoader h (CellFunctor.particles cell) s 0)
  = Some (CellFunctor.particles cell, CellFunctor._particleSoABuffer cell) ->
  returns (SoALoader h (CellFunctor.particles cell1) s 0)
  = Some (CellFunctor.particles cell1, CellFunctor._particleSoABuffer cell1) ->
  returns (SoALoader h (CellFunctor.particles cell2) s 0)
  = Some (CellFunctor.particles cell2, CellFunctor._particleSoABuffer cell2) ->
  (forall p x,
     x ∈ replay cutoffskin (CellFunctor.processCell true useNewton3 cell) ∅ !!! p
     <-> x ∈ replay cutoffskin (CellFunctor.processCell false useNewton3 cell) ∅
             !!! p)
  /\ (forall p x,
        x ∈ replay cutoffskin
              (CellFunctor.processCellPair true useNewton3 cell1 cell2) ∅ !!! p
        <-> x ∈ replay cutoffskin
                  (CellFunctor.processCellPair false useNewton3 cell1 cell2) ∅
                !!! p).
Proof.
  intros H0 H1 H2.
  apply loaded_buffer in H0, H1, H2. split; intros p x.
  - rewrite !elem_of_replay.
    now rewrite (pairsOf_cell _ _ true), (pairsOf_cell _ _ false).
  - rewrite !elem_of_replay.
    now rewrite (pairsOf_cellPair _ _ _ true), (pairsOf_cellPair _ _ _ false).
Qed.

(** X18.  Without Newton3 the lists that are built are symmetric, in
    either data layout: after the calls for a cell, or for a pair of
    cells, were replayed on the empty list, [x] is in the list of [p]
    exactly when [p] is in the list of [x]. *)
Theorem lists_without_newton3_are_symmetric (h : Handler) (s : SoA)
  (cutoffskin : Q) (cell cell1 cell2 : ParticleCell) (useSoA : bool) :
  returns (SoALoader h (CellFunctor.particles cell) s 0)
  = Some (CellFunctor.particles cell, CellFunctor._particleSoABuffer cell) ->
  returns (SoALoader h (CellFunctor.particles cell1) s 0)
  = Some (CellFunctor.particles cell1, CellFunctor._particleSoABuffer cell1) ->
  returns (SoALoader h (CellFunctor.particles cell2) s 0)
  = Some (CellFunctor.particles cell2, CellFunctor._particleSoABuffer cell2) ->
  (forall p x,
     x ∈ replay cutoffskin (CellFunctor.processCell useSoA false cell) ∅ !!! p
     <-> p ∈ replay cutoffskin (CellFunctor.processCell useSoA false cell) ∅ !!! x)
  /\ (forall p x,
        x ∈ replay cutoffskin
              (CellFunctor.processCellPair useSoA false cell1 cell2) ∅ !!! p
        <-> p ∈ replay cutoffskin
                  (CellFunctor.processCellPair useSoA false cell1 cell2) ∅ !!! x).
Proof.
  intros H0 H1 H2.
  apply loaded_buffer in H0, H1, H2. split; intros p x.
  - rewrite !elem_of_replay, !pairsOf_cell by assumption.
    split; intros (i & j & a & b & Hij & Ha & Hb & Hclose & [[= -> ->]|[_ [= -> ->]]]);
      exists i, j, a, b; auto 10.
  - rewrite !elem_of_replay, !pairsOf_cellPair by assumption.
    split; intros (a & b & Ha & Hb & Hclose & [[= -> ->]|[_ [= -> ->]]]);
      exists a, b; auto 10.
Qed.

Definition sample_pair_cell : ParticleCell :=
  CellFunctor.MkCell [sample_i; sample_j] (loaded [sample_i; sample_j]).

Lemma sample_pair_cell_loaded :
  returns (SoALoader throwing (CellFunctor.particles sample_pair_cell) (MkSoA [] [] [] []) 0)
  = Some (CellFunctor.particles sample_pair_cell,
          CellFunctor._particleSoABuffer sample_pair_cell).
Proof. reflexivity. Qed.

Lemma lists_do_not_depend_on_layout_witness :
  address sample_j
  ∈ replay 1 (CellFunctor.processCell true true sample_pair_cell) ∅
    !!! address sample_i
  <-> address sample_j
      ∈ replay 1 (CellFunctor.processCell false true sample_pair_cell) ∅
        !!! address sample_i.
Proof.
  exact (proj1 (lists_do_not_depend_on_layout throwing (MkSoA [] [] [] []) 1
                  sample_pair_cell sample_pair_cell sample_pair_cell true
                  sample_pair_cell_loaded sample_pair_cell_loaded sample_pair_cell_loaded)
           (address sample_i) (address sample_j)).
Defined.

Lemma lists_without_newton3_are_symmetric_witness :
  address sample_j
  ∈ replay 1 (CellFunctor.processCell true false sample_pair_cell) ∅
    !!! address sample_i
  <-> address sample_i
      ∈ replay 1 (CellFunctor.processCell true false sample_pair_cell) ∅
        !!! address sample_j.
Proof.
  exact (proj1 (lists_without_newton3_are_symmetric throwing (MkSoA [] [] [] []) 1
                  sample_pair_cell sample_pair_cell sample_pair_cell true
                  sample_pair_cell_loaded sample_pair_cell_loaded sample_pair_cell_loaded)
           (address sample_i) (address sample_j)).
Defined.

End AsBuildLayouts.

(** ** TraversalSelector.h with the traversals: the selector does not
    look at applicability *)

Module SelectorApplicability.
Import Traversals.

#[local] Instance Newton3Option_eq_dec : EqDecision Newton3Option.
Proof. solve_decision. Defined.

Definition newton3_flag (newton3 : Newton3Option) : bool :=
  match newton3 with enabled => true | disabled => false end.

(** X19.  The overload of [generateTraversal] that takes the layout and
    the Newton3 mode at run time returns what the template instantiated
    with them returns.  The traversal it returns has the requested layout
    and Newton3 mode whether it is applicable or not: for [c04SoA] it is
    applicable exactly in SoA layout, for [c01Verlet] exactly in AoS
    layout with Newton3 disabled, for [slicedVerlet] exactly in AoS layout,
    for [verletTraversal] exactly in AoS or SoA layout, and for [c18] in
    every layout but cuda, where a device is needed. *)
Theorem generated_traversal_applicability (AUTOPAS_CUDA : bool) (devices : Z)
  (h : Handler) (info : TraversalSelectorInfo) (dataLayout : DataLayoutOption)
  (newton3 : Newton3Option) (o : TraversalOption) :
  generateTraversal_dynamic h o info dataLayout newton3
  = generateTraversal h dataLayout (newton3_flag newton3) o info
  /\ forall t,
       returns (generateTraversal_dynamic h o info dataLayout newton3)
       = Some (Some t) ->
       getDataLayout t = dataLayout
       /\ getUseNewton3 t = newton3_flag newton3
       /\ (o = c04SoA ->
           isApplicable AUTOPAS_CUDA devices t
           = Some (bool_decide (dataLayout = soa)))
       /\ (o = c01Verlet ->
           isApplicable AUTOPAS_CUDA devices t
           = Some (bool_decide (newton3 = disabled /\ dataLayout = aos)))
       /\ (o = slicedVerlet ->
           isApplicable AUTOPAS_CUDA devices t
           = Some (bool_decide (dataLayout = aos)))
       /\ (o = verletTraversal ->
           isApplicable AUTOPAS_CUDA devices t
           = Some (bool_decide (dataLayout = aos \/ dataLayout = soa)))
       /\ (o = c18 ->
           isApplicable AUTOPAS_CUDA devices t
           = Some (bool_decide (dataLayout = cuda ->
                                availableDevices AUTOPAS_CUDA devices > 0))).
Proof.
  split; [now destruct dataLayout, newton3|].
  intros t Ht.
  assert (E : generateTraversal_dynamic h o info dataLayout newton3
              = generateTraversal h dataLayout (newton3_flag newton3) o info)
    by now destruct dataLayout, newton3.
  rewrite E in Ht. clear E.
  destruct o; cbn in Ht;
    try (injection Ht as <-; cbn;
         split; [reflexivity|]; split; [reflexivity|];
         repeat split; try discriminate; intros _).
  - (* c18 *)
    unfold isApplicable, C18Traversal_isApplicable, availableDevices. cbn.
    f_equal. destruct dataLayout; cbn.
    + symmetry. apply bool_decide_eq_true_2. discriminate.
    + symmetry. apply bool_decide_eq_true_2. discriminate.
    + apply bool_decide_ext. tauto.
  - (* c01Verlet *)
    unfold isApplicable, C01TraversalVerlet_isApplicable. cbn. f_equal.
    destruct newton3, dataLayout; cbn;
      first [symmetry; apply bool_decide_eq_true_2; now split
            |symmetry; apply bool_decide_eq_false_2; intros [? ?]; discriminate].
  - (* verletTraversal *)
    unfold isApplicable, TraversalVerlet_isApplicable. cbn. f_equal.
    destruct dataLayout; cbn;
      first [symmetry; apply bool_decide_eq_true_2; tauto
            |symmetry; apply bool_decide_eq_false_2; intros [?|?]; discriminate].
  - exfalso. unfold returns, mbind, Run_bind, bind in Ht. cbn in Ht.
    destruct h as [[] []]; cbn in Ht; congruence.
Qed.

End SelectorApplicability.

(** ** LJFunctorAVX2.h: the values of the global quantities *)

Module LJGlobals.
Import Binary64.

(** Modelled from the spec: utils/ArrayMath.h is missing; [add] is the
    elementwise sum and [mulScalar] the product of every component with
    the scalar. *)
Definition add (a b : array3) : array3 :=
  let '(a0, a1, a2) := a in
  let '(b0, b1, b2) := b in
  (a0 + b0, a1 + b1, a2 + b2)%float.

Definition mulScalar (a : array3) (s : double) : array3 :=
  let '(a0, a1, a2) := a in (a0 * s, a1 * s, a2 * s)%float.

Record AoSThreadData : Set := {
  virialSum : array3;
  upotSum : double
}.

Definition setZero (_ : AoSThreadData) : AoSThreadData :=
  {| virialSum := (0, 0, 0)%float; upotSum := 0%float |}.

Record state : Set := MkState {
  _upotSum : double;
  _virialSum : array3;
  _aosThreadData : list AoSThreadData;
  _postProcessed : bool
}.

Definition resetGlobalValues (s : state) : state :=
  MkState 0%float (0, 0, 0)%float (map setZero (_aosThreadData s)) false.

(** The reduction loop over [_aosThreadData]. *)
Definition accumulate (s : state) : double * array3 :=
  fold_left
    (fun acc d => ((fst acc + upotSum d)%float, add (snd acc) (virialSum d)))
    (_aosThreadData s) (_upotSum s, _virialSum s).

Definition postProcessGlobalValues (newton3 : bool) (s : state) : Run state :=
  if _postProcessed s then throw LJFunctorAVX2.already_postprocessed
  else
    let '(u, v) := accumulate s in
    let '(u, v) :=
      if negb newton3 then ((u * 0.5)%float, mulScalar v 0.5%float)
      else (u, v) in
    ret (MkState (u / 6)%float v (_aosThreadData s) true).

Section Accessors.
(** The template parameter. *)
Variable calculateGlobals : bool.

Definition getUpot (s : state) : Run double :=
  if negb calculateGlobals then throw LJFunctorAVX2.globals_disabled_upot
  else if negb (_postProcessed s) then throw LJFunctorAVX2.not_postprocessed
  else ret (_upotSum s).

Definition getVirial (s : state) : Run double :=
  if negb calculateGlobals then throw LJFunctorAVX2.globals_disabled_virial
  else if negb (_postProcessed s) then throw LJFunctorAVX2.not_postprocessed
  else
    let '(v0, v1, v2) := _virialSum s in ret (v0 + v1 + v2)%float.
End Accessors.

Lemma accumulate_zero (data : list AoSThreadData) :
  fold_left
    (fun acc d => ((fst acc + upotSum d)%float, add (snd acc) (virialSum d)))
    (map setZero data) (0%float, (0, 0, 0)%float)
  = (0%float, (0, 0, 0)%float).
Proof.
  induction data as [|d data IH]; [reflexivity|].
  cbn [map fold_left]. exact IH.
Qed.

Lemma returns_bind_ret {A B} (a : A) (k : A -> Run B) :
  returns (ret a ≫= k) = returns (k a).
Proof. exact (f_equal returns (Run_bind_ret a k)). Qed.

(** X20.  In double precision: after [resetGlobalValues],
    [postProcessGlobalValues(newton3)] comes back, leaves the thread
    buffers zeroed and the state post-processed, and [getUpot] and
    [getVirial] then both give zero, whatever the state was before, the
    number of thread buffers and [newton3].  Without thread buffers and
    with Newton3, [postProcessGlobalValues] from a state that is not
    post-processed makes [getUpot] the accumulated energy divided by six
    and leaves the virial as it is. *)
Theorem global_values (newton3 : bool) (s : state) :
  (exists s',
     postProcessGlobalValues newton3 (resetGlobalValues s) = ret s'
     /\ _postProcessed s' = true
     /\ _aosThreadData s' = map setZero (_aosThreadData s)
     /\ returns (getUpot true s') = Some 0%float
     /\ returns (getVirial true s') = Some 0%float)
  /\ returns (postProcessGlobalValues newton3 (resetGlobalValues s)
             ≫= getUpot true) = Some 0%float
  /\ returns (postProcessGlobalValues newton3 (resetGlobalValues s)
             ≫= getVirial true) = Some 0%float
  /\ (forall u v,
        returns (postProcessGlobalValues true (MkState u v [] false)
                 ≫= getUpot true) = Some (u / 6)%float
        /\ returns (postProcessGlobalValues true (MkState u v [] false)
                    ≫= getVirial true) = Some (v.1.1 + v.1.2 + v.2)%float
        /\ returns (postProcessGlobalValues false (MkState u v [] false)
                    ≫= getUpot true) = Some (u * 0.5 / 6)%float).
Proof.
  assert (Hpost : postProcessGlobalValues newton3 (resetGlobalValues s)
                  = ret (MkState 0%float (0, 0, 0)%float
                           (map setZero (_aosThreadData s)) true)).
  { unfold postProcessGlobalValues, accumulate.
    cbn [resetGlobalValues _postProcessed _aosThreadData _upotSum _virialSum].
    rewrite accumulate_zero. now destruct newton3. }
  split; [|split; [|split]].
  - eexists. split; [exact Hpost|]. repeat split.
  - rewrite Hpost, returns_bind_ret. reflexivity.
  - rewrite Hpost, returns_bind_ret. reflexivity.
  - intros u [[v0 v1] v2]. repeat split.
Qed.

End LJGlobals.

(** ** selectors/ContainerSelectorInfo.h: the comparison operators *)

Module ContainerSelectorInfo.
Import Binary64.

Record ContainerSelectorInfo : Set := MkInfo {
  cellSizeFactor : double;
  verletSkin : double
}.

(** The default constructor. *)
Definition default_info : ContainerSelectorInfo := MkInfo 1%float 0%float.

(** [operator==]. *)
Definition operator_eq (this other : ContainerSelectorInfo) : bool :=
  (cellSizeFactor this =? cellSizeFactor other)%float
  && (verletSkin this =? verletSkin other)%float.

(** [operator!=]. *)
Definition operator_ne (this other : ContainerSelectorInfo) : bool :=
  negb (operator_eq this other).

(** [operator<]: [std::tie] of the two members compared as tuples, that
    is [a1 < b1 || (!(b1 < a1) && a2 < b2)]. *)
Definition operator_lt (this other : ContainerSelectorInfo) : bool :=
  (cellSizeFactor this <? cellSizeFactor other)%float
  || (negb (cellSizeFactor other <? cellSizeFactor this)%float
      && (verletSkin this <? verletSkin other)%float).

(** Neither member is a NaN. *)
Definition noNaN (a : ContainerSelectorInfo) : Prop :=
  is_nan (cellSizeFactor a) = false /\ is_nan (verletSkin a) = false.

(** *** The order of the doubles that are not NaN

    [rank] sends such a double to a triple of integers whose
    lexicographic order is the order of the doubles; the two zeros have
    the same rank. *)
Definition rank (f : spec_float) : Z * Z * Z :=
  match f with
  | S754_zero _ => (0, 0, 0)
  | S754_infinity s => (if s then -2 else 2, 0, 0)
  | S754_nan => (0, 0, 0)
  | S754_finite s m e => if s then (-1, - e, Z.neg m) else (1, e, Z.pos m)
  end.

Definition below (a b : Z * Z * Z) : Prop :=
  a.1.1 < b.1.1
  \/ (a.1.1 = b.1.1 /\ (a.1.2 < b.1.2 \/ (a.1.2 = b.1.2 /\ a.2 < b.2))).

Lemma SFcompare_rank (x y : spec_float) :
  x <> S754_nan -> y <> S754_nan ->
  exists c, SFcompare x y = Some c
    /\ (c = Lt <-> below (rank x) (rank y))
    /\ (c = Eq <-> rank x = rank y).
Proof.
  intros Hx Hy. unfold below.
  destruct x as [sx|sx| |sx mx ex], y as [sy|sy| |sy my ey]; try congruence;
    cbn [SFcompare rank]; eexists; (split; [reflexivity|]);
    try (destruct sx); try (destruct sy); cbn [fst snd];
    try change (PosDef.Pos.compare_cont Eq mx my) with (mx ?= my)%positive;
    try (destruct (Z.compare_spec ex ey), (Pos.compare_spec mx my);
         cbn [CompOpp]);
    (split; split; [try discriminate; lia|try discriminate
                   |try discriminate; try (intros [= ?]; lia)
                   |try discriminate]); try lia; try (f_equal; lia);
    try (intros _; repeat f_equal; lia).
  all: intros [= ? ?]; lia.
Qed.

Lemma is_nan_false (x : double) : is_nan x = false -> Prim2SF x <> S754_nan.
Proof.
  unfold is_nan. rewrite FloatAxioms.eqb_spec. intros H E. rewrite E in H.
  discriminate.
Qed.

Lemma ltb_below (x y : double) :
  is_nan x = false -> is_nan y = false ->
  ((x <? y)%float = true <-> below (rank (Prim2SF x)) (rank (Prim2SF y))).
Proof.
  intros Hx%is_nan_false Hy%is_nan_false. rewrite ltb_spec. unfold SFltb.
  destruct (SFcompare_rank _ _ Hx Hy) as (c & -> & Hlt & _).
  rewrite <- Hlt. now destruct c.
Qed.

Lemma eqb_rank (x y : double) :
  is_nan x = false -> is_nan y = false ->
  ((x =? y)%float = true <-> rank (Prim2SF x) = rank (Prim2SF y)).
Proof.
  intros Hx%is_nan_false Hy%is_nan_false. rewrite FloatAxioms.eqb_spec.
  unfold SFeqb.
  destruct (SFcompare_rank _ _ Hx Hy) as (c & -> & _ & Heq).
  rewrite <- Heq. now destruct c.
Qed.

(** Every comparison with a NaN is false. *)
Lemma is_nan_compare (x y : double) :
  is_nan x = true ->
  (x <? y)%float = false /\ (y <? x)%float = false
  /\ (x =? y)%float = false /\ (y =? x)%float = false.
Proof.
  unfold is_nan. rewrite negb_true_iff, !ltb_spec, !FloatAxioms.eqb_spec.
  unfold SFltb, SFeqb. intros H.
  destruct (Prim2SF x) as [sx|sx| |sx mx ex] eqn:Ex.
  - discriminate.
  - now destruct sx.
  - now destruct (Prim2SF y).
  - cbn in H. rewrite Z.compare_refl in H.
    change (PosDef.Pos.compare_cont Eq mx mx) with (mx ?= mx)%positive in H.
    rewrite Pos.compare_refl in H. now destruct sx.
Qed.

Lemma false_iff_not (b : bool) (P : Prop) :
  (b = true <-> P) -> (b = false <-> ~ P).
Proof. destruct b; intuition congruence. Qed.

(** X21.  On objects none of whose members is a NaN the comparison
    operators of [ContainerSelectorInfo] are a strict total order with its
    equivalence: of [a < b], [a == b] and [b < a] exactly one holds, [<]
    is transitive, [==] is reflexive, symmetric and transitive and
    compatible with [<].  [!=] is always the negation of [==].  When the
    cell size factor of [a] is a NaN, [a == b] is false for every [b],
    also for [a] itself, and [a < b] compares the skins alone. *)
Theorem operators_order (a b c : ContainerSelectorInfo) :
  (noNaN a -> noNaN b -> noNaN c ->
   (operator_lt a b = true \/ operator_eq a b = true \/ operator_lt b a = true)
   /\ ~ (operator_lt a b = true /\ operator_eq a b = true)
   /\ ~ (operator_lt a b = true /\ operator_lt b a = true)
   /\ ~ (operator_eq a b = true /\ operator_lt b a = true)
   /\ (operator_lt a b = true -> operator_lt b c = true -> operator_lt a c = true)
   /\ operator_eq a a = true
   /\ (operator_eq a b = true -> operator_eq b a = true)
   /\ (operator_eq a b = true -> operator_eq b c = true -> operator_eq a c = true)
   /\ (operator_eq a b = true ->
       (operator_lt a c = true <-> operator_lt b c = true)))
  /\ operator_ne a b = negb (operator_eq a b)
  /\ (is_nan (cellSizeFactor a) = true ->
      operator_eq a b = false /\ operator_eq b a = false
      /\ operator_eq a a = false /\ operator_ne a a = true
      /\ operator_lt a b = (verletSkin a <? verletSkin b)%float
      /\ operator_lt b a = (verletSkin b <? verletSkin a)%float).
Proof.
  split; [|split; [reflexivity|]].
  - intros [Ha1 Ha2] [Hb1 Hb2] [Hc1 Hc2].
    assert (L : forall x y, is_nan x = false -> is_nan y = false ->
                  ((x <? y)%float = true
                   <-> below (rank (Prim2SF x)) (rank (Prim2SF y)))
                  /\ ((x <? y)%float = false
                      <-> ~ below (rank (Prim2SF x)) (rank (Prim2SF y)))
                  /\ ((x =? y)%float = true
                      <-> rank (Prim2SF x) = rank (Prim2SF y))).
    { intros x y Hx Hy. split; [|split].
      - now apply ltb_below.
      - now apply false_iff_not, ltb_below.
      - now apply eqb_rank. }
    unfold operator_lt, operator_eq.
    destruct a as [a1 a2], b as [b1 b2], c as [c1 c2].
    cbn [cellSizeFactor verletSkin] in *.
    rewrite !orb_true_iff, !andb_true_iff, !negb_true_iff.
    repeat match goal with
           | |- context [(?x <? ?y)%float = true] =>
               rewrite (proj1 (L x y ltac:(assumption) ltac:(assumption)))
           | |- context [(?x <? ?y)%float = false] =>
               rewrite (proj1 (proj2 (L x y ltac:(assumption) ltac:(assumption))))
           | |- context [(?x =? ?y)%float = true] =>
               rewrite (proj2 (proj2 (L x y ltac:(assumption) ltac:(assumption))))
           end.
    clear L.
    destruct (rank (Prim2SF a1)) as [[a11 a12] a13].
    destruct (rank (Prim2SF a2)) as [[a21 a22] a23].
    destruct (rank (Prim2SF b1)) as [[b11 b12] b13].
    destruct (rank (Prim2SF b2)) as [[b21 b22] b23].
    destruct (rank (Prim2SF c1)) as [[c11 c12] c13].
    destruct (rank (Prim2SF c2)) as [[c21 c22] c23].
    unfold below. cbn [fst snd]. rewrite !pair_equal_spec.
    repeat split; try lia.
  - intros Hnan. unfold operator_ne, operator_lt, operator_eq.
    destruct (is_nan_compare _ (cellSizeFactor b) Hnan) as (-> & -> & -> & ->).
    destruct (is_nan_compare _ (cellSizeFactor a) Hnan) as (_ & _ & -> & _).
    cbn. repeat split.
Qed.

(** The default object, a larger skin and a larger cell size factor. *)
Lemma operators_order_witness :
  operator_lt default_info (MkInfo 1%float 0.5%float) = true
  /\ operator_lt (MkInfo 1%float 0.5%float) (MkInfo 2%float 0%float) = true
  /\ operator_lt default_info (MkInfo 2%float 0%float) = true.
Proof.
  destruct (operators_order default_info (MkInfo 1%float 0.5%float)
              (MkInfo 2%float 0%float))
    as ((_ & _ & _ & _ & Htrans & _) & _);
    [split; reflexivity|split; reflexivity|split; reflexivity|].
  split; [reflexivity|]. split; [reflexivity|].
  apply Htrans; reflexivity.
Defined.

End ContainerSelectorInfo.

(** ** utils/ArrayUtils.h: to_string *)

Module ArrayUtils.

Section ToString.
Context {T : Type}.
(** What [strStream << x] appends for an element. *)
Variable show : T -> string.

(** [to_string(a, delimiter)]. *)
Definition to_string (a : list T) (delimiter : string) : string :=
  match a with
  | [] => EmptyString
  | x :: rest =>
      foldl (fun strStream y => (strStream +:+ delimiter) +:+ show y) (show x) rest
  end.

Lemma append_assoc (s1 s2 s3 : string) : (s1 +:+ s2) +:+ s3 = s1 +:+ (s2 +:+ s3).
Proof.
  induction s1 as [|c s1 IH]; [reflexivity|].
  change (String c ((s1 +:+ s2) +:+ s3) = String c (s1 +:+ (s2 +:+ s3))).
  now rewrite IH.
Qed.

Lemma stream_prefix (delimiter : string) (rest : list T) (s1 s2 : string) :
  foldl (fun strStream y => (strStream +:+ delimiter) +:+ show y) (s1 +:+ s2) rest
  = s1 +:+ foldl (fun strStream y => (strStream +:+ delimiter) +:+ show y) s2 rest.
Proof.
  revert s2. induction rest as [|y rest IH]; intros s2; [reflexivity|].
  cbn [foldl]. rewrite <- IH. f_equal. now rewrite !append_assoc.
Qed.

(** X22.  [to_string] of the empty container is the empty string, of one
    element what the stream prints for it, and of two non-empty containers
    one after the other the two strings with the delimiter between them. *)
Theorem to_string_app (a b : list T) (delimiter : string) :
  to_string [] delimiter = EmptyString
  /\ (forall x, to_string [x] delimiter = show x)
  /\ (a ≠ [] -> b ≠ [] ->
      to_string (a ++ b) delimiter
      = to_string a delimiter +:+ (delimiter +:+ to_string b delimiter)).
Proof.
  split; [reflexivity|]. split; [reflexivity|].
  intros Ha Hb. destruct a as [|x a]; [congruence|].
  destruct b as [|y b]; [congruence|]. clear Ha Hb.
  cbn [to_string app]. rewrite foldl_app. cbn [foldl].
  generalize (foldl (fun strStream y0 => (strStream +:+ delimiter) +:+ show y0)
                (show x) a). intros s.
  rewrite append_assoc, stream_prefix. f_equal. apply stream_prefix.
Qed.

End ToString.

Lemma to_string_app_witness :
  to_string (fun n : nat => match n with O => "0" | S _ => "n" end) ([0; 1] ++ [0])%nat ", "
  = "0, n" +:+ (", " +:+ "0").
Proof.
  destruct (to_string_app (fun n : nat => match n with O => "0" | S _ => "n" end) [0; 1]%nat
              [0%nat] ", ") as (_ & _ & H).
  apply H; discriminate.
Defined.

End ArrayUtils.

(** ** C08CellHandler.h: the base step stays inside the vector of cells *)

Module C08InRange.
Import ThreeDimensionalMapping ArrayMath LinkedCellTraversals C08Traversal.

Lemma plus_offset dims b d :
  inGrid dims b -> inGrid dims d -> inGrid dims (add3 b d) ->
  dims.1.1 * dims.1.2 * dims.2 <= 2 ^ 64 ->
  u64 (index3 dims b + index3 dims d) = index3 dims (add3 b d).
Proof.
  intros Hb Hd Hbd Hsize.
  destruct (index3_lin dims b Hb Hsize) as [-> _].
  destruct (index3_lin dims d Hd Hsize) as [-> _].
  destruct (index3_lin dims _ Hbd Hsize) as [-> Hr].
  destruct dims as [[nx ny] nz], b as [[x y] z], d as [[dx dy] dz].
  unfold add3 in *. cbn in *.
  replace (x + nx * (y + ny * z) + (dx + nx * (dy + ny * dz)))
    with (x + dx + nx * (y + dy + ny * (z + dz))) by ring.
  now rewrite u64_small by lia.
Qed.

(** X23.  The base step of the c08 handler, in double precision, with
    the same overlap [ov] in the three dimensions, run at a cell [b] that
    has [ov] further cells behind it in every dimension: every call on the
    cell functor is made on the cells [b + d1] and [b + d2] for
    displacements between 0 and [ov] per dimension for which the test of
    [computeOffsets] on the rounded squared distance of the boxes
    succeeds, and both indices are inside the vector of cells. *)
Theorem c08_base_step_in_range (normalize : Binary64.array3 -> Binary64.array3)
  (dims : Z * Z * Z) (L : Binary64.double) (cl : Binary64.array3) (ov : Z)
  (b : Z * Z * Z) (c : LinkedCellTraversals64.CellFunctorCall) :
  0 <= ov -> (ov + 1) * (ov + 1) * (ov + 1) <= 2 ^ 64 ->
  dims.1.1 * dims.1.2 * dims.2 <= 2 ^ 64 ->
  0 <= b.1.1 -> b.1.1 + ov < dims.1.1 ->
  0 <= b.1.2 -> b.1.2 + ov < dims.1.2 ->
  0 <= b.2 -> b.2 + ov < dims.2 ->
  c ∈ LinkedCellTraversals64.C08_processBaseCell
        (LinkedCellTraversals64.C08_computeOffsets normalize dims L cl (ov, ov, ov))
        (index3 dims b) ->
  exists d1 d2,
    (0 <= d1.1.1 <= ov /\ 0 <= d1.1.2 <= ov /\ 0 <= d1.2 <= ov)
    /\ (0 <= d2.1.1 <= ov /\ 0 <= d2.1.2 <= ov /\ 0 <= d2.2 <= ov)
    /\ LinkedCellTraversals64.withinInteractionLength L
         (LinkedCellTraversals64.C08_distVec cl
            (Z.abs (d2.1.1 - d1.1.1)) (Z.abs (d2.1.2 - d1.1.2))
            (Z.abs (d2.2 - d1.2))) = true
    /\ LinkedCellTraversals64.callCells c
       = (index3 dims (add3 b d1), index3 dims (add3 b d2))
    /\ 0 <= index3 dims (add3 b d1) < dims.1.1 * dims.1.2 * dims.2
    /\ 0 <= index3 dims (add3 b d2) < dims.1.1 * dims.1.2 * dims.2.
Proof.
  intros Hov Hcube Hsize X0 X1 Y0 Y1 Z0 Z1 Hc.
  apply LinkedCellTraversals64.elem_of_C08_processBaseCell64
    in Hc as (o1 & o2 & r & Hin & ->).
  apply LinkedCellTraversals64.C08_computeOffsets_kept in Hin; [|assumption..].
  destruct Hin as (x & y & z & a & b' & Hx & Hy & Hz & Hcorner & -> & -> & Hdist & ->).
  assert (Ha : 0 <= a <= ov /\ 0 <= b' <= ov).
  { unfold C08_corner in Hcorner. lia. }
  assert (G : forall d, 0 <= d.1.1 <= ov -> 0 <= d.1.2 <= ov -> 0 <= d.2 <= ov ->
            u64 (index3 dims b + index3 dims d) = index3 dims (add3 b d)
            /\ 0 <= index3 dims (add3 b d) < dims.1.1 * dims.1.2 * dims.2).
  { intros d D1 D2 D3.
    assert (Gb : inGrid dims b) by (unfold inGrid; lia).
    assert (Gd : inGrid dims d) by (unfold inGrid; lia).
    assert (Gbd : inGrid dims (add3 b d))
      by (unfold inGrid, add3; destruct b as [[? ?] ?], d as [[? ?] ?]; cbn in *; lia).
    split; [now apply plus_offset|].
    now destruct (index3_lin dims _ Gbd Hsize). }
  destruct (G (a, b', z)) as [E1 R1]; [cbn; lia..|].
  destruct (G (x, y, 0)) as [E2 R2]; [cbn; lia..|].
  change (threeToOneD a b' z dims) with (index3 dims (a, b', z)).
  change (threeToOneD x y 0 dims) with (index3 dims (x, y, 0)).
  rewrite E1, E2.
  exists (a, b', z), (x, y, 0). cbn [fst snd].
  split; [lia|]. split; [lia|].
  split; [now replace (Z.abs (0 - z)) with z by lia|].
  split; [|now split].
  destruct (bool_decide _) eqn:E; [|reflexivity].
  apply bool_decide_eq_true in E. cbn. now rewrite E.
Qed.

Lemma c08_base_step_in_range_witness :
  exists d1 d2,
    (0 <= d1.1.1 <= 1 /\ 0 <= d1.1.2 <= 1 /\ 0 <= d1.2 <= 1)
    /\ (0 <= d2.1.1 <= 1 /\ 0 <= d2.1.2 <= 1 /\ 0 <= d2.2 <= 1)
    /\ LinkedCellTraversals64.withinInteractionLength 1%float
         (LinkedCellTraversals64.C08_distVec (1, 1, 1)%float
            (Z.abs (d2.1.1 - d1.1.1)) (Z.abs (d2.1.2 - d1.1.2))
            (Z.abs (d2.2 - d1.2))) = true
    /\ LinkedCellTraversals64.callCells (LinkedCellTraversals64.CallProcessCell 13)
       = (index3 (3, 3, 3) (add3 (1, 1, 1) d1),
          index3 (3, 3, 3) (add3 (1, 1, 1) d2))
    /\ 0 <= index3 (3, 3, 3) (add3 (1, 1, 1) d1) < 3 * 3 * 3
    /\ 0 <= index3 (3, 3, 3) (add3 (1, 1, 1) d2) < 3 * 3 * 3.
Proof.
  apply (c08_base_step_in_range (fun v => v) (3, 3, 3) 1%float (1, 1, 1)%float 1
           (1, 1, 1) (LinkedCellTraversals64.CallProcessCell 13));
    try (cbn; lia).
  vm_compute. left.
Defined.

End C08InRange.

(** ** VerletLists.h: iteratePairwise with a traversal of the wrong type *)

Module VerletListsIterate.

Definition wrong_type : string :=
  "trying to use a traversal of wrong type in VerletLists::iteratePairwise".

Lemma exception_then {A : Type} (h : Handler) (what : string) (a : A)
  (k : A -> Run A) :
  let r := (exception h what ≫= fun _ => mret a) ≫= k in
  (exists rest, raised r = what :: rest)
  /\ (returns (exception h what) = Some tt ->
      raised r = what :: raised (k a) /\ result r = result (k a))
  /\ (returns (exception h what) = None ->
      raised r = [what] /\ returns r = None).
Proof.
  destruct h as [[] []]; cbn; (split; [eauto|]);
    split; try discriminate; intros _; split; reflexivity.
Qed.

Section Traversal.
(** The traversal object and its virtual member functions; the three
    steps of a traversal may raise, each gives the object as it leaves
    it. *)
Context {Traversal : Type}.
Variable setCellsAndNeighborLists : Traversal -> Traversal.
Variable initTraversal : Traversal -> Run Traversal.
Variable traverseParticlePairs : Traversal -> Run Traversal.
Variable endTraversal : Traversal -> Run Traversal.

(** [iteratePairwise(traversal)]; [isVerletTraversal] says whether the
    [dynamic_cast] to [VerletTraversalInterface] succeeds. *)
Definition iteratePairwise (h : Handler) (isVerletTraversal : bool)
  (traversal : Traversal) : Run Traversal :=
  (if isVerletTraversal then mret (setCellsAndNeighborLists traversal)
   else exception h wrong_type ≫= fun _ => mret traversal)
  ≫= fun traversal =>
  initTraversal traversal ≫= fun traversal =>
  traverseParticlePairs traversal ≫= fun traversal =>
  endTraversal traversal.

(** X24.  [iteratePairwise] hands the cells and the neighbour lists to a
    traversal that is a [VerletTraversalInterface] and then runs its three
    steps: it raises what they raise and ends as they end.  For any other
    traversal it hands the wrong-type message to the exception handler
    first and never sets the lists.  When the handler throws or aborts,
    no step of the traversal is run; when it comes back (as under
    [ignore]) the three steps are run on the traversal as it is, and what
    they raise follows the wrong-type message. *)
Theorem iteratePairwise_wrong_type (h : Handler) (traversal : Traversal) :
  let steps t :=
    initTraversal t ≫= fun t => traverseParticlePairs t ≫= fun t =>
    endTraversal t in
  iteratePairwise h true traversal = steps (setCellsAndNeighborLists traversal)
  /\ (exists rest, raised (iteratePairwise h false traversal) = wrong_type :: rest)
  /\ (returns (exception h wrong_type) = Some tt ->
      raised (iteratePairwise h false traversal)
      = wrong_type :: raised (steps traversal)
      /\ result (iteratePairwise h false traversal) = result (steps traversal))
  /\ (returns (exception h wrong_type) = None ->
      raised (iteratePairwise h false traversal) = [wrong_type]
      /\ returns (iteratePairwise h false traversal) = None)
  /\ iteratePairwise throwing false traversal
     = MkRun [wrong_type] (Thrown wrong_type)
  /\ iteratePairwise (MkHandler ignore customReturns) false traversal
     = MkRun (wrong_type :: raised (steps traversal)) (result (steps traversal)).
Proof.
  intros steps.
  destruct (exception_then h wrong_type traversal steps) as (Hfirst & Hback & Hnot).
  split; [apply Run_bind_ret|].
  split; [exact Hfirst|]. split; [exact Hback|]. split; [exact Hnot|].
  split; [reflexivity|].
  destruct (exception_then (MkHandler ignore customReturns) wrong_type traversal
              steps) as (_ & Hignore & _).
  destruct (Hignore eq_refl) as [Hraised Hresult].
  unfold iteratePairwise. fold steps.
  destruct ((exception _ wrong_type ≫= _) ≫= steps) as [r res].
  cbn in Hraised, Hresult. now subst.
Qed.

End Traversal.

End VerletListsIterate.

(** ** VerletLists.h: what the SoA lists depend on *)

Module VerletListsRebuild.
Import VerletLists.

(** The state [generateSoAListFromAoSVerletLists] leaves behind, written
    out. *)
Definition rowOf (particles : list nat) : gmap nat nat :=
  (foldl setRow (∅, 0%nat) particles).1.

Definition generated (particles : list nat) (this : Container) : Container :=
  MkContainer (_neighborListIsValid this) (_aosNeighborLists this)
    (rowOf particles)
    ((fun p => translate (rowOf particles) (_aosNeighborLists this !!! p))
       <$> particles)
    true.

Lemma generate_generated (particles : list nat) (this : Container) :
  NoDup particles ->
  (forall p, p ∈ particles <-> is_Some (_aosNeighborLists this !! p)) ->
  (forall p l n, _aosNeighborLists this !! p = Some l -> n ∈ l -> n ∈ particles) ->
  generateSoAListFromAoSVerletLists particles this
  = mret (generated particles this).
Proof.
  intros Hnd Hdom Hpartners.
  destruct (setRow_spec particles Hnd) as [_ Hmap].
  fold (rowOf particles) in Hmap.
  assert (Hsize : size (_aosNeighborLists this) = length particles).
  { rewrite <- size_dom, <- (size_list_to_set (C := gset nat)) by assumption.
    f_equal. apply set_eq. intros p.
    now rewrite elem_of_dom, elem_of_list_to_set, Hdom. }
  assert (Hrows : forall x, x ∈ particles -> is_Some (rowOf particles !! x)).
  { intros x Hx. apply list_elem_of_lookup_1 in Hx as [r Hr]. exists r.
    now apply Hmap. }
  destruct (convertLists_spec (rowOf particles) (length particles)
              (map_to_list (_aosNeighborLists this)))
    with (lists := resize (size (_aosNeighborLists this)) []
                     (_soaNeighborLists this))
    as (lists' & Hrun & Hlen & Hlists & _).
  - apply NoDup_fst_map_to_list.
  - intros p p' k Hp Hp'. apply Hmap in Hp, Hp'. congruence.
  - intros p l Hin. apply elem_of_map_to_list in Hin. split.
    + destruct (Hrows p) as [k Hk]; [apply Hdom; eauto|]. exists k.
      split; [assumption|]. apply Hmap in Hk. now apply lookup_lt_Some in Hk.
    + intros x Hx. apply Hrows. eapply Hpartners; eassumption.
  - now rewrite length_resize.
  - unfold generateSoAListFromAoSVerletLists. cbn zeta.
    fold (rowOf particles). rewrite Hrun, Run_bind_ret. cbn [fst snd].
    unfold generated. do 2 f_equal.
    apply list_eq. intros k. rewrite list_lookup_fmap.
    destruct (particles !! k) as [p|] eqn:Hk; cbn.
    + destruct (proj1 (Hdom p)) as [l Hl];
        [eapply list_elem_of_lookup_2; eassumption|].
      rewrite (Hlists p l k); [|now apply elem_of_map_to_list|now apply Hmap].
      now rewrite lookup_total_alt, Hl.
    + apply lookup_ge_None. apply lookup_ge_None in Hk. lia.
Qed.

(** X25.  In the state [updateVerletListsAoS] leaves behind (the
    particles are different objects, the AoS list has exactly them as keys
    and every partner is one of them) the result of
    [generateSoAListFromAoSVerletLists] depends only on the particles and
    the AoS lists: running it from two containers that differ in the old
    SoA lists, row map or SoA flag gives the same state, and running it a
    second time changes nothing. *)
Theorem generateSoAListFromAoSVerletLists_idempotent
  (particles : list nat) (this other : Container) :
  NoDup particles ->
  (forall p, p ∈ particles <-> is_Some (_aosNeighborLists this !! p)) ->
  (forall p l n, _aosNeighborLists this !! p = Some l -> n ∈ l -> n ∈ particles) ->
  _aosNeighborLists other = _aosNeighborLists this ->
  _neighborListIsValid other = _neighborListIsValid this ->
  exists this',
    generateSoAListFromAoSVerletLists particles this = mret this'
    /\ generateSoAListFromAoSVerletLists particles other = mret this'
    /\ generateSoAListFromAoSVerletLists particles this' = mret this'.
Proof.
  intros Hnd Hdom Hpartners Haos Hvalid.
  exists (generated particles this).
  split; [now apply generate_generated|]. split.
  - rewrite generate_generated; [|assumption|now rewrite Haos..].
    unfold generated. now rewrite Haos, Hvalid.
  - rewrite generate_generated; [reflexivity|assumption..].
Qed.

Lemma generateSoAListFromAoSVerletLists_idempotent_witness :
  exists this',
    generateSoAListFromAoSVerletLists sample_particles sample_container
    = mret this'
    /\ generateSoAListFromAoSVerletLists sample_particles
         (MkContainer true (_aosNeighborLists sample_container)
            (<[10%nat := 5%nat]> ∅) [[7%nat]] true) = mret this'
    /\ generateSoAListFromAoSVerletLists sample_particles this' = mret this'.
Proof.
  apply generateSoAListFromAoSVerletLists_idempotent; [| | |reflexivity..].
  - apply (bool_decide_unpack _). vm_compute. exact I.
  - intros p. cbn [sample_container _aosNeighborLists].
    rewrite <- elem_of_dom, dom_list_to_map_L, elem_of_list_to_set.
    reflexivity.
  - intros p l n Hl Hn. cbn [sample_container _aosNeighborLists] in Hl.
    apply elem_of_list_to_map_2 in Hl. unfold sample_particles.
    repeat (apply elem_of_cons in Hl as [Hl|Hl];
            [injection Hl as -> ->;
             repeat (apply elem_of_cons in Hn as [->|Hn];
                     [apply (bool_decide_unpack _); vm_compute; exact I|]);
             now apply elem_of_nil in Hn|]).
    now apply elem_of_nil in Hl.
Defined.

End VerletListsRebuild.

(** ** AsBuildPairGeneratorFunctor.h with CellFunctor.h: no partner
    twice *)

Module AsBuildNoDuplicates.
Import ArrayMath AsBuildPairGeneratorFunctor AsBuildLayouts.

Lemma address_inj (univ : list Particle) (p q : Particle) :
  NoDup (address <$> univ) -> p ∈ univ -> q ∈ univ ->
  address p = address q -> p = q.
Proof.
  intros Hnd Hp Hq Heq.
  apply list_elem_of_lookup_1 in Hp as [i Hi].
  apply list_elem_of_lookup_1 in Hq as [j Hj].
  assert (Hi' : (address <$> univ) !! i = Some (address p))
    by now rewrite list_lookup_fmap, Hi.
  assert (Hj' : (address <$> univ) !! j = Some (address p))
    by now rewrite list_lookup_fmap, Hj, Heq.
  pose proof (NoDup_lookup _ _ _ _ Hnd Hi' Hj') as ->. congruence.
Qed.

(** The pairs of AoS calls on different particles of [univ], all with the
    same Newton3 flag. *)
Lemma NoDup_pairsOf (cs : Q) (univ : list Particle) (newton3 : bool)
  (calls : list (CellFunctor.FunctorCall Particle SoA)) :
  NoDup (address <$> univ) -> NoDup calls ->
  (forall c, c ∈ calls ->
     exists p q, c = CellFunctor.AoSFunctor p q newton3 /\ p ∈ univ /\ q ∈ univ) ->
  NoDup (pairsOf cs calls).
Proof.
  intros Hnd Hcalls Hform. unfold pairsOf. apply NoDup_bind; [| |assumption].
  - intros c1 c2 y H1 H2 Hy1 Hy2.
    destruct (Hform c1 H1) as (p1 & q1 & -> & Hp1 & Hq1).
    destruct (Hform c2 H2) as (p2 & q2 & -> & Hp2 & Hq2).
    cbn in Hy1, Hy2.
    destruct (Qlt_bool _ _); [|now apply elem_of_nil in Hy1].
    destruct (Qlt_bool _ _); [|now apply elem_of_nil in Hy2].
    apply list_elem_of_singleton in Hy1, Hy2. subst y. injection Hy2 as Ep Eq.
    apply (address_inj univ) in Ep; [|assumption..].
    apply (address_inj univ) in Eq; [|assumption..]. now subst.
  - intros c Hc. destruct (Hform c Hc) as (p & q & -> & _). cbn.
    destruct (Qlt_bool _ _); [apply NoDup_singleton|apply NoDup_nil_2].
Qed.

Lemma NoDup_list_of (pairs : list (nat * nat)) (p : nat) :
  NoDup pairs -> NoDup (appendPairs pairs ∅ !!! p).
Proof.
  intros Hnd. rewrite appendPairs_lookup, lookup_total_empty.
  change (inhabitant ++ ?l) with l.
  apply NoDup_fmap_2_strong; [|now apply NoDup_filter].
  intros [a x] [b y] Ha Hb Heq. cbn in Heq. subst y.
  apply list_elem_of_filter in Ha as [Ha _], Hb as [Hb _]. cbn in Ha, Hb. congruence.
Qed.

Lemma calls_of_cell (cell : ParticleCell) (newton3 : bool) c :
  c ∈ CellFunctor.processCell false newton3 cell ->
  exists p q, c = CellFunctor.AoSFunctor p q newton3
    /\ p ∈ CellFunctor.particles cell /\ q ∈ CellFunctor.particles cell.
Proof.
  destruct newton3; cbn; intros Hc.
  - apply CellFunctor.elem_of_processCellAoSN3 in Hc
      as (i & j & p & q & _ & Hp & Hq & ->).
    exists p, q. split; [reflexivity|].
    split; eapply list_elem_of_lookup_2; eassumption.
  - apply CellFunctor.elem_of_processCellAoSNoN3 in Hc
      as (i & j & p & q & _ & Hp & Hq & ->).
    exists p, q. split; [reflexivity|].
    split; eapply list_elem_of_lookup_2; eassumption.
Qed.

Lemma calls_of_cellPair (cell1 cell2 : ParticleCell) (newton3 : bool) c :
  c ∈ CellFunctor.processCellPair false newton3 cell1 cell2 ->
  exists p q, c = CellFunctor.AoSFunctor p q newton3
    /\ p ∈ CellFunctor.particles cell1 ++ CellFunctor.particles cell2
    /\ q ∈ CellFunctor.particles cell1 ++ CellFunctor.particles cell2.
Proof.
  destruct newton3; cbn; intros Hc.
  - apply CellFunctor.elem_of_processCellPairAoSN3 in Hc as (p & q & Hp & Hq & ->).
    exists p, q. rewrite !elem_of_app. auto.
  - apply CellFunctor.elem_of_processCellPairAoSNoN3 in Hc
      as (p & q & Hp & Hq & [-> | ->]).
    + exists p, q. rewrite !elem_of_app. auto.
    + exists q, p. rewrite !elem_of_app. auto.
Qed.

Lemma NoDup_calls_of_cell (cell : ParticleCell) (newton3 : bool) :
  NoDup (CellFunctor.particles cell) ->
  NoDup (CellFunctor.processCell false newton3 cell).
Proof.
  destruct newton3; cbn;
    [apply CellFunctor.NoDup_processCellAoSN3
    |apply CellFunctor.NoDup_processCellAoSNoN3].
Qed.

Lemma NoDup_calls_of_cellPair (cell1 cell2 : ParticleCell) (newton3 : bool) :
  NoDup (CellFunctor.particles cell1 ++ CellFunctor.particles cell2) ->
  NoDup (CellFunctor.processCellPair false newton3 cell1 cell2).
Proof.
  destruct newton3; cbn; intros Hnd.
  - apply NoDup_app in Hnd as (H1 & _ & H2).
    now apply CellFunctor.NoDup_processCellPairAoSN3.
  - now apply CellFunctor.NoDup_processCellPairAoSNoN3.
Qed.

(** The calls in AoS layout do not look at the buffer of the cell. *)
Definition reloaded (cell : ParticleCell) : ParticleCell :=
  CellFunctor.MkCell (CellFunctor.particles cell)
    (loaded (CellFunctor.particles cell)).

(** X26.  In AoS layout, for particles that are different objects: after
    the calls the cell functor makes for a cell, or for a pair of cells,
    were replayed on the empty list, no list names a partner twice, with
    Newton3 and without; and with Newton3 a pair of particles is never
    recorded in both directions. *)
Theorem built_lists_have_no_duplicates (cutoffskin : Q)
  (cell cell1 cell2 : ParticleCell) (useNewton3 : bool) :
  NoDup (address <$> CellFunctor.particles cell) ->
  NoDup (address <$> (CellFunctor.particles cell1 ++ CellFunctor.particles cell2)) ->
  (forall p,
     NoDup (replay cutoffskin (CellFunctor.processCell false useNewton3 cell) ∅
            !!! p))
  /\ (forall p,
        NoDup (replay cutoffskin
                 (CellFunctor.processCellPair false useNewton3 cell1 cell2) ∅
               !!! p))
  /\ (forall p x,
        x ∈ replay cutoffskin (CellFunctor.processCell false true cell) ∅ !!! p ->
        p ∉ replay cutoffskin (CellFunctor.processCell false true cell) ∅ !!! x)
  /\ (forall p x,
        x ∈ replay cutoffskin
              (CellFunctor.processCellPair false true cell1 cell2) ∅ !!! p ->
        p ∉ replay cutoffskin
              (CellFunctor.processCellPair false true cell1 cell2) ∅ !!! x).
Proof.
  intros Hnd Hnd12.
  pose proof (NoDup_fmap_1 _ _ Hnd) as Hp.
  pose proof (NoDup_fmap_1 _ _ Hnd12) as Hp12.
  split; [|split; [|split]].
  - intros p. rewrite replay_appendPairs. apply NoDup_list_of.
    apply (NoDup_pairsOf cutoffskin (CellFunctor.particles cell) useNewton3);
      [assumption|now apply NoDup_calls_of_cell|apply calls_of_cell].
  - intros p. rewrite replay_appendPairs. apply NoDup_list_of.
    apply (NoDup_pairsOf cutoffskin
             (CellFunctor.particles cell1 ++ CellFunctor.particles cell2)
             useNewton3);
      [assumption|now apply NoDup_calls_of_cellPair|apply calls_of_cellPair].
  - intros p x. rewrite !elem_of_replay.
    change (CellFunctor.processCell false true cell)
      with (CellFunctor.processCell false true (reloaded cell)).
    rewrite !pairsOf_cell by reflexivity. cbn [reloaded CellFunctor.particles].
    intros (i & j & a & b & Hij & Ha & Hb & _ & [[= -> ->]|[? _]]); [|discriminate].
    intros (i' & j' & a' & b' & Hij' & Ha' & Hb' & _ & [[= E1 E2]|[? _]]);
      [|discriminate].
    assert (a' = b).
    { apply (address_inj (CellFunctor.particles cell)); [assumption| | |congruence];
        eapply list_elem_of_lookup_2; eassumption. }
    assert (b' = a).
    { apply (address_inj (CellFunctor.particles cell)); [assumption| | |congruence];
        eapply list_elem_of_lookup_2; eassumption. }
    subst a' b'.
    pose proof (NoDup_lookup _ _ _ _ Hp Ha Hb').
    pose proof (NoDup_lookup _ _ _ _ Hp Hb Ha'). lia.
  - intros p x. rewrite !elem_of_replay.
    change (CellFunctor.processCellPair false true cell1 cell2)
      with (CellFunctor.processCellPair false true (reloaded cell1) (reloaded cell2)).
    rewrite !pairsOf_cellPair by reflexivity. cbn [reloaded CellFunctor.particles].
    intros (a & b & Ha & Hb & _ & [[= -> ->]|[? _]]); [|discriminate].
    intros (a' & b' & Ha' & Hb' & _ & [[= E1 E2]|[? _]]); [|discriminate].
    assert (a' = b).
    { apply (address_inj (CellFunctor.particles cell1 ++ CellFunctor.particles cell2));
        [assumption| | |congruence]; rewrite elem_of_app; auto. }
    subst a'. apply NoDup_app in Hp12 as (_ & Hdisj & _). now apply (Hdisj b).
Qed.

Lemma built_lists_have_no_duplicates_witness :
  NoDup (replay 1 (CellFunctor.processCell false false sample_pair_cell) ∅
         !!! address sample_i).
Proof.
  refine (proj1 (built_lists_have_no_duplicates 1 sample_pair_cell
                   sample_pair_cell (CellFunctor.MkCell [] (loaded [])) false _ _)
            (address sample_i)).
  - apply (bool_decide_unpack _). vm_compute. exact I.
  - apply (bool_decide_unpack _). vm_compute. exact I.
Defined.

End AsBuildNoDuplicates.
